(** * SoulVerse: the mixing endpoint and the playback scheduler

    A shallow embedding of two parts of the repository:

    - [Mix]: the server-side handler of the mixing endpoint (the
      multipart upload, the two scratch files, the call of the external
      media processor, the streamed answer and the clean-up);
    - [Player]: the client-side playback code of [App.tsx]
      ([stopAudio], [playAudio], [setAudioAndSyncData],
      [handleMusicChange]) with its delayed highlight callbacks;
    - [Doubles]: the arithmetic of [playAudio] in double precision.

    Everything the handler obtains from outside (the parsed form, the
    clock, the random tokens, the outcome of each file-system call and of
    the media processor) is an explicit input, so each run is a total
    function of the request, the environment and the initial disk. *)

From Stdlib Require Import String Ascii List ZArith NArith QArith Qround Qpower Lia Lqa.
From stdpp Require Import base option list gmap strings pretty.


(* ===================================================================== *)
(** ** The mixing endpoint *)
(* ===================================================================== *)

Module Mix.

(** *** JavaScript values that occur in the handler *)

(** A rejected promise or a thrown exception: [e.code] and [e.message]. *)
Record JsError := mkError { err_code : option string; err_message : string }.

Definition ENOENT (msg : string) : JsError := mkError (Some "ENOENT") msg.
(** [e.code === 'ENOENT'] *)
Definition is_ENOENT (e : JsError) : bool :=
  match err_code e with
  | Some code => String.eqb code "ENOENT"
  | None => false
  end.
Definition TypeError_path : JsError :=
  mkError (Some "ERR_INVALID_ARG_TYPE")
          "The path argument must be of type string or an instance of Buffer or URL.".

(** What a property read [obj[key]] on an object literal can produce:
    an own string property, a member inherited from [Object.prototype],
    or [undefined]. *)
Inductive JsValue :=
| VUndefined
| VString (s : string)
| VInherited (name : string).

(** The property names every object literal inherits. *)
Definition object_prototype_keys : list string :=
  [ "constructor"; "__defineGetter__"; "__defineSetter__"; "hasOwnProperty";
    "__lookupGetter__"; "__lookupSetter__"; "isPrototypeOf";
    "propertyIsEnumerable"; "toString"; "valueOf"; "__proto__";
    "toLocaleString" ].

(** [obj[key]] for an object literal with the own properties [own]. *)
Definition js_get (own : gmap string string) (key : string) : JsValue :=
  match own !! key with
  | Some v => VString v
  | None => if bool_decide (key ∈ object_prototype_keys)
            then VInherited key else VUndefined
  end.

(** JavaScript truthiness ([!v] is its negation). *)
Definition truthy (v : JsValue) : bool :=
  match v with
  | VUndefined => false
  | VString s => negb (String.eqb s "")
  | VInherited _ => true
  end.

(** The one-character string holding a double quote (code 34). *)
Definition dquote : string := String (Ascii.ascii_of_nat 34) EmptyString.

(** [path.join] on already normalised segments. *)
Definition path_join (parts : list string) : string :=
  match parts with
  | [] => "."
  | p :: ps => fold_left (fun acc q => acc +:+ "/" +:+ q) ps p
  end.

(** The module-level table of background tracks. *)
Definition MUSIC_FILES (cwd : string) : gmap string string :=
  <[ "ambient" := path_join [cwd; "public"; "audio"; "ambient_background.mp3"] ]>
  (<[ "orchestral" := path_join [cwd; "public"; "audio"; "orchestral_background.mp3"] ]> ∅).

(** *** The request, as [form.parse] delivers it *)

Record UploadedFile := mkFile { filepath : string; size : N }.

Record ParsedForm := mkForm {
  files_voice_audio : option (list UploadedFile);
  fields_musicChoice : option (list string) }.

Inductive FormOutcome :=
| FormError (e : JsError)
| FormParsed (f : ParsedForm).

Record Request := mkRequest { method : string; form : FormOutcome }.

(** *** The form parser *)









(** *** The response object *)

Inductive HeaderValue := HStr (s : string) | HNum (n : N).

Inductive Body :=
| BodyNone
| BodyJson (error : string)
| BodyStream (sent : list Byte.byte).

Record Response := mkResponse {
  statusCode : N;
  headers : gmap string HeaderValue;
  headersSent : bool;
  ended : bool;
  body : Body }.

(** A fresh [ServerResponse]: status 200 until told otherwise. *)
Definition fresh_response : Response := mkResponse 200 ∅ false false BodyNone.

(** *** The external media processor *)

Record FfmpegJob := mkJob {
  inputs : list string;
  complexFilter : list string;
  outputOptions : list string;
  output : string }.

(** The processor either emits [end], having written the output file, or
    [error] with a message, possibly leaving a partial output behind. *)
Inductive FfmpegOutcome :=
| FfmpegEnd (out : list Byte.byte)
| FfmpegError (msg : string) (partial : option (list Byte.byte)).

(** The read stream reaches [end], or emits [error] after some bytes went
    out, or does neither: when the response is closed while the file is
    being piped, [pipe] detaches the source and leaves it paused, and the
    handler listens for nothing else. *)
Inductive StreamOutcome :=
| StreamEnd
| StreamError (sent : nat) (e : JsError)
| StreamStalls (sent : nat).

(** The four places where the handler calls [fs.unlink]. *)
Inductive UnlinkSite :=
| AfterStreamVoice | AfterStreamMixed | FinallyVoice | FinallyMixed.

(** Everything the handler obtains from outside during one request. *)
Record Env := mkEnv {
  cwd : string;
  mkdir_fault : option JsError;
  now_voice : N;
  rand_voice : string;
  now_mixed : N;
  rand_mixed : string;
  rename_fault : option JsError;
  ffmpeg_outcome : FfmpegOutcome;
  stat_fault : option JsError;
  stream_outcome : StreamOutcome;
  unlink_fault : UnlinkSite → option JsError }.

(** *** Observable effects *)

Inductive Event :=
| EvAccess (p : JsValue)
| EvMkdir (p : string)
| EvRename (src dst : string)
| EvFfmpeg (job : FfmpegJob)
| EvStat (p : string)
| EvCreateReadStream (p : string)
| EvUnlink (p : string).

Inductive LogEntry :=
| LogError (msg : string) (detail : string)
| LogWarn (msg : string).

(** The state one request threads through: the disk, what was done, what
    was logged, the response, and the two [let] variables of the handler. *)
Record State := mkState {
  fs : gmap string (list Byte.byte);
  trace : list Event;
  console : list LogEntry;
  res : Response;
  voiceFilePath : string;
  mixedFilePath : string }.

Definition init_state (disk : gmap string (list Byte.byte)) : State :=
  mkState disk [] [] fresh_response "" "".

Definition with_fs (f : gmap string (list Byte.byte) → gmap string (list Byte.byte)) (s : State) : State :=
  mkState (f (fs s)) (trace s) (console s) (res s) (voiceFilePath s) (mixedFilePath s).
Definition with_trace (f : list Event → list Event) (s : State) : State :=
  mkState (fs s) (f (trace s)) (console s) (res s) (voiceFilePath s) (mixedFilePath s).
Definition with_console (f : list LogEntry → list LogEntry) (s : State) : State :=
  mkState (fs s) (trace s) (f (console s)) (res s) (voiceFilePath s) (mixedFilePath s).
Definition with_res (f : Response → Response) (s : State) : State :=
  mkState (fs s) (trace s) (console s) (f (res s)) (voiceFilePath s) (mixedFilePath s).
Definition set_voiceFilePath (p : string) (s : State) : State :=
  mkState (fs s) (trace s) (console s) (res s) p (mixedFilePath s).
Definition set_mixedFilePath (p : string) (s : State) : State :=
  mkState (fs s) (trace s) (console s) (res s) (voiceFilePath s) p.

(** *** A state-and-exception monad for [async] code *)

(** An awaited computation is fulfilled, is rejected, or never settles;
    in the last case the [async] function stays suspended at that [await]
    and nothing after it runs, no [catch] and no [finally] either. *)
Inductive result (A : Type) :=
| Ok (a : A)
| Throw (e : JsError)
| Unsettled.
Arguments Ok {A} a.
Arguments Throw {A} e.
Arguments Unsettled {A}.

Definition M (A : Type) : Type := State → result A * State.

Definition ret {A} (a : A) : M A := fun s => (Ok a, s).
Definition throw {A} (e : JsError) : M A := fun s => (Throw e, s).
(** A promise nothing ever resolves. *)
Definition never_settles {A} : M A := fun s => (Unsettled, s).
Definition bind {A B} (m : M A) (k : A → M B) : M B :=
  fun s => match m s with
           | (Ok a, s') => k a s'
           | (Throw e, s') => (Throw e, s')
           | (Unsettled, s') => (Unsettled, s')
           end.
Definition get : M State := fun s => (Ok s, s).
Definition modify (f : State → State) : M unit := fun s => (Ok tt, f s).

Notation "'let*' x ':=' m 'in' k" := (bind m (fun x => k))
  (at level 10, x name, m at level 100, k at level 200).
Notation "m ';;' k" := (bind m (fun _ => k))
  (at level 100, k at level 200, right associativity).

(** [try { body } catch (e) { handler }]. *)
Definition try_catch {A} (body : M A) (handler : JsError → M A) : M A :=
  fun s => match body s with
           | (Ok a, s') => (Ok a, s')
           | (Throw e, s') => handler e s'
           | (Unsettled, s') => (Unsettled, s')
           end.

(** [try { body } finally { fin }]: [fin] runs once [body] has settled;
    the outcome of [body] stands unless [fin] itself throws. *)
Definition try_finally {A} (body : M A) (fin : M unit) : M A :=
  fun s => match body s with
           | (Unsettled, s') => (Unsettled, s')
           | (r, s') => match fin s' with
                        | (Ok _, s'') => (r, s'')
                        | (Throw e, s'') => (Throw e, s'')
                        | (Unsettled, s'') => (Unsettled, s'')
                        end
           end.

(** [await p.then(ok, err)] seen from outside: the rejection becomes a
    value. *)
Definition settle {A} (m : M A) : M (JsError + A) :=
  fun s => match m s with
           | (Ok a, s') => (Ok (inr a), s')
           | (Throw e, s') => (Ok (inl e), s')
           | (Unsettled, s') => (Unsettled, s')
           end.

Definition emit (ev : Event) : M unit := modify (with_trace (fun t => t ++ [ev])).
Definition console_error (msg detail : string) : M unit :=
  modify (with_console (fun l => l ++ [LogError msg detail])).
Definition console_warn (msg : string) : M unit :=
  modify (with_console (fun l => l ++ [LogWarn msg])).

(** *** The response API *)

Definition res_status (code : N) : M unit :=
  modify (with_res (fun r => mkResponse code (headers r) (headersSent r) (ended r) (body r))).

Definition res_setHeader (name : string) (v : HeaderValue) : M unit :=
  modify (with_res (fun r =>
    mkResponse (statusCode r) (<[name := v]> (headers r)) (headersSent r) (ended r) (body r))).

(** [res.json({ error })]: writes the head and the body and ends the
    response; it throws when the head is already out.  Of the headers the
    framework derives from the body (Content-Length, ETag) nothing is
    recorded: [headers] holds what the handler sets and the Content-Type
    of a JSON answer, and says nothing about the absence of others. *)
Definition res_json (error : string) : M unit :=
  let* s := get in
  if headersSent (res s)
  then throw (mkError (Some "ERR_HTTP_HEADERS_SENT") "Cannot set headers after they are sent to the client")
  else modify (with_res (fun r =>
         mkResponse (statusCode r)
                    (<["Content-Type" := HStr "application/json; charset=utf-8"]> (headers r))
                    true true (BodyJson error))).

(** *** The file-system calls *)

Definition fs_access (p : JsValue) : M unit :=
  emit (EvAccess p) ;;
  match p with
  | VString path =>
      let* s := get in
      match fs s !! path with
      | Some _ => ret tt
      | None => throw (ENOENT ("no such file or directory, access '" +:+ path +:+ "'"))
      end
  | _ => throw TypeError_path
  end.

Definition fs_mkdir_recursive (fault : option JsError) (p : string) : M unit :=
  emit (EvMkdir p) ;;
  match fault with Some e => throw e | None => ret tt end.

Definition fs_rename (fault : option JsError) (src dst : string) : M unit :=
  emit (EvRename src dst) ;;
  match fault with
  | Some e => throw e
  | None =>
      let* s := get in
      match fs s !! src with
      | Some content => modify (with_fs (fun d => <[dst := content]> (delete src d)))
      | None => throw (ENOENT ("no such file or directory, rename '" +:+ src +:+ "'"))
      end
  end.

Definition fs_stat (fault : option JsError) (p : string) : M N :=
  emit (EvStat p) ;;
  match fault with
  | Some e => throw e
  | None =>
      let* s := get in
      match fs s !! p with
      | Some content => ret (N.of_nat (length content))
      | None => throw (ENOENT ("no such file or directory, stat '" +:+ p +:+ "'"))
      end
  end.

Definition fs_unlink (fault : option JsError) (p : string) : M unit :=
  emit (EvUnlink p) ;;
  if String.eqb p "" then throw (ENOENT "no such file or directory, unlink ''")
  else match fault with
       | Some e => throw e
       | None =>
           let* s := get in
           match fs s !! p with
           | Some _ => modify (with_fs (delete p))
           | None => throw (ENOENT ("no such file or directory, unlink '" +:+ p +:+ "'"))
           end
       end.

(** [fs.unlink(p).catch(e => e.code !== 'ENOENT' && console.warn(...))]. *)
Definition unlink_quiet (fault : option JsError) (label : string) (p : string) : M unit :=
  let* r := settle (fs_unlink fault p) in
  match r with
  | inr _ => ret tt
  | inl e =>
      if is_ENOENT e then ret tt
      else console_warn (label +:+ err_message e)
  end.

(** *** The handler *)

(** [`${prefix}-${Date.now()}-${Math.random().toString(36).substring(7)}.mp3`]. *)
Definition scratch_name (prefix : string) (now : N) (rnd : string) : string :=
  prefix +:+ "-" +:+ pretty now +:+ "-" +:+ rnd +:+ ".mp3".

(** The [ffmpeg()...save(mixedFilePath)] chain, awaited through its
    [end] and [error] events. *)
Definition ffmpeg_mix (outcome : FfmpegOutcome) (voice music mixed : string) : M unit :=
  let job :=
    mkJob [voice; music]
          [ "[1:a]volume=0.25[music_vol]";
            "[0:a][music_vol]amix=inputs=2:duration=first:dropout_transition=2[aout]" ]
          [ "-map [aout]"; "-c:a libmp3lame"; "-q:a 2" ]
          mixed in
  emit (EvFfmpeg job) ;;
  match outcome with
  | FfmpegEnd out => modify (with_fs (fun d => <[mixed := out]> d))
  | FfmpegError msg partial =>
      match partial with
      | Some written => modify (with_fs (fun d => <[mixed := written]> d))
      | None => ret tt
      end ;;
      console_error "FFmpeg error:" msg ;;
      throw (mkError None
        "The blend was lost in the ether. Failed to weave voice and music into one tapestry.")
  end.

(** What [readStream.pipe(res)] writes: the first write sends the head. *)
Definition pipe_write (chunk : list Byte.byte) : M unit :=
  match chunk with
  | [] => ret tt
  | _ => modify (with_res (fun r =>
           mkResponse (statusCode r) (headers r) true (ended r) (BodyStream chunk)))
  end.

Definition pipe_end (content : list Byte.byte) : M unit :=
  modify (with_res (fun r =>
    mkResponse (statusCode r) (headers r) true true (BodyStream content))).

(** [createReadStream], [pipe] and the awaited promise that resolves on
    the stream's [end] (after the delayed clean-up) or on its [error], and
    on nothing else. *)
Definition stream_back (env : Env) : M unit :=
  let* s := get in
  let mixed := mixedFilePath s in
  emit (EvCreateReadStream mixed) ;;
  match fs s !! mixed with
  | None =>
      console_error "Error streaming mixed audio:"
                    ("no such file or directory, open '" +:+ mixed +:+ "'")
  | Some content =>
      match stream_outcome env with
      | StreamEnd =>
          pipe_end content ;;
          unlink_quiet (unlink_fault env AfterStreamVoice)
                       "Failed to clean up voice temp file: " (voiceFilePath s) ;;
          unlink_quiet (unlink_fault env AfterStreamMixed)
                       "Failed to clean up mixed temp file: " mixed
      | StreamError sent e =>
          pipe_write (take sent content) ;;
          console_error "Error streaming mixed audio:" (err_message e)
      | StreamStalls sent =>
          pipe_write (take sent content) ;;
          never_settles
      end
  end.

(** The part of the [try] block after validation, for a music source that
    is a string. *)
Definition mix_and_stream (env : Env) (voiceAudioFile : UploadedFile)
    (musicSourceFilePath : string) : M unit :=
  let tempDir := path_join [cwd env; "tmp"] in
  fs_mkdir_recursive (mkdir_fault env) tempDir ;;
  modify (set_voiceFilePath
    (path_join [tempDir; scratch_name "voice" (now_voice env) (rand_voice env)])) ;;
  modify (set_mixedFilePath
    (path_join [tempDir; scratch_name "final_mix" (now_mixed env) (rand_mixed env)])) ;;
  let* s := get in
  fs_rename (rename_fault env) (filepath voiceAudioFile) (voiceFilePath s) ;;
  ffmpeg_mix (ffmpeg_outcome env) (voiceFilePath s) musicSourceFilePath (mixedFilePath s) ;;
  let* stat_size := fs_stat (stat_fault env) (mixedFilePath s) in
  res_setHeader "Content-Type" (HStr "audio/mpeg") ;;
  res_setHeader "Content-Length" (HNum stat_size) ;;
  res_setHeader "Content-Disposition"
                (HStr ("inline; filename=" +:+ dquote +:+ "final_mix.mp3" +:+ dquote)) ;;
  stream_back env.

Definition try_block (env : Env) (req : Request) : M unit :=
  let* parsed :=
    match form req with
    | FormError err => throw err
    | FormParsed f => ret f
    end in
  let voiceAudioFile := files_voice_audio parsed ≫= head in
  let musicChoice := fields_musicChoice parsed ≫= head in
  match voiceAudioFile with
  | None => res_status 400 ;; res_json "Voice audio file is required for mixing."
  | Some voiceAudioFile =>
      let chosen :=
        match musicChoice with
        | Some key => if String.eqb key "" then VUndefined else js_get (MUSIC_FILES (cwd env)) key
        | None => VUndefined
        end in
      if negb (truthy chosen)
      then res_status 400 ;;
           res_json "The harmony awaits. Please choose a background melody to accompany your verse."
      else
        let musicSourceFilePath := chosen in
        let* accessible := settle (fs_access musicSourceFilePath) in
        match accessible, musicSourceFilePath with
        | inr _, VString music => mix_and_stream env voiceAudioFile music
        | inr _, _ => ret tt (* not reached: [fs_access] rejects what is no string *)
        | inl error, _ =>
            console_error "Music file not found:" (err_message error) ;;
            res_status 500 ;;
            res_json "The chosen melody is lost in the mists. Background music file not found on the server."
        end
  end.

Definition catch_block (error : JsError) : M unit :=
  console_error "API mix handler error:" (err_message error) ;;
  let* s := get in
  if headersSent (res s) then ret tt
  else
    res_status 500 ;;
    res_json (if String.eqb (err_message error) ""
              then "An unexpected sorrow befell the mixing. Please try again."
              else err_message error).

Definition finally_block (env : Env) : M unit :=
  let* s := get in
  unlink_quiet (unlink_fault env FinallyVoice)
               "Failed to clean up voice temp file in finally: " (voiceFilePath s) ;;
  unlink_quiet (unlink_fault env FinallyMixed)
               "Failed to clean up mixed temp file in finally: " (mixedFilePath s).

Definition handler (env : Env) (req : Request) : M unit :=
  if negb (String.eqb (method req) "POST")
  then res_status 405 ;; res_json "Method Not Allowed"
  else
    modify (set_voiceFilePath "") ;;
    modify (set_mixedFilePath "") ;;
    try_finally (try_catch (try_block env req) catch_block) (finally_block env).

(** One request against a disk. *)
Definition run (env : Env) (req : Request) (disk : gmap string (list Byte.byte)) : result unit * State :=
  handler env req (init_state disk).

Definition final (env : Env) (req : Request) (disk : gmap string (list Byte.byte)) : State :=
  snd (run env req disk).

(** *** Vocabulary for the statements about the handler *)

(** [files.voice_audio?.[0]] and [fields.musicChoice?.[0]]. *)
Definition narration (req : Request) : option UploadedFile :=
  match form req with
  | FormParsed f => files_voice_audio f ≫= head
  | FormError _ => None
  end.

Definition music_choice (req : Request) : option string :=
  match form req with
  | FormParsed f => fields_musicChoice f ≫= head
  | FormError _ => None
  end.

(** The values the handler computes for [tempDir], [voiceFilePath] and
    [mixedFilePath]. *)
Definition tempDir (env : Env) : string := path_join [cwd env; "tmp"].
Definition voice_path (env : Env) : string :=
  path_join [tempDir env; scratch_name "voice" (now_voice env) (rand_voice env)].
Definition mixed_path (env : Env) : string :=
  path_join [tempDir env; scratch_name "final_mix" (now_mixed env) (rand_mixed env)].

(** The scratch paths assigned so far: the two variables start as ['']. *)
Definition scratch_paths (s : State) : list string :=
  List.filter (fun p => negb (String.eqb p "")) [voiceFilePath s; mixedFilePath s].

Inductive EventKind :=
| KAccess | KMkdir | KRename | KFfmpeg | KStat | KCreateReadStream | KUnlink.

Definition kind_of (ev : Event) : EventKind :=
  match ev with
  | EvAccess _ => KAccess
  | EvMkdir _ => KMkdir
  | EvRename _ _ => KRename
  | EvFfmpeg _ => KFfmpeg
  | EvStat _ => KStat
  | EvCreateReadStream _ => KCreateReadStream
  | EvUnlink _ => KUnlink
  end.

Definition same_kind (k k' : EventKind) : bool :=
  match k, k' with
  | KAccess, KAccess | KMkdir, KMkdir | KRename, KRename | KFfmpeg, KFfmpeg
  | KStat, KStat | KCreateReadStream, KCreateReadStream | KUnlink, KUnlink => true
  | _, _ => false
  end.

(** How often an operation of kind [k] was started. *)
Definition attempts (k : EventKind) (t : list Event) : nat :=
  length (List.filter (fun ev => same_kind k (kind_of ev)) t).

(** What [unlink_quiet] leaves on the disk and on the console. *)
Definition unlink_fs (fault : option JsError) (p : string)
    (d : gmap string (list Byte.byte)) : gmap string (list Byte.byte) :=
  if String.eqb p "" then d
  else match fault with Some _ => d | None => delete p d end.

Definition unlink_console (fault : option JsError) (label p : string)
    (c : list LogEntry) : list LogEntry :=
  if String.eqb p "" then c
  else match fault with
       | Some e => if is_ENOENT e then c else c ++ [LogWarn (label +:+ err_message e)]
       | None => c
       end.

(** The environment [env] with other outcomes for the four deletions. *)
Definition with_unlink_fault (uf : UnlinkSite → option JsError) (env : Env) : Env :=
  mkEnv (cwd env) (mkdir_fault env) (now_voice env) (rand_voice env) (now_mixed env)
        (rand_mixed env) (rename_fault env) (ffmpeg_outcome env) (stat_fault env)
        (stream_outcome env) uf.

(** *** Sample inputs *)

Definition env_ok : Env :=
  mkEnv "/app" None 1700000000000 "k3x9q" 1700000000001 "p0z7w" None
        (FfmpegEnd [Byte.x49; Byte.x44; Byte.x33]) None StreamEnd (fun _ => None).

(** The same environment with a media processor that fails, leaving a
    partial output. *)
Definition env_ffmpeg_fails : Env :=
  mkEnv "/app" None 1700000000000 "k3x9q" 1700000000001 "p0z7w" None
        (FfmpegError "Conversion failed!" (Some [Byte.x49])) None StreamEnd (fun _ => None).

Definition ambient_track : string := "/app/public/audio/ambient_background.mp3".

Definition disk_with (upload : list Byte.byte) : gmap string (list Byte.byte) :=
  <["/tmp/upload_1" := upload]> (<[ambient_track := [Byte.xff; Byte.xfb]]> ∅).

Definition post (voice : option (list UploadedFile)) (music : option (list string)) : Request :=
  mkRequest "POST" (FormParsed (mkForm voice music)).

Definition upload_of (n : N) : UploadedFile := mkFile "/tmp/upload_1" n.

(** *** Further vocabulary *)

(** The conditions under which the handler reaches the media processor. *)
Definition reaches_processor (env : Env) (req : Request)
    (disk : gmap string (list Byte.byte)) : Prop :=
  method req = "POST" ∧
  ∃ vf key music,
    narration req = Some vf ∧ music_choice req = Some key ∧
    MUSIC_FILES (cwd env) !! key = Some music ∧ is_Some (disk !! music) ∧
    mkdir_fault env = None ∧ rename_fault env = None ∧ is_Some (disk !! filepath vf).

(** Strings of decimal digits, as [Date.now()] prints. *)
Definition is_digit (c : ascii) : bool :=
  bool_decide (c ∈ ["0"; "1"; "2"; "3"; "4"; "5"; "6"; "7"; "8"; "9"]%char).

Fixpoint all_digits (s : string) : bool :=
  match s with
  | EmptyString => true
  | String c rest => is_digit c && all_digits rest
  end.

(** An environment in which the read stream breaks after two bytes, and
    one in which the upload cannot be moved. *)
Definition env_stream_breaks : Env :=
  mkEnv "/app" None 1700000000000 "k3x9q" 1700000000001 "p0z7w" None
        (FfmpegEnd [Byte.x49; Byte.x44; Byte.x33]) None
        (StreamError 2 (mkError (Some "ECONNRESET") "socket hang up")) (fun _ => None).

Definition env_rename_fails : Env :=
  mkEnv "/app" None 1700000000000 "k3x9q" 1700000000001 "p0z7w"
        (Some (mkError (Some "EXDEV") "EXDEV: cross-device link not permitted"))
        (FfmpegEnd [Byte.x49; Byte.x44; Byte.x33]) None StreamEnd (fun _ => None).

(** The processor ends with an empty output file; reading the size of the
    mix fails; the client closes the connection after two bytes. *)
Definition env_empty_mix : Env :=
  mkEnv "/app" None 1700000000000 "k3x9q" 1700000000001 "p0z7w" None
        (FfmpegEnd []) None StreamEnd (fun _ => None).

Definition env_stat_fails : Env :=
  mkEnv "/app" None 1700000000000 "k3x9q" 1700000000001 "p0z7w" None
        (FfmpegEnd [Byte.x49; Byte.x44; Byte.x33])
        (Some (mkError (Some "EIO") "EIO: i/o error, stat")) StreamEnd (fun _ => None).

Definition env_client_leaves : Env :=
  mkEnv "/app" None 1700000000000 "k3x9q" 1700000000001 "p0z7w" None
        (FfmpegEnd [Byte.x49; Byte.x44; Byte.x33]) None (StreamStalls 2) (fun _ => None).

End Mix.

(* ===================================================================== *)
(** ** The playback code of [App.tsx] *)
(* ===================================================================== *)

Module Player.

(** A JavaScript string: its UTF-16 code units. *)
Abbreviation jsstring := (list N).

(** A decoded [AudioBuffer]; [duration] is in seconds.  Numbers that the
    source holds as doubles are exact rationals here. *)
Record AudioBuffer := mkBuffer { buffer_id : nat; duration : Q }.

(** *** The poem lines *)

(** White space and line terminators, as [String.prototype.trim] strips
    them. *)
Definition is_js_whitespace (c : N) : bool :=
  bool_decide (c ∈ [9; 10; 11; 12; 13; 32; 160; 5760; 8232; 8233; 8239; 8287; 12288; 65279]%N)
  || ((8192 <=? c)%N && (c <=? 8202)%N).

Fixpoint trim_start (s : jsstring) : jsstring :=
  match s with
  | c :: rest => if is_js_whitespace c then trim_start rest else s
  | [] => []
  end.

Definition trim (s : jsstring) : jsstring :=
  rev (trim_start (rev (trim_start s))).

(** [s.split('\n')]: the pieces between the line feeds, at least one. *)
Fixpoint split_newline (s : jsstring) : list jsstring :=
  match s with
  | [] => [[]]
  | c :: rest =>
      if (c =? 10)%N then [] :: split_newline rest
      else match split_newline rest with
           | piece :: pieces => (c :: piece) :: pieces
           | [] => [[c]]
           end
  end.

(** [s !== ''] *)
Definition nonempty_js (s : jsstring) : bool :=
  match s with [] => false | _ :: _ => true end.

(** [generatedPoem.split('\n').filter(line => line.trim() !== '')] *)
Definition poem_lines (generatedPoem : jsstring) : list jsstring :=
  List.filter (fun line => nonempty_js (trim line)) (split_newline generatedPoem).

(** *** React state, refs and the browser's pending events *)

Record Hooks := mkHooks {
  generatedPoem : jsstring;
  poemLines : list jsstring;
  currentLineIndex : Z;
  speechOnlyDecodedBuffer : option AudioBuffer;
  speechOnlyRawMp3Buffer : option (list Byte.byte);
  mixedDecodedBuffer : option AudioBuffer;
  mixedRawMp3Buffer : option (list Byte.byte);
  currentPlaybackAudioBuffer : option AudioBuffer;
  currentDownloadMp3Buffer : option (list Byte.byte);
  isPlaying : bool;
  errorMessage : string;
  musicChoice : string;
  isMixing : bool;
  loadingMessage : string;
  isMixedAudioPlaying : bool }.

(** A pending [setTimeout] whose callback is
    [if (audioSourceRef.current) setCurrentLineIndex(target)]; times are in
    milliseconds. *)
Record Timer := mkTimer { timer_id : nat; fire_at : Q; target : Z }.

Record World := mkWorld {
  hooks : Hooks;
  audioContext : bool;              (* [audioContextRef] and [gainNodeRef] are set *)
  audioSourceRef : option nat;
  lineTimerRef : option nat;
  clock : Q;
  timers : list Timer;
  ended_queue : list (nat * Q);     (* sources whose [ended] event is still to come *)
  next_timer : nat;
  next_source : nat }.

Definition with_hooks (f : Hooks → Hooks) (w : World) : World :=
  mkWorld (f (hooks w)) (audioContext w) (audioSourceRef w) (lineTimerRef w) (clock w)
          (timers w) (ended_queue w) (next_timer w) (next_source w).
Definition set_audioSourceRef (v : option nat) (w : World) : World :=
  mkWorld (hooks w) (audioContext w) v (lineTimerRef w) (clock w)
          (timers w) (ended_queue w) (next_timer w) (next_source w).
Definition set_lineTimerRef (v : option nat) (w : World) : World :=
  mkWorld (hooks w) (audioContext w) (audioSourceRef w) v (clock w)
          (timers w) (ended_queue w) (next_timer w) (next_source w).
Definition set_clock (v : Q) (w : World) : World :=
  mkWorld (hooks w) (audioContext w) (audioSourceRef w) (lineTimerRef w) v
          (timers w) (ended_queue w) (next_timer w) (next_source w).
Definition set_timers (v : list Timer) (w : World) : World :=
  mkWorld (hooks w) (audioContext w) (audioSourceRef w) (lineTimerRef w) (clock w)
          v (ended_queue w) (next_timer w) (next_source w).
Definition set_ended_queue (v : list (nat * Q)) (w : World) : World :=
  mkWorld (hooks w) (audioContext w) (audioSourceRef w) (lineTimerRef w) (clock w)
          (timers w) v (next_timer w) (next_source w).
Definition set_next_timer (v : nat) (w : World) : World :=
  mkWorld (hooks w) (audioContext w) (audioSourceRef w) (lineTimerRef w) (clock w)
          (timers w) (ended_queue w) v (next_source w).
Definition set_next_source (v : nat) (w : World) : World :=
  mkWorld (hooks w) (audioContext w) (audioSourceRef w) (lineTimerRef w) (clock w)
          (timers w) (ended_queue w) (next_timer w) v.

(** The state setters the modelled functions call. *)
Definition setPoemLines (v : list jsstring) : World → World :=
  with_hooks (fun h => mkHooks (generatedPoem h) v (currentLineIndex h)
    (speechOnlyDecodedBuffer h) (speechOnlyRawMp3Buffer h) (mixedDecodedBuffer h)
    (mixedRawMp3Buffer h) (currentPlaybackAudioBuffer h) (currentDownloadMp3Buffer h)
    (isPlaying h) (errorMessage h) (musicChoice h) (isMixing h) (loadingMessage h)
    (isMixedAudioPlaying h)).
Definition setCurrentLineIndex (v : Z) : World → World :=
  with_hooks (fun h => mkHooks (generatedPoem h) (poemLines h) v
    (speechOnlyDecodedBuffer h) (speechOnlyRawMp3Buffer h) (mixedDecodedBuffer h)
    (mixedRawMp3Buffer h) (currentPlaybackAudioBuffer h) (currentDownloadMp3Buffer h)
    (isPlaying h) (errorMessage h) (musicChoice h) (isMixing h) (loadingMessage h)
    (isMixedAudioPlaying h)).
Definition setSpeechOnlyDecodedBuffer (v : option AudioBuffer) : World → World :=
  with_hooks (fun h => mkHooks (generatedPoem h) (poemLines h) (currentLineIndex h)
    v (speechOnlyRawMp3Buffer h) (mixedDecodedBuffer h)
    (mixedRawMp3Buffer h) (currentPlaybackAudioBuffer h) (currentDownloadMp3Buffer h)
    (isPlaying h) (errorMessage h) (musicChoice h) (isMixing h) (loadingMessage h)
    (isMixedAudioPlaying h)).
Definition setSpeechOnlyRawMp3Buffer (v : option (list Byte.byte)) : World → World :=
  with_hooks (fun h => mkHooks (generatedPoem h) (poemLines h) (currentLineIndex h)
    (speechOnlyDecodedBuffer h) v (mixedDecodedBuffer h)
    (mixedRawMp3Buffer h) (currentPlaybackAudioBuffer h) (currentDownloadMp3Buffer h)
    (isPlaying h) (errorMessage h) (musicChoice h) (isMixing h) (loadingMessage h)
    (isMixedAudioPlaying h)).
Definition setMixedDecodedBuffer (v : option AudioBuffer) : World → World :=
  with_hooks (fun h => mkHooks (generatedPoem h) (poemLines h) (currentLineIndex h)
    (speechOnlyDecodedBuffer h) (speechOnlyRawMp3Buffer h) v
    (mixedRawMp3Buffer h) (currentPlaybackAudioBuffer h) (currentDownloadMp3Buffer h)
    (isPlaying h) (errorMessage h) (musicChoice h) (isMixing h) (loadingMessage h)
    (isMixedAudioPlaying h)).
Definition setMixedRawMp3Buffer (v : option (list Byte.byte)) : World → World :=
  with_hooks (fun h => mkHooks (generatedPoem h) (poemLines h) (currentLineIndex h)
    (speechOnlyDecodedBuffer h) (speechOnlyRawMp3Buffer h) (mixedDecodedBuffer h)
    v (currentPlaybackAudioBuffer h) (currentDownloadMp3Buffer h)
    (isPlaying h) (errorMessage h) (musicChoice h) (isMixing h) (loadingMessage h)
    (isMixedAudioPlaying h)).
Definition setCurrentPlaybackAudioBuffer (v : option AudioBuffer) : World → World :=
  with_hooks (fun h => mkHooks (generatedPoem h) (poemLines h) (currentLineIndex h)
    (speechOnlyDecodedBuffer h) (speechOnlyRawMp3Buffer h) (mixedDecodedBuffer h)
    (mixedRawMp3Buffer h) v (currentDownloadMp3Buffer h)
    (isPlaying h) (errorMessage h) (musicChoice h) (isMixing h) (loadingMessage h)
    (isMixedAudioPlaying h)).
Definition setCurrentDownloadMp3Buffer (v : option (list Byte.byte)) : World → World :=
  with_hooks (fun h => mkHooks (generatedPoem h) (poemLines h) (currentLineIndex h)
    (speechOnlyDecodedBuffer h) (speechOnlyRawMp3Buffer h) (mixedDecodedBuffer h)
    (mixedRawMp3Buffer h) (currentPlaybackAudioBuffer h) v
    (isPlaying h) (errorMessage h) (musicChoice h) (isMixing h) (loadingMessage h)
    (isMixedAudioPlaying h)).
Definition setIsPlaying (v : bool) : World → World :=
  with_hooks (fun h => mkHooks (generatedPoem h) (poemLines h) (currentLineIndex h)
    (speechOnlyDecodedBuffer h) (speechOnlyRawMp3Buffer h) (mixedDecodedBuffer h)
    (mixedRawMp3Buffer h) (currentPlaybackAudioBuffer h) (currentDownloadMp3Buffer h)
    v (errorMessage h) (musicChoice h) (isMixing h) (loadingMessage h)
    (isMixedAudioPlaying h)).
Definition setErrorMessage (v : string) : World → World :=
  with_hooks (fun h => mkHooks (generatedPoem h) (poemLines h) (currentLineIndex h)
    (speechOnlyDecodedBuffer h) (speechOnlyRawMp3Buffer h) (mixedDecodedBuffer h)
    (mixedRawMp3Buffer h) (currentPlaybackAudioBuffer h) (currentDownloadMp3Buffer h)
    (isPlaying h) v (musicChoice h) (isMixing h) (loadingMessage h)
    (isMixedAudioPlaying h)).
Definition setMusicChoice (v : string) : World → World :=
  with_hooks (fun h => mkHooks (generatedPoem h) (poemLines h) (currentLineIndex h)
    (speechOnlyDecodedBuffer h) (speechOnlyRawMp3Buffer h) (mixedDecodedBuffer h)
    (mixedRawMp3Buffer h) (currentPlaybackAudioBuffer h) (currentDownloadMp3Buffer h)
    (isPlaying h) (errorMessage h) v (isMixing h) (loadingMessage h)
    (isMixedAudioPlaying h)).
Definition setIsMixing (v : bool) : World → World :=
  with_hooks (fun h => mkHooks (generatedPoem h) (poemLines h) (currentLineIndex h)
    (speechOnlyDecodedBuffer h) (speechOnlyRawMp3Buffer h) (mixedDecodedBuffer h)
    (mixedRawMp3Buffer h) (currentPlaybackAudioBuffer h) (currentDownloadMp3Buffer h)
    (isPlaying h) (errorMessage h) (musicChoice h) v (loadingMessage h)
    (isMixedAudioPlaying h)).
Definition setLoadingMessage (v : string) : World → World :=
  with_hooks (fun h => mkHooks (generatedPoem h) (poemLines h) (currentLineIndex h)
    (speechOnlyDecodedBuffer h) (speechOnlyRawMp3Buffer h) (mixedDecodedBuffer h)
    (mixedRawMp3Buffer h) (currentPlaybackAudioBuffer h) (currentDownloadMp3Buffer h)
    (isPlaying h) (errorMessage h) (musicChoice h) (isMixing h) v
    (isMixedAudioPlaying h)).
Definition setIsMixedAudioPlaying (v : bool) : World → World :=
  with_hooks (fun h => mkHooks (generatedPoem h) (poemLines h) (currentLineIndex h)
    (speechOnlyDecodedBuffer h) (speechOnlyRawMp3Buffer h) (mixedDecodedBuffer h)
    (mixedRawMp3Buffer h) (currentPlaybackAudioBuffer h) (currentDownloadMp3Buffer h)
    (isPlaying h) (errorMessage h) (musicChoice h) (isMixing h) (loadingMessage h)
    v).

(** *** Timers *)

(** A timer is recorded with the delay the code passes; what the engine
    makes of a fractional delay is its own affair. *)
Definition setTimeout (delay : Q) (tgt : Z) (w : World) : nat * World :=
  let id := next_timer w in
  (id, set_next_timer (S id)
         (set_timers (timers w ++ [mkTimer id (clock w + delay)%Q tgt]) w)).

Definition clearTimeout (id : nat) (w : World) : World :=
  set_timers (List.filter (fun t => negb (Nat.eqb (timer_id t) id)) (timers w)) w.

Definition clearLineTimers (w : World) : World :=
  match lineTimerRef w with
  | Some id => set_lineTimerRef None (clearTimeout id w)
  | None => w
  end.

(** [source.stop()]: the [ended] event of that source is dispatched now
    instead of at the end of its buffer. *)
Definition source_stop (src : nat) (w : World) : World :=
  set_ended_queue
    (map (fun e : nat * Q => if Nat.eqb (fst e) src then (fst e, clock w) else e)
         (ended_queue w)) w.

Definition stopAudio (w : World) : World :=
  let w1 :=
    match audioSourceRef w with
    | Some src => set_audioSourceRef None (source_stop src w)
    | None => w
    end in
  setIsMixedAudioPlaying false
    (setCurrentLineIndex (-1) (setIsPlaying false (clearLineTimers w1))).

(** *** [setAudioAndSyncData] *)

Inductive AudioType := SpeechOnly | Mixed.

(** [poem] is the [generatedPoem] the callback closed over. *)
Definition setAudioAndSyncData (poem : jsstring) (decodedBuffer : AudioBuffer)
    (rawMp3Buffer : list Byte.byte) (type : AudioType) (w : World) : World :=
  let w1 := setCurrentPlaybackAudioBuffer (Some decodedBuffer) w in
  let w2 := setCurrentDownloadMp3Buffer (Some rawMp3Buffer) w1 in
  let w3 := setPoemLines (poem_lines poem) w2 in
  match type with
  | SpeechOnly =>
      setIsMixedAudioPlaying false
        (setMixedRawMp3Buffer None
          (setMixedDecodedBuffer None
            (setSpeechOnlyRawMp3Buffer (Some rawMp3Buffer)
              (setSpeechOnlyDecodedBuffer (Some decodedBuffer) w3))))
  | Mixed =>
      setIsMixedAudioPlaying true
        (setMixedRawMp3Buffer (Some rawMp3Buffer)
          (setMixedDecodedBuffer (Some decodedBuffer) w3))
  end.

(** *** [playAudio] *)

(** [poemLines.reduce((sum, line) => sum + line.length, 0)] *)
Definition totalChars (lines : list jsstring) : nat :=
  fold_left (fun sum line => sum + length line) lines 0.

Definition of_nat (n : nat) : Q := inject_Z (Z.of_nat n).

(** The array [lineDurations] (seconds), with the operations read as those
    of the rational numbers; [Doubles.lineDurations_in] has them in the
    double precision the engine computes in. *)
Definition lineDurations (totalDuration : Q) (lines : list jsstring) : list Q :=
  map (fun line => totalDuration * (of_nat (length line) / of_nat (totalChars lines)))%Q lines.

(** The [forEach] over [lineDurations], from index [i] with the running
    [cumulativeTime]. *)
Fixpoint schedule_lines (durations : list Q) (i : nat) (cumulativeTime : Q)
    (w : World) : World :=
  match durations with
  | [] => w
  | duration :: rest =>
      let '(id, w1) := setTimeout (cumulativeTime * 1000) (Z.of_nat i) w in
      schedule_lines rest (S i) (cumulativeTime + duration)%Q (set_lineTimerRef (Some id) w1)
  end.

Inductive Outcome := Done | Thrown (message : string).

(** [lines] is the [poemLines] the callback closed over; [buffer] is
    optional because one caller passes a value asserted non-null.  The
    delays are those of [lineDurations]; [Doubles.playAudio_in] is the same
    code over either arithmetic. *)
Definition playAudio (lines : list jsstring) (buffer : option AudioBuffer)
    (w : World) : Outcome * World :=
  if negb (audioContext w)
  then (Done,
        setErrorMessage "Audio context not initialized. Please interact with the page first." w)
  else
    let w1 := stopAudio w in
    let source := next_source w1 in
    let w2 := set_next_source (S source) w1 in
    let w3 :=
      match buffer with
      | Some b => set_ended_queue
                    (ended_queue w2 ++ [(source, clock w2 + duration b * 1000)%Q]) w2
      | None => w2
      end in
    let w4 := setIsPlaying true (set_audioSourceRef (Some source) w3) in
    match lines with
    | [] => (Done, setCurrentLineIndex (-1) w4)
    | _ :: _ =>
        let w5 := clearLineTimers w4 in
        match buffer with
        | None => (Thrown "Cannot read properties of null (reading 'duration')", w5)
        | Some b =>
            let totalDuration := duration b in
            let w6 := schedule_lines (lineDurations totalDuration lines) 0 0%Q w5 in
            let '(id, w7) := setTimeout (totalDuration * 1000) (-1) w6 in
            (Done, set_lineTimerRef (Some id) w7)
        end
    end.

(** *** The event loop: delayed callbacks and [ended] events *)

Inductive Pending :=
| PTimer (t : Timer)
| PEnded (src : nat) (due : Q).

Definition due_time (p : Pending) : Q :=
  match p with
  | PTimer t => fire_at t
  | PEnded _ due => due
  end.

Definition pending (w : World) : list Pending :=
  map PTimer (timers w) ++ map (fun e : nat * Q => PEnded (fst e) (snd e)) (ended_queue w).

(** The first of the earliest pending events. *)
Fixpoint earliest (l : list Pending) : option Pending :=
  match l with
  | [] => None
  | p :: rest =>
      match earliest rest with
      | Some q => if Qle_bool (due_time p) (due_time q) then Some p else Some q
      | None => Some p
      end
  end.

(** Running one pending event: a timer's callback, or [source.onended]. *)
Definition fire (p : Pending) (w : World) : World :=
  match p with
  | PTimer t =>
      let w1 := clearTimeout (timer_id t) w in
      match audioSourceRef w1 with
      | Some _ => setCurrentLineIndex (target t) w1
      | None => w1
      end
  | PEnded src _ =>
      let w1 :=
        set_ended_queue
          (List.filter (fun e : nat * Q => negb (Nat.eqb (fst e) src)) (ended_queue w)) w in
      setIsMixedAudioPlaying false
        (set_audioSourceRef None (setCurrentLineIndex (-1) (setIsPlaying false w1)))
  end.

Fixpoint advance_fuel (fuel : nat) (t : Q) (w : World) : World :=
  match fuel with
  | O => set_clock t w
  | S fuel' =>
      match earliest (pending w) with
      | Some p =>
          if Qle_bool (due_time p) t then advance_fuel fuel' t (fire p w)
          else set_clock t w
      | None => set_clock t w
      end
  end.

(** Let time pass until [t]: every event due by then runs, earliest first. *)
Definition advance (t : Q) (w : World) : World :=
  advance_fuel (length (pending w)) t w.

(** *** [handleMusicChange] *)

Inductive SpeechOutcome :=
| SpeechRejects (message : string)
| SpeechNull
| SpeechOk (mp3 : list Byte.byte).

Inductive ErrorJson :=
| JsonUnreadable
| JsonParsed (error : option string).

Inductive FetchOutcome :=
| FetchRejects (message : string)
| FetchResponds (ok : bool) (status : N) (json : ErrorJson) (payload : list Byte.byte).

Inductive DecodeOutcome :=
| DecodeRejects (message : string)
| DecodeOk (b : AudioBuffer).

(** What the awaited calls of one [handleMusicChange] produce, and the
    time (milliseconds) at which the last of them has settled. *)
Record Network := mkNetwork {
  speech : SpeechOutcome;
  mix_response : FetchOutcome;
  decoded : DecodeOutcome;
  settled_at : Q }.

(** While the callback awaits, the event loop runs what falls due. *)
Definition await (t : Q) (w : World) : World :=
  if Qle_bool t (clock w) then w else advance t w.

(** [errorData.error || `HTTP error! status: ${response.status}`] *)
Definition response_error (status : N) (json : ErrorJson) : string :=
  match json with
  | JsonUnreadable => "Unknown mixing error"
  | JsonParsed (Some e) =>
      if String.eqb e "" then "HTTP error! status: " +:+ pretty status else e
  | JsonParsed None => "HTTP error! status: " +:+ pretty status
  end.

(** The [try] block; [snap] holds the state values the callback closed
    over. *)
Definition mix_try (snap : Hooks) (newMusicChoice : string) (net : Network)
    (w : World) : Outcome * World :=
  if String.eqb newMusicChoice "none" then
    match speechOnlyDecodedBuffer snap, speechOnlyRawMp3Buffer snap with
    | Some d, Some r =>
        playAudio (poemLines snap) (currentPlaybackAudioBuffer snap)
                  (setAudioAndSyncData (generatedPoem snap) d r SpeechOnly w)
    | _, _ =>
        let w := await (settled_at net) w in
        match speech net with
        | SpeechRejects m => (Thrown m, w)
        | SpeechNull => (Thrown "Failed to regenerate speech for 'none' music.", w)
        | SpeechOk mp3 =>
            match decoded net with
            | DecodeRejects m => (Thrown m, w)
            | DecodeOk b =>
                playAudio (poemLines snap) (currentPlaybackAudioBuffer snap)
                          (setAudioAndSyncData (generatedPoem snap) b mp3 SpeechOnly w)
            end
        end
    end
  else
    let send (voiceMp3ArrayBuffer : list Byte.byte) (w : World) : Outcome * World :=
      match mix_response net with
      | FetchRejects m => (Thrown m, w)
      | FetchResponds ok status json payload =>
          if negb ok then (Thrown (response_error status json), w)
          else match decoded net with
               | DecodeRejects m => (Thrown m, w)
               | DecodeOk newDecodedBuffer =>
                   playAudio (poemLines snap) (Some newDecodedBuffer)
                     (setAudioAndSyncData (generatedPoem snap) newDecodedBuffer payload Mixed w)
               end
      end in
    let w := await (settled_at net) w in
    match speechOnlyRawMp3Buffer snap with
    | Some voice => send voice w
    | None =>
        match speech net with
        | SpeechRejects m => (Thrown m, w)
        | SpeechNull => (Thrown "Could not retrieve MP3 speech audio for mixing.", w)
        | SpeechOk voice => send voice (setSpeechOnlyRawMp3Buffer (Some voice) w)
        end
    end.

(** The [catch] block. *)
Definition mix_catch (snap : Hooks) (message : string) (w : World) : World :=
  let w1 := setMusicChoice "none" (setErrorMessage message w) in
  match speechOnlyDecodedBuffer snap, speechOnlyRawMp3Buffer snap with
  | Some d, Some r => setAudioAndSyncData (generatedPoem snap) d r SpeechOnly w1
  | _, _ => w1
  end.

(** What runs before the [try] once the three guards have passed. *)
Definition mix_prelude (newMusicChoice : string) (w : World) : World :=
  setLoadingMessage "Weaving your verse with a new melody..."
    (setIsMixing true (setMusicChoice newMusicChoice (setErrorMessage "" (stopAudio w)))).

Definition handleMusicChange (snap : Hooks) (newMusicChoice : string) (net : Network)
    (w : World) : World :=
  if negb (nonempty_js (generatedPoem snap))
  then setErrorMessage
         "A voice unheard. Generate your poem's narration before seeking its symphony." w
  else if negb (audioContext w)
  then setErrorMessage "Audio context not initialized. Please interact with the page first." w
  else if String.eqb (musicChoice snap) newMusicChoice then w
  else
    let '(r, w2) := mix_try snap newMusicChoice net (mix_prelude newMusicChoice w) in
    let w3 :=
      match r with
      | Done => w2
      | Thrown message => mix_catch snap message w2
      end in
    setLoadingMessage "" (setIsMixing false w3).

(** *** Vocabulary for the statements about playback *)

(** Seconds allotted to the lines before line [i]: the value of
    [cumulativeTime] when the loop reaches it. *)
Definition elapsed_before (i : nat) (durations : list Q) : Q :=
  fold_left Qplus (take i durations) 0%Q.

(** *** Sample inputs *)

(** The poem [ab] / [cd]. *)
Definition two_line_poem : jsstring := [97; 98; 10; 99; 100]%N.
Definition two_lines : list jsstring := [[97; 98]; [99; 100]]%N.

Definition four_seconds : AudioBuffer := mkBuffer 0 4.
Definition mixed_four_seconds : AudioBuffer := mkBuffer 1 4.
Definition speech_mp3 : list Byte.byte := [Byte.x49; Byte.x44; Byte.x33].
Definition mixed_mp3 : list Byte.byte := [Byte.x49; Byte.x44; Byte.x33; Byte.x04].

(** The page after a poem was generated and its narration decoded. *)
Definition ready_hooks : Hooks :=
  mkHooks two_line_poem two_lines (-1) (Some four_seconds) (Some speech_mp3) None None
          (Some four_seconds) (Some speech_mp3) false "" "none" false "" false.

Definition ready : World := mkWorld ready_hooks true None None 0 [] [] 1 0.

(** A network on which the mixing endpoint cannot be reached, and one on
    which everything succeeds. *)
Definition offline : Network :=
  mkNetwork (SpeechOk speech_mp3) (FetchRejects "Failed to fetch")
            (DecodeOk mixed_four_seconds) 1500.
Definition online : Network :=
  mkNetwork (SpeechOk speech_mp3) (FetchResponds true 200 JsonUnreadable mixed_mp3)
            (DecodeOk mixed_four_seconds) 1500.

(** *** Further vocabulary *)

(** A string of white space only. *)
Definition blank (s : jsstring) : Prop := Forall (fun c => is_js_whitespace c = true) s.

(** The state in which nothing plays and no line is highlighted. *)
Definition silent (w : World) : Prop :=
  audioSourceRef w = None ∧ isPlaying (hooks w) = false ∧
  currentLineIndex (hooks w) = (-1)%Z ∧ isMixedAudioPlaying (hooks w) = false.

(** The playback flags set aside: what remains of the React state. *)
Definition without_playback (h : Hooks) : Hooks :=
  mkHooks (generatedPoem h) (poemLines h) 0 (speechOnlyDecodedBuffer h)
    (speechOnlyRawMp3Buffer h) (mixedDecodedBuffer h) (mixedRawMp3Buffer h)
    (currentPlaybackAudioBuffer h) (currentDownloadMp3Buffer h) false (errorMessage h)
    (musicChoice h) (isMixing h) (loadingMessage h) false.

(** The page with a poem but no narration stored, and a network on which
    the mixing endpoint refuses. *)
Definition unvoiced_hooks : Hooks :=
  mkHooks two_line_poem two_lines (-1) None None None None None None false "" "none"
          false "" false.
Definition mix_refused : Network :=
  mkNetwork (SpeechOk speech_mp3)
            (FetchResponds false 500
               (JsonParsed (Some
                  "The blend was lost in the ether. Failed to weave voice and music into one tapestry."))
               [])
            (DecodeOk mixed_four_seconds) 1500.

End Player.

(* ===================================================================== *)
(** ** The arithmetic of [playAudio] in double precision *)
(* ===================================================================== *)

(** JavaScript numbers are IEEE 754 binary64 values.  A finite double is a
    rational, so the operations are those of [Q] followed by a rounding to
    the nearest double, ties to even.  Overflow is not part of [round64]:
    it is the rounding for magnitudes below 2^1024. *)

Module Doubles.
Import Player.

(** Round to nearest integer, ties to even. *)
Definition rne (q : Q) : Z :=
  let f := Qfloor q in
  match Qcompare (q - inject_Z f)%Q (1 # 2)%Q with
  | Lt => f
  | Gt => (f + 1)%Z
  | Eq => if Z.even f then f else (f + 1)%Z
  end.

(** The [k] with [2^k <= x < 2^(k+1)], for positive [x]. *)
Definition ilog2 (x : Q) : Z :=
  let k := (Z.log2 (Qnum x) - Z.log2 (Zpos (Qden x)))%Z in
  if Qle_bool (2 ^ k)%Q x then k else (k - 1)%Z.

Definition round64_pos (x : Q) : Q :=
  let e := Z.max (ilog2 x - 52) (-1074) in
  Qred (inject_Z (rne (x / 2 ^ e)%Q) * 2 ^ e)%Q.

Definition round64 (x : Q) : Q :=
  match Qnum x with
  | Z0 => 0%Q
  | Zpos _ => round64_pos x
  | Zneg _ => (- round64_pos (- x))%Q
  end.

Record Arith := mkArith { add : Q → Q → Q; mul : Q → Q → Q; div : Q → Q → Q }.
Definition exact : Arith := mkArith Qplus Qmult Qdiv.
Definition binary64 : Arith :=
  mkArith (fun x y => round64 (x + y)%Q) (fun x y => round64 (x * y)%Q)
          (fun x y => round64 (x / y)%Q).

Definition unit_roundoff : Q := 1 # 2 ^ 53.

(** The array [lineDurations] in the arithmetic [A].  [totalChars] is a sum
    of lengths, which doubles hold exactly below 2^53. *)
Definition lineDurations_in (A : Arith) (totalDuration : Q) (lines : list jsstring) : list Q :=
  map (fun line =>
         mul A totalDuration (div A (of_nat (length line)) (of_nat (totalChars lines))))
      lines.

Fixpoint schedule_lines_in (A : Arith) (durations : list Q) (i : nat) (cumulativeTime : Q)
    (w : World) : World :=
  match durations with
  | [] => w
  | duration :: rest =>
      let '(id, w1) := setTimeout (mul A cumulativeTime 1000) (Z.of_nat i) w in
      schedule_lines_in A rest (S i) (add A cumulativeTime duration)
        (set_lineTimerRef (Some id) w1)
  end.

Definition playAudio_in (A : Arith) (lines : list jsstring) (buffer : option AudioBuffer)
    (w : World) : Outcome * World :=
  if negb (audioContext w)
  then (Done,
        setErrorMessage "Audio context not initialized. Please interact with the page first." w)
  else
    let w1 := stopAudio w in
    let source := next_source w1 in
    let w2 := set_next_source (S source) w1 in
    let w3 :=
      match buffer with
      | Some b => set_ended_queue
                    (ended_queue w2 ++ [(source, clock w2 + duration b * 1000)%Q]) w2
      | None => w2
      end in
    let w4 := setIsPlaying true (set_audioSourceRef (Some source) w3) in
    match lines with
    | [] => (Done, setCurrentLineIndex (-1) w4)
    | _ :: _ =>
        let w5 := clearLineTimers w4 in
        match buffer with
        | None => (Thrown "Cannot read properties of null (reading 'duration')", w5)
        | Some b =>
            let totalDuration := duration b in
            let w6 := schedule_lines_in A (lineDurations_in A totalDuration lines) 0 0%Q w5 in
            let '(id, w7) := setTimeout (mul A totalDuration 1000) (-1) w6 in
            (Done, set_lineTimerRef (Some id) w7)
        end
    end.

(** The value of [cumulativeTime] when the loop reaches line [i]. *)
Definition elapsed_before_in (A : Arith) (i : nat) (durations : list Q) : Q :=
  fold_left (add A) (take i durations) 0%Q.

(** [approx] is [x] up to [m] roundings: a relative error of at most
    [unit_roundoff] each. *)
Definition within (m : nat) (x approx : Q) : Prop :=
  (x * (1 - unit_roundoff) ^ Z.of_nat m <= approx ∧
   approx <= x * (1 + unit_roundoff) ^ Z.of_nat m)%Q.

(** [within], for a value that is zero or in the normal range. *)
Definition tracks (m : nat) (x approx : Q) : Prop :=
  (0 <= x)%Q ∧
  ((approx == 0 ∧ x == 0)%Q ∨ ((2 ^ (-1022) <= approx)%Q ∧ within m x approx)).

(** Ten lines of one character each, and a narration of one second. *)
Definition ten_lines : list jsstring := repeat [97%N] 10.
Definition one_second : AudioBuffer := mkBuffer 0 1.

End Doubles.

(* ===================================================================== *)
(** ** The speech endpoint ([/api/voice]) *)
(* ===================================================================== *)

Module Voice.
Import Player.

(** What [req.body.text] can be: absent, a string, or a value of another
    type, of which only its truthiness matters to the handler. *)
Inductive Field :=
| FieldMissing
| FieldString (s : jsstring)
| FieldOther (truthy : bool).

(** [!text] is [negb (field_truthy text)]. *)
Definition field_truthy (v : Field) : bool :=
  match v with
  | FieldMissing => false
  | FieldString s => nonempty_js s
  | FieldOther t => t
  end.

(** [body] is [None] when [req.body] is [undefined] or [null]. *)
Record Request := mkRequest { method : string; body : option Field }.

(** The argument of [openai.audio.speech.create]. *)
Record SpeechRequest := mkSpeechRequest {
  model : string;
  voice : string;
  input : Field;
  response_format : string }.

(** The synthesis, with the read of its body, either yields the audio or
    fails with an error whose [message] is given. *)
Inductive TtsOutcome :=
| TtsOk (mp3 : list Byte.byte)
| TtsFails (message : string).

Inductive Payload :=
| NoPayload
| JsonError (error : string)
| Buffer (bytes : list Byte.byte).

Record Response := mkResponse {
  statusCode : N;
  headers : gmap string string;
  ended : bool;
  payload : Payload }.

Definition fresh_response : Response := mkResponse 200 ∅ false NoPayload.

Record State := mkState {
  res : Response;
  calls : list SpeechRequest;
  console : list (string * string) }.

Definition init_state : State := mkState fresh_response [] [].

Definition with_res (f : Response → Response) (s : State) : State :=
  mkState (f (res s)) (calls s) (console s).

Definition res_status (code : N) : State → State :=
  with_res (fun r => mkResponse code (headers r) (ended r) (payload r)).

Definition res_setHeader (name value : string) : State → State :=
  with_res (fun r => mkResponse (statusCode r) (<[name := value]> (headers r))
                                (ended r) (payload r)).

(** [res.json({ error })] *)
Definition res_json (error : string) : State → State :=
  with_res (fun r => mkResponse (statusCode r)
                       (<["Content-Type" := "application/json; charset=utf-8"]> (headers r))
                       true (JsonError error)).

(** [res.send(buffer)] *)
Definition res_send (bytes : list Byte.byte) : State → State :=
  with_res (fun r => mkResponse (statusCode r) (headers r) true (Buffer bytes)).

Definition speech_create (r : SpeechRequest) (s : State) : State :=
  mkState (res s) (calls s ++ [r]) (console s).

Definition console_error (label message : string) (s : State) : State :=
  mkState (res s) (calls s) (console s ++ [(label, message)]).

(** How the [async] handler completes: its promise is fulfilled, or it is
    rejected by an exception nothing caught. *)
Inductive Completion :=
| Returned
| Rejected (message : string).

Definition dquote : string := String (Ascii.ascii_of_nat 34) EmptyString.

Definition handler (tts : TtsOutcome) (req : Request) : Completion * State :=
  let s := init_state in
  if negb (String.eqb (method req) "POST")
  then (Returned, res_json "Method Not Allowed" (res_status 405 s))
  else
    match body req with
    | None =>
        (Rejected "Cannot destructure property 'text' of 'req.body' as it is undefined.", s)
    | Some text =>
        if negb (field_truthy text)
        then (Returned, res_json "Poem text is required." (res_status 400 s))
        else
          let s := speech_create (mkSpeechRequest "gpt-4o-mini-tts" "alloy" text "mp3") s in
          match tts with
          | TtsOk buffer =>
              let s := res_setHeader "Content-Type" "audio/mpeg" s in
              let s := res_setHeader "Content-Disposition"
                         ("inline; filename=" +:+ dquote +:+ "voice.mp3" +:+ dquote) s in
              (Returned, res_send buffer (res_status 200 s))
          | TtsFails message =>
              let s := console_error "Error generating speech with OpenAI:" message s in
              (Returned,
               res_json ("Failed to generate speech: " +:+ message) (res_status 500 s))
          end
    end.

(** The request [generateSpeech] sends for [text]. *)
Definition speech_request (text : jsstring) : Request :=
  mkRequest "POST" (Some (FieldString text)).

End Voice.

(* ===================================================================== *)
(** ** The speech client ([generateSpeech]) *)
(* ===================================================================== *)

Module Tts.
Import Player.

Definition muse_silent : string :=
  "The muse fell silent. Could not capture the voice of your poem.".

(** [errorData.error || `HTTP error! status: ${response.status}`], with
    [{ error: 'Unknown error' }] when the body is not JSON. *)
Definition voice_error (status : N) (json : ErrorJson) : string :=
  match json with
  | JsonUnreadable => "Unknown error"
  | JsonParsed (Some e) =>
      if String.eqb e "" then "HTTP error! status: " +:+ pretty status else e
  | JsonParsed None => "HTTP error! status: " +:+ pretty status
  end.

(** [fetch] stands for the request to [/api/voice]; the second component
    is what [console.error] received. *)
Definition generateSpeech (fetch : Voice.Request → FetchOutcome) (text : jsstring)
    : SpeechOutcome * list string :=
  match fetch (Voice.speech_request text) with
  | FetchRejects message => (SpeechRejects muse_silent, [message])
  | FetchResponds ok status json payload =>
      if negb ok
      then (SpeechRejects muse_silent, [voice_error status json])
      else (SpeechOk payload, [])
  end.

(** [response.ok] *)
Definition status_ok (status : N) : bool := (200 <=? status)%N && (status <=? 299)%N.

(** What [fetch] resolves to when the handler of [/api/voice] has answered:
    status and [ok] are the response's; a JSON body reads back as the object
    sent, an audio body as its bytes.  The parts a client cannot rely on
    (the bytes of a JSON body, the JSON reading of audio) are left open. *)
Inductive answers (tts : Voice.TtsOutcome) (req : Voice.Request) : FetchOutcome → Prop :=
| answers_json s error bytes :
    Voice.handler tts req = (Voice.Returned, s) →
    Voice.payload (Voice.res s) = Voice.JsonError error →
    answers tts req
      (FetchResponds (status_ok (Voice.statusCode (Voice.res s)))
                     (Voice.statusCode (Voice.res s)) (JsonParsed (Some error)) bytes)
| answers_audio s bytes json :
    Voice.handler tts req = (Voice.Returned, s) →
    Voice.payload (Voice.res s) = Voice.Buffer bytes →
    answers tts req
      (FetchResponds (status_ok (Voice.statusCode (Voice.res s)))
                     (Voice.statusCode (Voice.res s)) json bytes).

End Tts.

(* ===================================================================== *)
(** ** The page: generation, transport buttons and the poem display *)
(* ===================================================================== *)

Module Page.
Import Player.

(** A string literal as UTF-16 code units. *)
Definition js (s : string) : jsstring :=
  map (fun c => N.of_nat (nat_of_ascii c)) (list_ascii_of_string s).

Definition setGeneratedPoem (v : jsstring) : World → World :=
  with_hooks (fun h => mkHooks v (poemLines h) (currentLineIndex h)
    (speechOnlyDecodedBuffer h) (speechOnlyRawMp3Buffer h) (mixedDecodedBuffer h)
    (mixedRawMp3Buffer h) (currentPlaybackAudioBuffer h) (currentDownloadMp3Buffer h)
    (isPlaying h) (errorMessage h) (musicChoice h) (isMixing h) (loadingMessage h)
    (isMixedAudioPlaying h)).

(** The state of [App] a fresh page starts with. *)
Definition initial_hooks : Hooks :=
  mkHooks [] [] (-1) None None None None None None false "" "none" false "" false.

(** [World] lacks the [isLoading] state of the component. *)
Record App := mkApp { world : World; isLoading : bool }.

(** *** [handleGeneratePoem] *)

(** [ai.models.generateContent] rejects, or resolves to a response whose
    [text] is a string or [undefined]. *)
Inductive PoemOutcome :=
| PoemRejects (message : string)
| PoemText (text : option jsstring).

(** What the awaited calls of one [handleGeneratePoem] produce.  [resume]
    is [None] when the audio context is not suspended, otherwise the
    outcome of [resume()] (a rejection message, if any), settled at
    [resumed_at]; [net] gives the speech, the decoding and the time the
    last awaited call of the [try] block settled. *)
Record Generation := mkGeneration {
  resume : option (option string);
  resumed_at : Q;
  poem : PoemOutcome;
  net : Network }.

(** The statements between the guard and the [try]. *)
Definition generate_prelude (w : World) : World :=
  setLoadingMessage "Summoning poetic verse..."
    (setMusicChoice "none"
      (setCurrentDownloadMp3Buffer None
        (setCurrentPlaybackAudioBuffer None
          (setMixedRawMp3Buffer None
            (setMixedDecodedBuffer None
              (setSpeechOnlyRawMp3Buffer None
                (setSpeechOnlyDecodedBuffer None
                  (setPoemLines []
                    (setGeneratedPoem [] (setErrorMessage "" (stopAudio w))))))))))).

(** The [try] block; [snap] holds the state values the closures of the
    render that created the handler see. *)
Definition generate_try (snap : Hooks) (gen : Generation) (w : World) : Outcome * World :=
  let w := await (settled_at (net gen)) w in
  match poem gen with
  | PoemRejects message => (Thrown message, w)
  | PoemText text =>
      match text with
      | Some (c :: poemText) =>
          let poemText := c :: poemText in
          let w := setLoadingMessage "Whispering the words into existence..."
                     (setGeneratedPoem poemText w) in
          match speech (net gen) with
          | SpeechRejects message => (Thrown message, w)
          | SpeechNull => (Thrown Tts.muse_silent, w)
          | SpeechOk speechMp3ArrayBuffer =>
              if negb (audioContext w) then (Thrown Tts.muse_silent, w)
              else
                match decoded (net gen) with
                | DecodeRejects message => (Thrown message, w)
                | DecodeOk speechDecodedBuffer =>
                    playAudio (poemLines snap) (Some speechDecodedBuffer)
                      (setLoadingMessage "Poem and voice ready!"
                        (setAudioAndSyncData (generatedPoem snap) speechDecodedBuffer
                           speechMp3ArrayBuffer SpeechOnly w))
                end
          end
      | _ => (Thrown "No poem text received from the model.", w)
      end
  end.

(** [poemInput] is the text of the input box in the render that created
    the handler.  A rejection of [resume()] is not caught: the handler's
    promise is rejected with it. *)
Definition handleGeneratePoem (snap : Hooks) (poemInput : jsstring) (gen : Generation)
    (a : App) : Outcome * App :=
  if negb (nonempty_js (trim poemInput))
  then (Done,
        mkApp (setErrorMessage
                 "Your parchment is blank. Please inscribe your verse before invoking the voice."
                 (world a))
              (isLoading a))
  else
    let resumed : Outcome * World :=
      if audioContext (world a) then
        match resume gen with
        | Some r =>
            let w := await (resumed_at gen) (world a) in
            match r with
            | Some message => (Thrown message, w)
            | None => (Done, w)
            end
        | None => (Done, world a)
        end
      else (Done, world a) in
    match resumed with
    | (Thrown message, w) => (Thrown message, mkApp w (isLoading a))
    | (Done, w) =>
        let '(r, w2) := generate_try snap gen (generate_prelude w) in
        let w3 :=
          match r with
          | Done => w2
          | Thrown message => setErrorMessage message w2
          end in
        (Done, mkApp (setLoadingMessage "" w3) false)
    end.

(** The message of the first step of the [try] block that fails, if one
    does; [ctx] tells whether the audio context exists. *)
Definition generation_failure (gen : Generation) (ctx : bool) : option string :=
  match poem gen with
  | PoemRejects message => Some message
  | PoemText None | PoemText (Some []) => Some "No poem text received from the model."
  | PoemText (Some (_ :: _)) =>
      match speech (net gen) with
      | SpeechRejects message => Some message
      | SpeechNull => Some Tts.muse_silent
      | SpeechOk _ =>
          if ctx then
            match decoded (net gen) with
            | DecodeRejects message => Some message
            | DecodeOk _ => None
            end
          else Some Tts.muse_silent
      end
  end.

(** *** The transport buttons *)

Definition handlePlayPause (snap : Hooks) (w : World) : Outcome * World :=
  match currentPlaybackAudioBuffer snap with
  | None => (Done, setErrorMessage "No audio to play. Generate your poem first!" w)
  | Some buffer =>
      if isPlaying snap then (Done, stopAudio w)
      else playAudio (poemLines snap) (Some buffer) w
  end.

Definition handleStop (w : World) : World := stopAudio w.

(** The values of the music selector ([musicOptions]). *)
Definition musicOptions : list (string * string) :=
  [ ("none", "No Background Music");
    ("ambient", "Ambient Soundscape");
    ("orchestral", "Orchestral Harmony") ].

(** The form [handleMusicChange] posts to [/api/mix], as the endpoint
    receives it: [upload] is where the form parser stored the narration. *)
Definition mix_request (upload : Mix.UploadedFile) (newMusicChoice : string) : Mix.Request :=
  Mix.post (Some [upload]) (Some [newMusicChoice]).

(** What [fetch] resolves to when the handler of [/api/mix] has answered
    and ended the response; the parts a client cannot rely on are left
    open, as for [Tts.answers]. *)
Inductive mix_answers (env : Mix.Env) (req : Mix.Request)
    (disk : gmap string (list Byte.byte)) : FetchOutcome → Prop :=
| mix_answers_json error bytes :
    Mix.body (Mix.res (Mix.final env req disk)) = Mix.BodyJson error →
    mix_answers env req disk
      (FetchResponds (Tts.status_ok (Mix.statusCode (Mix.res (Mix.final env req disk))))
                     (Mix.statusCode (Mix.res (Mix.final env req disk)))
                     (JsonParsed (Some error)) bytes)
| mix_answers_audio sent json :
    Mix.body (Mix.res (Mix.final env req disk)) = Mix.BodyStream sent →
    Mix.ended (Mix.res (Mix.final env req disk)) = true →
    mix_answers env req disk
      (FetchResponds (Tts.status_ok (Mix.statusCode (Mix.res (Mix.final env req disk))))
                     (Mix.statusCode (Mix.res (Mix.final env req disk))) json sent).

(** *** [PoemDisplay] *)

(** [fadeOutTimer] is the line the pending 200 ms timer will show. *)
Record Display := mkDisplay {
  displayedLine : jsstring;
  isFadingOut : bool;
  fadeOutTimer : option jsstring }.

(** The effect on [currentLineIndex] and [poemLines], run after the
    cleanup of its previous run has cleared that run's timer. *)
Definition display_effect (lines : list jsstring) (index : Z) (d : Display) : Display :=
  if (0 <=? index)%Z && (index <? Z.of_nat (length lines))%Z
  then mkDisplay (displayedLine d) true (lines !! Z.to_nat index)
  else mkDisplay [] false None.

(** The timer's callback. *)
Definition fade_out_done (d : Display) : Display :=
  match fadeOutTimer d with
  | Some line => mkDisplay line false None
  | None => d
  end.

Definition placeholder : jsstring := js "Your generated poem will appear here...".

Definition contentToShow (lines : list jsstring) (index : Z) (spokenPoemText : jsstring)
    (d : Display) : jsstring :=
  if (0 <? length lines)%nat && (index =? -1)%Z && nonempty_js (trim spokenPoemText)
  then spokenPoemText
  else if nonempty_js (displayedLine d) then displayedLine d else placeholder.

(** *** Sample inputs *)

(** A page on which nothing was generated yet, a generation in which
    every call succeeds, and one in which the model refuses. *)
Definition fresh_app : App := mkApp (mkWorld initial_hooks true None None 0 [] [] 1 0) false.
Definition generation_ok : Generation :=
  mkGeneration None 0 (PoemText (Some two_line_poem)) online.
Definition generation_refused : Generation :=
  mkGeneration None 0 (PoemRejects "Quota exceeded") online.

(** The states of the page: a fresh page, and what the handlers and the
    passing of time make of a state.  A handler runs with the closures of
    some earlier render, so [rendered] is any state reached before. *)
Inductive reachable : World → Prop :=
| reach_initial w : hooks w = initial_hooks → reachable w
| reach_generate rendered poemInput gen w loading :
    reachable rendered → reachable w →
    reachable (world (snd (handleGeneratePoem (hooks rendered) poemInput gen (mkApp w loading))))
| reach_music rendered newMusicChoice net w :
    reachable rendered → reachable w →
    reachable (handleMusicChange (hooks rendered) newMusicChoice net w)
| reach_play_pause rendered w :
    reachable rendered → reachable w →
    reachable (snd (handlePlayPause (hooks rendered) w))
| reach_stop w : reachable w → reachable (handleStop w)
| reach_time t w : reachable w → reachable (advance t w).

(** A poem was generated, then a music track chosen. *)
Definition after_generation : World :=
  world (snd (handleGeneratePoem initial_hooks (js "ab") generation_ok fresh_app)).
Definition after_music : World :=
  handleMusicChange (hooks after_generation) "ambient" online after_generation.

End Page.

(* ===================================================================== *)
(** ** Properties of the mixing endpoint *)
(* ===================================================================== *)

Module MixFacts.
Import Mix.

(** Unfold the handler's own definitions and project out of built states;
    library functions stay folded. *)
Ltac exec :=
  cbv beta iota zeta delta
    [ run final handler try_block mix_and_stream stream_back catch_block finally_block
      ffmpeg_mix pipe_write pipe_end fs_access fs_mkdir_recursive fs_rename fs_stat
      res_status res_setHeader res_json console_error console_warn emit
      bind ret throw never_settles get modify try_catch try_finally settle
      with_fs with_trace with_console with_res set_voiceFilePath set_mixedFilePath
      init_state fresh_response
      fs trace console res voiceFilePath mixedFilePath
      statusCode headers headersSent ended body
      cwd mkdir_fault now_voice rand_voice now_mixed rand_mixed rename_fault
      ffmpeg_outcome stat_fault stream_outcome unlink_fault
      method form files_voice_audio fields_musicChoice filepath size
      inputs complexFilter outputOptions output
      tempDir voice_path mixed_path narration music_choice
      err_code err_message fst snd negb truthy ].

Lemma unlink_quiet_eq fault label p d t c r v m :
  unlink_quiet fault label p (mkState d t c r v m) =
  (Ok tt, mkState (unlink_fs fault p d) (t ++ [EvUnlink p]) (unlink_console fault label p c) r v m).
Proof.
  unfold unlink_quiet, fs_unlink, unlink_fs, unlink_console. exec.
  destruct (String.eqb p ""); [reflexivity|].
  destruct fault as [e|].
  - destruct (is_ENOENT e); reflexivity.
  - destruct (d !! p) eqn:E; [reflexivity|].
    rewrite delete_id by done. reflexivity.
Qed.

Lemma MUSIC_FILES_keys cwd key music :
  MUSIC_FILES cwd !! key = Some music → key = "ambient" ∨ key = "orchestral".
Proof.
  unfold MUSIC_FILES. intros H.
  destruct (decide (key = "ambient")) as [->|Ha]; [by left|].
  destruct (decide (key = "orchestral")) as [->|Ho]; [by right|].
  rewrite lookup_insert_ne in H by done. rewrite lookup_insert_ne in H by done.
  by rewrite lookup_empty in H.
Qed.

Lemma path_join_nonempty a b : String.eqb (path_join [a; b]) "" = false.
Proof. unfold path_join. simpl. destruct a; reflexivity. Qed.

Lemma MUSIC_FILES_nonempty cwd key music :
  MUSIC_FILES cwd !! key = Some music →
  String.eqb music "" = false ∧ String.eqb key "" = false.
Proof.
  intros H. destruct (MUSIC_FILES_keys _ _ _ H) as [-> | ->]; unfold MUSIC_FILES in H.
  - rewrite lookup_insert_eq in H. injection H as <-. split; [|reflexivity].
    unfold path_join; simpl. destruct cwd; reflexivity.
  - rewrite lookup_insert_ne in H by done. rewrite lookup_insert_eq in H. injection H as <-.
    split; [|reflexivity]. unfold path_join; simpl. destruct cwd; reflexivity.
Qed.

Lemma js_get_own own key v : own !! key = Some v → js_get own key = VString v.
Proof. unfold js_get. by intros ->. Qed.

Lemma js_get_VString own key v : js_get own key = VString v → own !! key = Some v.
Proof.
  unfold js_get. destruct (own !! key); [congruence|].
  destruct (bool_decide _); discriminate.
Qed.

(** Case analysis on whatever blocks the run: a known equation is used,
    anything else is split. *)
Ltac resolve x :=
  match goal with
  | H : x = _ |- _ => rewrite H
  | _ => let v := eval cbv in x in
         lazymatch v with
         | true => change x with true
         | false => change x with false
         end
  | _ => destruct x eqn:?
  end.
Ltac stuck_step :=
  match goal with
  | |- context [match ?x with _ => _ end] =>
      lazymatch x with
      | String.eqb _ _ => resolve x
      | js_get _ _ => resolve x
      | _ !! _ => resolve x
      | _ ≫= _ => resolve x
      | take _ _ => resolve x
      | _ => is_var x; destruct x eqn:?
      end
  end.
Ltac drive :=
  repeat (exec; rewrite ?unlink_quiet_eq, ?lookup_insert_eq; exec; try stuck_step).

Ltac open_run req env :=
  destruct req as [?meth [?perr|[?fvoice ?fmusic]]];
  destruct env as [?cwd ?mk ?nv ?rv ?nm ?rm ?rn ?ff ?st ?so ?uf].

Ltac no_event H :=
  let job := fresh "job" in
  destruct H as [job H]; cbn [app] in H;
  repeat (apply elem_of_cons in H as [H|H]; [discriminate H|]);
  apply elem_of_nil in H; exact H.


(** Name the run, execute it once, and continue in each exit path with
    the state it ends in. *)
Ltac run_cases :=
  unfold final in *;
  lazymatch goal with
  | |- context [run ?env ?req ?disk] =>
      let rs := fresh "rs" in
      let E := fresh "E" in
      let G := fresh "G" in
      remember (run env req disk) as rs eqn:E;
      pattern rs;
      lazymatch goal with |- ?P rs => set (G := P) end;
      revert E; drive; intros ->; subst G; exec
  end.

Ltac in_list :=
  cbn [app]; repeat first [ apply list_elem_of_here | apply list_elem_of_further ].

(** C1. A POST request with a narration part and a music key of the fixed
    table whose background file is on the disk, for which the media
    processor is invoked and ends successfully, leaving the mix [out]:
    when the size of the mix file can be read, the answer has status 200,
    Content-Type audio/mpeg and a Content-Length equal to the number of
    bytes of [out], empty or not; the body is all of [out] and the response
    is ended when the read stream reaches its end, and only the bytes
    already piped, the response left open, when the stream fails or the
    client goes away.  When the size cannot be read the answer is the 500
    JSON error. *)
Theorem mix_success_response env req disk vf key music out :
  method req = "POST" → narration req = Some vf → music_choice req = Some key →
  MUSIC_FILES (cwd env) !! key = Some music → is_Some (disk !! music) →
  (∃ job, EvFfmpeg job ∈ trace (final env req disk)) →
  ffmpeg_outcome env = FfmpegEnd out →
  let r := res (final env req disk) in
  match stat_fault env with
  | Some e => statusCode r = 500%N ∧ (∃ msg, body r = BodyJson msg) ∧ ended r = true
  | None =>
      statusCode r = 200%N ∧
      headers r !! "Content-Type" = Some (HStr "audio/mpeg") ∧
      headers r !! "Content-Length" = Some (HNum (N.of_nat (length out))) ∧
      match stream_outcome env with
      | StreamEnd => body r = BodyStream out ∧ ended r = true
      | StreamError sent _ | StreamStalls sent =>
          body r = match take sent out with [] => BodyNone | chunk => BodyStream chunk end ∧
          ended r = false
      end
  end.
Proof.
  intros Hm Hn Hk Hmus [bg Hread] Hinv Hff.
  open_run req env; unfold narration, music_choice in Hn, Hk;
    simpl in Hm, Hn, Hk, Hmus, Hff; subst; [done|].
  destruct (MUSIC_FILES_nonempty _ _ _ Hmus) as [Hmne Hkne].
  pose proof (js_get_own _ _ _ Hmus) as Hjs.
  destruct vf as [src sz].
  revert Hinv. run_cases.
  all: intros Hinv; try (exfalso; no_event Hinv).
  all: repeat split; try reflexivity; try (eexists; reflexivity).
  all: match goal with H : take _ _ = _ |- _ => rewrite H end; reflexivity.
Qed.

Ltac find_event H :=
  cbn [app] in H;
  repeat (apply elem_of_cons in H as [H|H]; [try discriminate H|]);
  try (apply elem_of_nil in H; destruct H).

(** C2. Every job handed to the media processor carries the fixed policy:
    the second input (the background track) scaled by 0.25, an [amix]
    whose duration is that of the first input (the narration copy),
    libmp3lame at quality 2.  The processor is started at most once per
    request; when it fails it was started exactly once, the answer is the
    500 JSON error (no audio body), and the unlink of the output path is
    attempted. *)
Theorem fixed_mixing_policy env req disk :
  let s := final env req disk in
  (∀ job, EvFfmpeg job ∈ trace s →
     complexFilter job =
       [ "[1:a]volume=0.25[music_vol]";
         "[0:a][music_vol]amix=inputs=2:duration=first:dropout_transition=2[aout]" ] ∧
     outputOptions job = [ "-map [aout]"; "-c:a libmp3lame"; "-q:a 2" ] ∧
     output job = mixed_path env ∧
     ∃ key music, music_choice req = Some key ∧
                  MUSIC_FILES (cwd env) !! key = Some music ∧
                  inputs job = [voice_path env; music]) ∧
  attempts KFfmpeg (trace s) ≤ 1 ∧
  (∀ msg partial, ffmpeg_outcome env = FfmpegError msg partial →
     attempts KFfmpeg (trace s) ≠ 0 →
     attempts KFfmpeg (trace s) = 1 ∧
     statusCode (res s) = 500%N ∧
     body (res s) =
       BodyJson "The blend was lost in the ether. Failed to weave voice and music into one tapestry." ∧
     EvUnlink (mixed_path env) ∈ trace s).
Proof.
  open_run req env; run_cases.
  all: unfold attempts; cbn [app List.filter same_kind kind_of length].
  all: split;
    [ intros job H; find_event H;
      (injection H as ->;
       split; [reflexivity|]; split; [reflexivity|]; split; [reflexivity|];
       eexists _, _; split; [eassumption|]; split;
       [apply js_get_VString; eassumption | reflexivity])
    | split; [lia|] ].
  all: intros ? ? Hff Hinv;
       first [ discriminate Hff | exfalso; apply Hinv; reflexivity | idtac ].
  all: repeat split; in_list.
Qed.

(** Requests that fail validation: answered 400 with nothing done. *)
Lemma validation_failure env req disk f :
  method req = "POST" → form req = FormParsed f →
  narration req = None ∨ music_choice req = None ∨ music_choice req = Some "" ∨
  (∃ key, music_choice req = Some key ∧ js_get (MUSIC_FILES (cwd env)) key = VUndefined) →
  let s := final env req disk in
  statusCode (res s) = 400%N ∧ (∃ msg, body (res s) = BodyJson msg) ∧
  trace s = [EvUnlink ""; EvUnlink ""] ∧ fs s = disk ∧ scratch_paths s = [].
Proof.
  intros Hm Hf Hbad.
  open_run req env; unfold narration, music_choice in Hbad; simpl in Hm, Hf, Hbad; subst;
    [discriminate Hf|].
  run_cases.
  all: try (repeat split; first [reflexivity | eexists; reflexivity]).
  all: exfalso; destruct Hbad as [Hb|[Hb|[Hb|(key & Hb & Hu)]]]; try congruence.
  all: try (injection Hb as ->; discriminate).
  all: try (injection Hb as ->; congruence).
Qed.





(** However the four deletions of a request fare, the handler returns the
    same outcome, the same response and the same sequence of operations. *)
Lemma response_ignores_unlink_faults env req disk uf' :
  fst (run (with_unlink_fault uf' env) req disk) = fst (run env req disk) ∧
  res (final (with_unlink_fault uf' env) req disk) = res (final env req disk) ∧
  trace (final (with_unlink_fault uf' env) req disk) = trace (final env req disk).
Proof.
  unfold final.
  open_run req env; unfold with_unlink_fault;
    cbn [cwd mkdir_fault now_voice rand_voice now_mixed rand_mixed rename_fault
         ffmpeg_outcome stat_fault stream_outcome].
  all: match goal with
       | |- context [run ?e1 ?r ?d] =>
           match goal with
           | |- context [run ?e2 r d] =>
               tryif constr_eq e1 e2 then fail else
               (remember (run e1 r d) as rs1 eqn:E1;
                remember (run e2 r d) as rs2 eqn:E2;
                pattern rs1, rs2;
                lazymatch goal with |- ?P rs1 rs2 => set (G := P) end;
                revert E1 E2)
           end
       end.
  all: drive.
  all: intros -> ->; subst G; exec; repeat split.
Qed.

(** C5. Deleting through [unlink_quiet] never throws and never touches the
    response.  When the file is absent (an empty path, a path not on the
    disk, or an ENOENT from the system) nothing is logged and the disk is
    unchanged; any other failure adds one warning and nothing else.  After
    a deletion that succeeded, deleting the same path again is silent.
    For the handler as a whole: its outcome and its response are the same
    however its deletions fare. *)
Theorem unlink_quiet_never_escalates fault label p s :
  let r := unlink_quiet fault label p s in
  fst r = Ok tt ∧
  res (snd r) = res s ∧
  trace (snd r) = trace s ++ [EvUnlink p] ∧
  ((p = "" ∨ (fault = None ∧ fs s !! p = None) ∨ (∃ e, fault = Some e ∧ is_ENOENT e = true)) →
     console (snd r) = console s ∧ fs (snd r) = fs s) ∧
  (∀ e, p ≠ "" → fault = Some e → is_ENOENT e = false →
     console (snd r) = console s ++ [LogWarn (label +:+ err_message e)] ∧
     fs (snd r) = fs s) ∧
  (p ≠ "" → fault = None →
     fs (snd r) !! p = None ∧
     ∀ label',
       let r2 := unlink_quiet None label' p (snd r) in
       fst r2 = Ok tt ∧ res (snd r2) = res s ∧
       console (snd r2) = console s ∧ fs (snd r2) = fs (snd r)) ∧
  (∀ env req disk uf',
     fst (run (with_unlink_fault uf' env) req disk) = fst (run env req disk) ∧
     res (final (with_unlink_fault uf' env) req disk) = res (final env req disk)).
Proof.
  destruct s as [d t c r v m]. cbv zeta. rewrite unlink_quiet_eq.
  cbn [fst snd res trace console fs].
  split; [reflexivity|]. split; [reflexivity|]. split; [reflexivity|].
  unfold unlink_fs, unlink_console. split; [|split; [|split]].
  - intros [-> | [[-> Habs] | (e & -> & He)]].
    + split; reflexivity.
    + destruct (String.eqb p ""); [split; reflexivity|].
      split; [reflexivity|]. apply delete_id. exact Habs.
    + destruct (String.eqb p ""); [split; reflexivity|]. rewrite He. split; reflexivity.
  - intros e Hp -> He. apply String.eqb_neq in Hp. rewrite Hp, He. split; reflexivity.
  - intros Hp ->. apply String.eqb_neq in Hp. rewrite Hp.
    split; [apply lookup_delete_eq|].
    intros label'. cbv zeta. rewrite unlink_quiet_eq. cbn [fst snd res trace console fs].
    unfold unlink_fs, unlink_console. rewrite Hp.
    repeat split. apply delete_id, lookup_delete_eq.
  - intros env req disk uf'.
    destruct (response_ignores_unlink_faults env req disk uf') as (Hout & Hres & _).
    split; assumption.
Qed.

(** C3, at the input where the handler departs from it: a music choice
    that names a member every object inherits is no key of the table, yet
    it passes the guard and the request is answered 500 instead of 400.
    Nothing is created on the disk and the processor is not started. *)
Theorem prototype_key_answers_500 :
  let req := post (Some [upload_of 3]) (Some ["constructor"]) in
  let s := final env_ok req (disk_with [Byte.x49; Byte.x44; Byte.x33]) in
  MUSIC_FILES (cwd env_ok) !! "constructor" = None ∧
  statusCode (res s) = 500%N ∧
  body (res s) =
    BodyJson "The chosen melody is lost in the mists. Background music file not found on the server." ∧
  trace s = [EvAccess (VInherited "constructor"); EvUnlink ""; EvUnlink ""] ∧
  fs s = disk_with [Byte.x49; Byte.x44; Byte.x33].
Proof.
  cbv zeta. split; [|split; [|split; [|split]]]; vm_compute; reflexivity.
Qed.

(** C1, as stated, fails.  The same valid request, the processor invoked
    once and ending successfully each time: with an empty mix file the
    answer is 200 with Content-Length 0 and an empty body; when the size of
    the mix cannot be read the answer is 500; when the read stream fails
    after two of three bytes the answer keeps status 200 and Content-Length
    3 with a body of two bytes. *)
Lemma processor_success_is_not_enough :
  let req := post (Some [upload_of 3]) (Some ["ambient"]) in
  let disk := disk_with [Byte.x49; Byte.x44; Byte.x33] in
  let empty := final env_empty_mix req disk in
  let unread := final env_stat_fails req disk in
  let broken := final env_stream_breaks req disk in
  (attempts KFfmpeg (trace empty) = 1 ∧ ffmpeg_outcome env_empty_mix = FfmpegEnd [] ∧
   statusCode (res empty) = 200%N ∧
   headers (res empty) !! "Content-Length" = Some (HNum 0) ∧
   body (res empty) = BodyStream [] ∧ ended (res empty) = true) ∧
  (attempts KFfmpeg (trace unread) = 1 ∧ statusCode (res unread) = 500%N ∧
   body (res unread) = BodyJson "EIO: i/o error, stat") ∧
  (attempts KFfmpeg (trace broken) = 1 ∧ statusCode (res broken) = 200%N ∧
   headers (res broken) !! "Content-Length" = Some (HNum 3) ∧
   body (res broken) = BodyStream [Byte.x49; Byte.x44]).
Proof.
  cbv zeta. repeat split; vm_compute; reflexivity.
Qed.


(** *** The theorems at sample inputs *)

Lemma mix_success_response_witness :
  let r := res (final env_ok (post (Some [upload_of 3]) (Some ["ambient"]))
                      (disk_with [Byte.x49; Byte.x44; Byte.x33])) in
  statusCode r = 200%N ∧
  headers r !! "Content-Type" = Some (HStr "audio/mpeg") ∧
  headers r !! "Content-Length" = Some (HNum 3) ∧
  body r = BodyStream [Byte.x49; Byte.x44; Byte.x33] ∧ ended r = true.
Proof.
  pose proof (mix_success_response env_ok (post (Some [upload_of 3]) (Some ["ambient"]))
           (disk_with [Byte.x49; Byte.x44; Byte.x33]) (upload_of 3) "ambient" ambient_track
           [Byte.x49; Byte.x44; Byte.x33]) as H.
  cbv zeta in H. cbn [stat_fault stream_outcome env_ok] in H.
  destruct H as (H1 & H2 & H3 & H4 & H5).
  - reflexivity.
  - reflexivity.
  - reflexivity.
  - vm_compute. reflexivity.
  - eexists. vm_compute. reflexivity.
  - eexists. vm_compute. in_list.
  - reflexivity.
  - cbv zeta. repeat split; assumption.
Defined.

Lemma fixed_mixing_policy_witness :
  let s := final env_ffmpeg_fails (post (Some [upload_of 3]) (Some ["ambient"]))
                 (disk_with [Byte.x49; Byte.x44; Byte.x33]) in
  attempts KFfmpeg (trace s) = 1 ∧ statusCode (res s) = 500%N.
Proof.
  destruct (fixed_mixing_policy env_ffmpeg_fails (post (Some [upload_of 3]) (Some ["ambient"]))
              (disk_with [Byte.x49; Byte.x44; Byte.x33])) as (_ & _ & Hfail).
  destruct (Hfail "Conversion failed!" (Some [Byte.x49]) eq_refl) as (Hone & Hstatus & _).
  - vm_compute. discriminate.
  - split; assumption.
Defined.

Lemma unlink_quiet_never_escalates_witness :
  let s := init_state (disk_with []) in
  let r := unlink_quiet None "Failed to clean up voice temp file: " "/tmp/upload_1" s in
  let r2 := unlink_quiet None "Failed to clean up voice temp file in finally: "
                         "/tmp/upload_1" (snd r) in
  fst r2 = Ok tt ∧ res (snd r2) = res s ∧ console (snd r2) = console s.
Proof.
  destruct (unlink_quiet_never_escalates None "Failed to clean up voice temp file: "
              "/tmp/upload_1" (init_state (disk_with []))) as (_ & _ & _ & _ & _ & Htwice & _).
  destruct Htwice as [_ Hagain]; [discriminate | reflexivity |].
  destruct (Hagain "Failed to clean up voice temp file in finally: ") as (H1 & H2 & H3 & _).
  repeat split; assumption.
Defined.


End MixFacts.

(* ===================================================================== *)
(** ** Properties of the playback code *)
(* ===================================================================== *)

Module PlayerFacts.
Import Player.

Lemma poem_lines_lengths poem : Forall (fun line => 1 ≤ length line) (poem_lines poem).
Proof.
  apply List.Forall_forall. intros line Hin.
  unfold poem_lines in Hin. apply List.filter_In in Hin as [_ Hkeep].
  destruct line as [|c rest]; [discriminate Hkeep | simpl; lia].
Qed.

Lemma totalChars_from (lines : list jsstring) n :
  fold_left (fun sum line => sum + length line) lines n = n + totalChars lines.
Proof.
  unfold totalChars. revert n. induction lines as [|l ls IH]; intros n; simpl.
  - lia.
  - rewrite IH, (IH (length l)). lia.
Qed.

Lemma totalChars_cons l (ls : list jsstring) : totalChars (l :: ls) = length l + totalChars ls.
Proof. unfold totalChars at 1. simpl. apply totalChars_from. Qed.

Lemma of_nat_add a b : (of_nat (a + b) == of_nat a + of_nat b)%Q.
Proof. unfold of_nat. rewrite Nat2Z.inj_add, inject_Z_plus. reflexivity. Qed.

Lemma of_nat_nonneg a : (0 <= of_nat a)%Q.
Proof. unfold of_nat. change 0%Q with (inject_Z 0). rewrite <- Zle_Qle. lia. Qed.

Lemma of_nat_pos a : 0 < a → (0 < of_nat a)%Q.
Proof. intros H. unfold of_nat. change 0%Q with (inject_Z 0). rewrite <- Zlt_Qlt. lia. Qed.

Lemma sum_scaled (D c : Q) (ls : list jsstring) (acc : Q) :
  ¬ (c == 0)%Q →
  (fold_left Qplus (map (fun line => D * (of_nat (length line) / c)) ls) acc
   == acc + D * (of_nat (totalChars ls) / c))%Q.
Proof.
  intros Hc. revert acc. induction ls as [|l ls IH]; intros acc.
  - simpl. unfold totalChars, of_nat. simpl. field. exact Hc.
  - simpl. rewrite IH. rewrite totalChars_cons, of_nat_add. field. exact Hc.
Qed.

Lemma durations_sum D lines :
  0 < totalChars lines →
  (fold_left Qplus (lineDurations D lines) 0 == D)%Q.
Proof.
  intros Hpos. unfold lineDurations.
  assert (Hc : ¬ (of_nat (totalChars lines) == 0)%Q).
  { intros E. apply of_nat_pos in Hpos. rewrite E in Hpos. by apply Qlt_irrefl in Hpos. }
  rewrite sum_scaled by exact Hc. field. exact Hc.
Qed.


Lemma schedule_lines_spec durs : ∀ i c h ac src ltr clk tms eq nt ns,
  schedule_lines durs i c (mkWorld h ac src ltr clk tms eq nt ns) =
  mkWorld h ac src
    (match durs with [] => ltr | _ :: _ => Some (nt + length durs - 1) end)
    clk
    (tms ++ imap (fun k _ =>
               mkTimer (nt + k) (clk + fold_left Qplus (take k durs) c * 1000)%Q
                       (Z.of_nat (i + k))) durs)
    eq (nt + length durs) ns.
Proof.
  induction durs as [|d rest IH]; intros i c h ac src ltr clk tms eq nt ns.
  - simpl. rewrite app_nil_r, Nat.add_0_r. reflexivity.
  - cbn [schedule_lines]. unfold setTimeout, set_next_timer, set_timers, set_lineTimerRef.
    cbn [next_timer timers clock hooks audioContext audioSourceRef lineTimerRef
         ended_queue next_source].
    rewrite IH. f_equal.
    + destruct rest; simpl; f_equal; lia.
    + rewrite <- app_assoc. f_equal. cbn [imap app take fold_left].
      rewrite !Nat.add_0_r. f_equal.
      apply imap_ext. intros k x _. simpl. f_equal; [lia | f_equal; lia].
    + simpl. lia.
Qed.

Lemma lookup_map_Some {A B} (f : A → B) (l : list A) i x :
  l !! i = Some x → map f l !! i = Some (f x).
Proof.
  revert i. induction l as [|a l IH]; intros [|i] H; try discriminate H.
  - injection H as ->. reflexivity.
  - simpl. apply IH. exact H.
Qed.

Ltac wexec :=
  cbv beta iota zeta delta
    [ playAudio stopAudio clearLineTimers clearTimeout setTimeout source_stop
      setAudioAndSyncData mix_try mix_catch mix_prelude handleMusicChange
      with_hooks set_audioSourceRef set_lineTimerRef set_clock set_timers
      set_ended_queue set_next_timer set_next_source
      setPoemLines setCurrentLineIndex setSpeechOnlyDecodedBuffer setSpeechOnlyRawMp3Buffer
      setMixedDecodedBuffer setMixedRawMp3Buffer setCurrentPlaybackAudioBuffer
      setCurrentDownloadMp3Buffer setIsPlaying setErrorMessage setMusicChoice setIsMixing
      setLoadingMessage setIsMixedAudioPlaying
      hooks audioContext audioSourceRef lineTimerRef clock timers ended_queue next_timer
      next_source
      generatedPoem poemLines currentLineIndex speechOnlyDecodedBuffer
      speechOnlyRawMp3Buffer mixedDecodedBuffer mixedRawMp3Buffer
      currentPlaybackAudioBuffer currentDownloadMp3Buffer isPlaying errorMessage
      musicChoice isMixing loadingMessage isMixedAudioPlaying
      fst snd negb ].

Lemma stopAudio_fields w :
  lineTimerRef (stopAudio w) = None ∧ clock (stopAudio w) = clock w ∧
  next_timer (stopAudio w) = next_timer w ∧ audioContext (stopAudio w) = audioContext w ∧
  timers (stopAudio w) =
    match lineTimerRef w with
    | Some id => List.filter (fun t => negb (Nat.eqb (timer_id t) id)) (timers w)
    | None => timers w
    end.
Proof.
  destruct w as [h ac src ltr clk tms eq nt ns].
  unfold stopAudio, clearLineTimers. destruct src, ltr; simpl; done.
Qed.

(** The schedule of [playAudio] with the operations of the rationals.  With
    an initialised audio context, a non-empty list of lines of total
    character count C > 0 and a buffer of duration D: line i is allotted
    D * (length of line i / C); these durations sum to D; after the timers
    [stopAudio] left pending one timer per line is appended, line i due at
    the cumulative duration of the lines before it, then a last timer due
    D seconds from now that resets the highlight; [lineTimerRef] holds that
    last timer. *)
Lemma playAudio_schedule_over_rationals lines buf w :
  audioContext w = true → lines ≠ [] → 0 < totalChars lines →
  let D := duration buf in
  let durs := lineDurations D lines in
  let w' := snd (playAudio lines (Some buf) w) in
  fst (playAudio lines (Some buf) w) = Done ∧
  (∀ i line, lines !! i = Some line →
     durs !! i = Some (D * (of_nat (length line) / of_nat (totalChars lines)))%Q) ∧
  (fold_left Qplus durs 0 == D)%Q ∧
  ∃ scheduled,
    timers w' = timers (stopAudio w) ++ scheduled ∧
    length scheduled = S (length lines) ∧
    (∀ i, i < length lines →
       scheduled !! i =
         Some (mkTimer (next_timer w + i) (clock w + elapsed_before i durs * 1000)%Q
                       (Z.of_nat i))) ∧
    scheduled !! length lines =
      Some (mkTimer (next_timer w + length lines) (clock w + D * 1000)%Q (-1)) ∧
    lineTimerRef w' = Some (next_timer w + length lines).
Proof.
  intros Hctx Hne Hpos D durs w'.
  assert (Hlen : length durs = length lines) by (unfold durs, lineDurations; apply length_map).
  destruct (stopAudio_fields w) as (Hltr & Hclk & Hnt & Hac & _).
  subst w'. unfold playAudio. rewrite Hctx. cbn [negb].
  fold D.
  destruct (stopAudio w) as [h ac src ltr clk tms eq nt ns] eqn:Hstop.
  simpl in Hltr, Hclk, Hnt, Hac. subst ltr clk nt ac.
  destruct lines as [|l0 ls]; [done|].
  wexec. fold D. fold durs. rewrite schedule_lines_spec. wexec.
  split; [reflexivity|]. split; [|split].
  - intros i line Hi. unfold durs, lineDurations.
    apply (lookup_map_Some (fun line => (D * (of_nat (length line) / _))%Q)). exact Hi.
  - apply durations_sum. exact Hpos.
  - eexists. split; [rewrite <- app_assoc; reflexivity|].
    rewrite length_app, length_imap, Hlen. split; [simpl; lia|]. split; [|split].
    + intros i Hi. rewrite lookup_app_l by (rewrite length_imap; lia).
      rewrite list_lookup_imap.
      destruct (durs !! i) as [d|] eqn:Hd.
      * reflexivity.
      * apply lookup_ge_None in Hd. lia.
    + rewrite lookup_app_r by (rewrite length_imap; lia).
      rewrite length_imap, Hlen, Nat.sub_diag. reflexivity.
    + reflexivity.
Qed.


Lemma totalChars_ge_first l (ls : list jsstring) : length l ≤ totalChars (l :: ls).
Proof. rewrite totalChars_cons. lia. Qed.

(** C9. When the guards of [handleMusicChange] pass and its [try] block
    throws, the state it leaves has [musicChoice] = none and [isMixing]
    off, shows the error, and, when the callback saw both speech-only
    buffers, plays and downloads the speech-only audio again with the mixed
    buffers cleared and the mixed-audio flag off. *)
Theorem failed_mix_restores_speech_only snap newMusicChoice net w message :
  nonempty_js (generatedPoem snap) = true → audioContext w = true →
  musicChoice snap ≠ newMusicChoice →
  fst (mix_try snap newMusicChoice net (mix_prelude newMusicChoice w)) = Thrown message →
  let h := hooks (handleMusicChange snap newMusicChoice net w) in
  musicChoice h = "none" ∧ isMixing h = false ∧ errorMessage h = message ∧
  (∀ d r, speechOnlyDecodedBuffer snap = Some d → speechOnlyRawMp3Buffer snap = Some r →
     currentPlaybackAudioBuffer h = Some d ∧ currentDownloadMp3Buffer h = Some r ∧
     speechOnlyDecodedBuffer h = Some d ∧ speechOnlyRawMp3Buffer h = Some r ∧
     mixedDecodedBuffer h = None ∧ mixedRawMp3Buffer h = None ∧
     isMixedAudioPlaying h = false).
Proof.
  intros Hpoem Hctx Hchoice Hthrow h. subst h.
  unfold handleMusicChange. rewrite Hpoem, Hctx. cbn [negb].
  destruct (String.eqb_spec (musicChoice snap) newMusicChoice) as [E|_]; [done|].
  destruct (mix_try snap newMusicChoice net (mix_prelude newMusicChoice w)) as [r w2].
  simpl in Hthrow. subst r.
  destruct w2 as [h2 ac src ltr clk tms eq nt ns]. destruct h2.
  unfold mix_catch.
  destruct (speechOnlyDecodedBuffer snap) as [d0|], (speechOnlyRawMp3Buffer snap) as [r0|];
    wexec; (split; [reflexivity|]); (split; [reflexivity|]); (split; [reflexivity|]);
    intros d r Hd Hr; try discriminate Hd; try discriminate Hr;
    injection Hd as <-; injection Hr as <-; repeat split.
Qed.

(** The failures the handler can meet before any mixed audio is set all
    make the [try] block throw. *)
Lemma listed_failures_throw snap newMusicChoice net w voice :
  newMusicChoice ≠ "none" → speechOnlyRawMp3Buffer snap = Some voice →
  (∃ m, mix_response net = FetchRejects m) ∨
  (∃ status json payload, mix_response net = FetchResponds false status json payload) ∨
  (∃ status json payload m, mix_response net = FetchResponds true status json payload ∧
                            decoded net = DecodeRejects m) →
  ∃ message, fst (mix_try snap newMusicChoice net w) = Thrown message.
Proof.
  intros Hnone Hvoice Hfail. unfold mix_try.
  destruct (String.eqb_spec newMusicChoice "none") as [E|_]; [done|].
  rewrite Hvoice.
  cbv zeta.
  destruct Hfail as [[m ->]|[(st & js & pl & ->)|(st & js & pl & m & -> & ->)]];
    cbn [negb fst]; eauto.
Qed.


(** [stopAudio] cancels the one timer [lineTimerRef] names and leaves
    every other pending timer in place. *)
Lemma stopAudio_cancels_one w t :
  t ∈ timers w → lineTimerRef w ≠ Some (timer_id t) → t ∈ timers (stopAudio w).
Proof.
  intros Hin Hne. destruct (stopAudio_fields w) as (_ & _ & _ & _ & ->).
  destruct (lineTimerRef w) as [id|]; [|exact Hin].
  apply list_elem_of_In, List.filter_In. split; [by apply list_elem_of_In|].
  apply negb_true_iff, Nat.eqb_neq. congruence.
Qed.

(** C8, at an input where the code departs from it.  A two-line poem with
    a four-second narration is played; at 1 s playback is stopped, and the
    timer of line 1 (due at 2 s) stays pending; playback restarts at
    1.5 s; at 2 s the timer scheduled before the stop moves the highlight
    to line 1 although the new playback reaches that line only at 3.5 s.
    The same happens when the track is switched at 1 s and the mix is
    ready at 1.5 s. *)
Theorem stale_highlight_after_stop :
  let playing := snd (playAudio two_lines (Some four_seconds) ready) in
  let stopped := stopAudio (advance 1000 playing) in
  let replayed := snd (playAudio two_lines (Some four_seconds) (advance 1500 stopped)) in
  let switched :=
    handleMusicChange (hooks playing) "ambient" online (advance 1000 playing) in
  map timer_id (timers playing) = [1; 2; 3] ∧
  map timer_id (timers stopped) = [2] ∧
  currentLineIndex (hooks stopped) = (-1)%Z ∧
  currentLineIndex (hooks (advance 1600 replayed)) = 0%Z ∧
  currentLineIndex (hooks (advance 2000 replayed)) = 1%Z ∧
  map timer_id (timers (advance 2000 replayed)) = [5; 6] ∧
  map timer_id (timers switched) = [2; 4; 5; 6] ∧
  currentLineIndex (hooks (advance 2000 switched)) = 1%Z ∧
  map timer_id (timers (advance 2000 switched)) = [5; 6].
Proof. cbv zeta. repeat split; vm_compute; reflexivity. Qed.

(** *** The theorems at sample inputs *)

Lemma failed_mix_restores_speech_only_witness :
  let h := hooks (handleMusicChange ready_hooks "ambient" offline ready) in
  musicChoice h = "none" ∧ currentPlaybackAudioBuffer h = Some four_seconds ∧
  currentDownloadMp3Buffer h = Some speech_mp3 ∧ isMixedAudioPlaying h = false.
Proof.
  destruct (failed_mix_restores_speech_only ready_hooks "ambient" offline ready "Failed to fetch")
    as (Hchoice & _ & _ & Hback).
  - reflexivity.
  - reflexivity.
  - discriminate.
  - vm_compute. reflexivity.
  - destruct (Hback four_seconds speech_mp3 eq_refl eq_refl) as (Hp & Hd & _ & _ & _ & _ & Hm).
    repeat split; assumption.
Defined.

End PlayerFacts.

(* ===================================================================== *)
(** ** Further properties of the mixing endpoint *)
(* ===================================================================== *)

Module MixMore.
Import Mix MixFacts.

(** X1. A request whose method is not POST is answered 405 with the JSON
    error Method Not Allowed and nothing else happens: the form is not read,
    no file-system call is made (not even the final unlinks, which belong to
    a [try] that is never entered), nothing is logged and the disk is
    unchanged. *)
Theorem wrong_method_405 env req disk :
  method req ≠ "POST" →
  run env req disk =
    (Ok tt,
     mkState disk [] []
       (mkResponse 405 (<["Content-Type" := HStr "application/json; charset=utf-8"]> ∅)
                   true true (BodyJson "Method Not Allowed")) "" "").
Proof.
  intros Hm. apply String.eqb_neq in Hm.
  unfold run, handler. rewrite Hm. reflexivity.
Qed.

(** X2. A valid request whose background track is not on the disk is
    answered 500 with the fixed message; the only file-system calls are the
    access check and the two final unlinks of the still empty paths, so the
    disk is unchanged and no scratch path is assigned. *)
Theorem missing_track_500 env req disk vf key music :
  method req = "POST" → narration req = Some vf → music_choice req = Some key →
  MUSIC_FILES (cwd env) !! key = Some music → disk !! music = None →
  let s := final env req disk in
  fst (run env req disk) = Ok tt ∧
  statusCode (res s) = 500%N ∧
  body (res s) =
    BodyJson "The chosen melody is lost in the mists. Background music file not found on the server." ∧
  trace s = [EvAccess (VString music); EvUnlink ""; EvUnlink ""] ∧
  fs s = disk ∧ scratch_paths s = [].
Proof.
  intros Hm Hn Hk Hmus Habs.
  open_run req env; unfold narration, music_choice in Hn, Hk;
    simpl in Hm, Hn, Hk, Hmus; subst; [done|].
  destruct (MUSIC_FILES_nonempty _ _ _ Hmus) as [Hmne Hkne].
  pose proof (js_get_own _ _ _ Hmus) as Hjs.
  run_cases. repeat split.
Qed.


Lemma processor_started_only_if env req disk :
  attempts KFfmpeg (trace (final env req disk)) ≠ 0 → reaches_processor env req disk.
Proof.
  unfold reaches_processor.
  open_run req env; unfold narration, music_choice;
    cbn [method form files_voice_audio fields_musicChoice Mix.cwd mkdir_fault rename_fault];
    run_cases.
  all: unfold attempts; cbn [app List.filter same_kind kind_of length]; intros Hn;
       try (exfalso; apply Hn; reflexivity).
  all: apply String.eqb_eq in Heqb; subst; split; [reflexivity|].
  all: eexists _, _, _; repeat split; try eassumption; try reflexivity;
       try (apply js_get_VString; eassumption); cbn [filepath]; eauto.
Qed.

Lemma processor_started_if env req disk :
  reaches_processor env req disk → attempts KFfmpeg (trace (final env req disk)) = 1.
Proof.
  intros (Hm & vf & key & music & Hn & Hk & Hmus & [bg Hread] & Hmk & Hrn & [narr Hsrc]).
  open_run req env; unfold narration, music_choice in Hn, Hk;
    simpl in Hm, Hn, Hk, Hmus, Hmk, Hrn; subst; [done|].
  destruct (MUSIC_FILES_nonempty _ _ _ Hmus) as [Hmne Hkne].
  pose proof (js_get_own _ _ _ Hmus) as Hjs.
  destruct vf as [src sz]. cbn [filepath] in Hsrc.
  run_cases.
  all: reflexivity.
Qed.

(** X4. The media processor is started once exactly when the method is POST,
    the narration part and a key of MUSIC_FILES are present, the track is on
    the disk, the directory could be made and the upload could be moved (it
    was on the disk and rename did not fail); in every other case it is not
    started at all. *)
Theorem processor_started_iff env req disk :
  (attempts KFfmpeg (trace (final env req disk)) = 1 ↔ reaches_processor env req disk) ∧
  (attempts KFfmpeg (trace (final env req disk)) = 0 ↔ ¬ reaches_processor env req disk).
Proof.
  split; split.
  - intros H. apply processor_started_only_if. rewrite H. discriminate.
  - apply processor_started_if.
  - intros H Hreach. apply processor_started_if in Hreach. congruence.
  - intros Hnot.
    destruct (decide (attempts KFfmpeg (trace (final env req disk)) = 0)) as [H0|H0]; [exact H0|].
    destruct Hnot. by apply processor_started_only_if.
Qed.


Lemma unlink_fs_gone p d :
  String.eqb p "" = false → unlink_fs None p d !! p = None.
Proof. intros Hp. unfold unlink_fs. rewrite Hp. apply lookup_delete_eq. Qed.

Lemma unlink_fs_keeps_gone p q d :
  d !! q = None → unlink_fs None p d !! q = None.
Proof.
  intros Hq. unfold unlink_fs. destruct (String.eqb p ""); [exact Hq|].
  apply lookup_delete_None. by right.
Qed.

Ltac gone :=
  first [ assumption
        | apply lookup_delete_eq
        | apply unlink_fs_gone, path_join_nonempty
        | apply unlink_fs_keeps_gone; gone
        | rewrite lookup_insert_ne by congruence; gone ].

(** X5. If no unlink fails, no scratch file is left on the disk when the
    handler returns: neither scratch path holds a file, and an upload that
    was moved is gone from where the form parser stored it. *)
Theorem no_scratch_left_behind env req disk :
  (∀ site, unlink_fault env site = None) →
  fst (run env req disk) = Ok tt →
  let s := final env req disk in
  (∀ p, p ∈ scratch_paths s → fs s !! p = None) ∧
  (∀ vf, narration req = Some vf → attempts KRename (trace s) = 1 →
         rename_fault env = None → fs s !! filepath vf = None).
Proof.
  intros Huf.
  open_run req env; cbn [unlink_fault rename_fault] in *;
    unfold narration; cbn [form files_voice_audio]; run_cases.
  all: intros Hret; try discriminate Hret.
  all: rewrite ?Huf.
  all: unfold scratch_paths, attempts; exec; cbn [List.filter app];
       rewrite ?path_join_nonempty; cbn [List.filter app String.eqb negb same_kind kind_of length].
  all: split;
    [ intros p Hp;
      repeat (apply elem_of_cons in Hp as [->|Hp]; [gone|]);
      apply elem_of_nil in Hp; destruct Hp
    | intros vf Hn Hr Hrf; try discriminate Hn; try discriminate Hr; try discriminate Hrf ].
  all: injection Hn as <-; cbn [filepath].
  all: match goal with
       | |- context [path_join [?t; scratch_name "voice" ?a ?b]] =>
           destruct (decide (filepath0 = path_join [t; scratch_name "voice" a b])) as [->|Hv]
       end; [gone|].
  all: match goal with
       | |- context [path_join [?t; scratch_name "final_mix" ?a ?b]] =>
           destruct (decide (filepath0 = path_join [t; scratch_name "final_mix" a b])) as [->|Hm]
       end; [gone|].
  all: gone.
Qed.

(** X6. The status of every answer is 200, 400, 405 or 500. An answer other
    than 200 is a complete JSON response with a non-empty error message; an
    answer 200 is always the stream of the mix: the read stream was opened,
    Content-Type is audio/mpeg, and the body is never a JSON error. *)
Theorem every_answer_is_classified env req disk :
  let s := final env req disk in
  let r := res s in
  (statusCode r = 200 ∨ statusCode r = 400 ∨ statusCode r = 405 ∨ statusCode r = 500)%N ∧
  (statusCode r ≠ 200%N →
     ∃ msg, msg ≠ "" ∧ body r = BodyJson msg ∧ ended r = true ∧ headersSent r = true ∧
            headers r !! "Content-Type" = Some (HStr "application/json; charset=utf-8")) ∧
  (statusCode r = 200%N →
     attempts KCreateReadStream (trace s) = 1 ∧
     headers r !! "Content-Type" = Some (HStr "audio/mpeg") ∧
     ∀ msg, body r ≠ BodyJson msg).
Proof.
  open_run req env; run_cases.
  all: unfold attempts; cbn [app List.filter same_kind kind_of length].
  all: split; [auto|].
  all: split;
    [ intros Hs;
      first [ exfalso; apply Hs; reflexivity
            | match goal with |- context [BodyJson ?m] => exists m end;
              split; [ first [ discriminate | apply String.eqb_neq; eassumption ]
                     | repeat split ] ]
    | intros Hs; first [ discriminate Hs | repeat split; discriminate ] ].
Qed.

Lemma unlink_console_keeps fault label p c x :
  x ∈ c → x ∈ unlink_console fault label p c.
Proof.
  intros Hx. unfold unlink_console.
  destruct (String.eqb p ""); [exact Hx|].
  destruct fault as [e|]; [|exact Hx].
  destruct (is_ENOENT e); [exact Hx|]. apply elem_of_app. by left.
Qed.

(** X7. When the read stream fails after the processor succeeded, the
    failure is only logged: the response keeps status 200 and the announced
    Content-Length of the whole mix, carries the bytes sent before the
    failure, is never ended, and the two scratch files are unlinked once
    each (by the [finally] block). *)
Theorem stream_error_keeps_200 env req disk sent e out :
  reaches_processor env req disk →
  ffmpeg_outcome env = FfmpegEnd out → stat_fault env = None →
  stream_outcome env = StreamError sent e →
  let s := final env req disk in
  let r := res s in
  fst (run env req disk) = Ok tt ∧
  statusCode r = 200%N ∧
  headers r !! "Content-Length" = Some (HNum (N.of_nat (length out))) ∧
  body r = (match take sent out with [] => BodyNone | chunk => BodyStream chunk end) ∧
  ended r = false ∧
  LogError "Error streaming mixed audio:" (err_message e) ∈ console s ∧
  attempts KUnlink (trace s) = 2 ∧
  EvUnlink (voice_path env) ∈ trace s ∧ EvUnlink (mixed_path env) ∈ trace s.
Proof.
  intros (Hm & vf & key & music & Hn & Hk & Hmus & [bg Hread] & Hmk & Hrn & [narr Hsrc])
         Hff Hst Hso.
  open_run req env; unfold narration, music_choice in Hn, Hk;
    simpl in Hm, Hn, Hk, Hmus, Hmk, Hrn, Hff, Hst, Hso; subst; [done|].
  destruct (MUSIC_FILES_nonempty _ _ _ Hmus) as [Hmne Hkne].
  pose proof (js_get_own _ _ _ Hmus) as Hjs.
  destruct vf as [src sz]. cbn [filepath] in Hsrc.
  run_cases.
  all: unfold attempts; cbn [app List.filter same_kind kind_of length].
  all: repeat split; try reflexivity; try in_list.
  all: try (rewrite Heql; reflexivity).
  all: do 2 apply unlink_console_keeps; in_list.
Qed.

Lemma append_cancel_l (a b c : string) : a +:+ b = a +:+ c → b = c.
Proof. induction a as [|x a IH]; simpl; intros H; [exact H|]. injection H as H. auto. Qed.

Lemma scratch_paths_distinct env : voice_path env ≠ mixed_path env.
Proof.
  unfold voice_path, mixed_path, path_join, scratch_name. cbn [fold_left].
  intros H. apply append_cancel_l in H. discriminate H.
Qed.

(** What of C4 holds on every run.  No exception escapes the handler.  It
    fails to return only when the read stream, once opened, neither ends
    nor fails.  When it returns, an unlink was attempted for each scratch
    path that had been assigned, and a request that did not get as far as
    the read stream was answered with a complete JSON response.  No
    operation other than unlink is started more than once. *)
Lemma settled_runs_clean_up env req disk :
  let s := final env req disk in
  (∀ e, fst (run env req disk) ≠ Throw e) ∧
  (fst (run env req disk) = Unsettled →
     ∃ sent, stream_outcome env = StreamStalls sent ∧
             attempts KCreateReadStream (trace s) = 1) ∧
  (fst (run env req disk) = Ok tt →
     (∀ p, p ∈ scratch_paths s → EvUnlink p ∈ trace s) ∧
     (attempts KCreateReadStream (trace s) = 0 →
        ended (res s) = true ∧ ∃ msg, body (res s) = BodyJson msg)) ∧
  (∀ k, k ≠ KUnlink → attempts k (trace s) ≤ 1).
Proof.
  open_run req env; run_cases.
  all: unfold scratch_paths, attempts; exec; cbn [List.filter app];
       rewrite ?path_join_nonempty; cbn [List.filter app String.eqb negb].
  all: split; [intros ?; discriminate|].
  all: split; [intros Hp; first [discriminate Hp | eexists; split; reflexivity]|].
  all: split;
    [ intros Hret;
      first
        [ discriminate Hret
        | split;
          [ intros p Hp; repeat (apply elem_of_cons in Hp as [->|Hp]; [in_list|]);
            apply elem_of_nil in Hp; destruct Hp
          | cbn [List.filter same_kind kind_of length]; intros Hnone;
            first [ discriminate Hnone | split; [reflexivity | eexists; reflexivity] ] ] ]
    | intros [] Hk; try (exfalso; apply Hk; reflexivity);
      cbn [List.filter same_kind kind_of length]; lia ].
Qed.

(** C4, at an input where the code departs from it.  A valid request
    reaches the processor, the mix [out] is written and its size read, and
    while the mix is piped the client closes the connection: the read
    stream neither ends nor fails, so the promise the handler awaits never
    settles.  The handler does not return; both scratch paths are assigned
    and both files are still on the disk; no unlink was attempted, neither
    the one after the stream nor the one of the [finally] block; the
    response stays open with status 200. *)
Theorem stalled_stream_leaks_scratch_files env req disk out sent :
  reaches_processor env req disk →
  ffmpeg_outcome env = FfmpegEnd out → stat_fault env = None →
  stream_outcome env = StreamStalls sent →
  let s := final env req disk in
  fst (run env req disk) = Unsettled ∧
  scratch_paths s = [voice_path env; mixed_path env] ∧
  attempts KUnlink (trace s) = 0 ∧
  is_Some (fs s !! voice_path env) ∧ fs s !! mixed_path env = Some out ∧
  statusCode (res s) = 200%N ∧ ended (res s) = false.
Proof.
  intros (Hm & vf & key & music & Hn & Hk & Hmus & [bg Hread] & Hmk & Hrn & [narr Hsrc])
         Hff Hst Hso.
  open_run req env; unfold narration, music_choice in Hn, Hk;
    simpl in Hm, Hn, Hk, Hmus, Hmk, Hrn, Hff, Hst, Hso; subst; [done|].
  destruct (MUSIC_FILES_nonempty _ _ _ Hmus) as [Hmne Hkne].
  pose proof (js_get_own _ _ _ Hmus) as Hjs.
  destruct vf as [src sz]. cbn [filepath] in Hsrc.
  pose proof (scratch_paths_distinct (mkEnv cwd0 None nv rv nm rm None (FfmpegEnd out) None
                                            (StreamStalls sent) uf)) as Hdiff.
  unfold voice_path, mixed_path, tempDir in Hdiff.
  cbn [cwd now_voice rand_voice now_mixed rand_mixed] in Hdiff.
  run_cases.
  all: unfold scratch_paths, attempts; exec; cbn [List.filter app];
       rewrite ?path_join_nonempty; cbn [List.filter app String.eqb negb same_kind kind_of length].
  all: split; [reflexivity|]; split; [reflexivity|]; split; [reflexivity|].
  all: split; [rewrite lookup_insert_ne by congruence; rewrite lookup_insert_eq; by eexists|].
  all: split; [apply lookup_insert_eq|]; split; reflexivity.
Qed.

Lemma pretty_N_char_digit x : is_digit (pretty_N_char x) = true.
Proof. unfold pretty_N_char. repeat case_match; reflexivity. Qed.

Lemma pretty_N_go_digits x : ∀ s, all_digits s = true → all_digits (pretty_N_go x s) = true.
Proof.
  induction (N.lt_wf_0 x) as [x _ IH]; intros s Hs.
  assert (x = 0 ∨ 0 < x)%N as [->|Hpos] by lia.
  - by rewrite pretty_N_go_0.
  - rewrite pretty_N_go_step by done. apply IH.
    + by apply N.div_lt.
    + simpl. rewrite pretty_N_char_digit. exact Hs.
Qed.

Lemma pretty_N_digits (x : N) : all_digits (pretty x) = true.
Proof.
  unfold pretty, pretty_N. case_decide; [reflexivity|].
  by apply pretty_N_go_digits.
Qed.

Lemma digits_then_dash a a' x x' :
  all_digits a = true → all_digits a' = true →
  a +:+ "-" +:+ x = a' +:+ "-" +:+ x' → a = a' ∧ x = x'.
Proof.
  revert a'. induction a as [|c a IH]; intros [|c' a'] Ha Ha' H; simpl in *.
  - injection H as Hx. by subst.
  - injection H as <- _. discriminate Ha'.
  - injection H as -> _. discriminate Ha.
  - injection H as -> H.
    apply andb_prop in Ha as [_ Ha]. apply andb_prop in Ha' as [_ Ha'].
    destruct (IH a' Ha Ha' H) as [-> ->]. done.
Qed.

Lemma append_length (a b : string) :
  String.length (a +:+ b) = String.length a + String.length b.
Proof. induction a as [|x a IH]; simpl; [reflexivity|]. by rewrite IH. Qed.

Lemma append_cancel_r (a b c : string) : a +:+ c = b +:+ c → a = b.
Proof.
  revert b. induction a as [|x a IH]; intros [|y b] H.
  - reflexivity.
  - exfalso. apply (f_equal String.length) in H.
    rewrite !append_length in H. simpl in H. lia.
  - exfalso. apply (f_equal String.length) in H.
    rewrite !append_length in H. simpl in H. lia.
  - simpl in H. injection H as -> H. f_equal. by apply IH.
Qed.

Lemma scratch_name_inj prefix now rnd now' rnd' :
  scratch_name prefix now rnd = scratch_name prefix now' rnd' ↔ now = now' ∧ rnd = rnd'.
Proof.
  split; [|by intros [-> ->]].
  unfold scratch_name. intros H.
  apply append_cancel_l, append_cancel_l in H.
  apply digits_then_dash in H as [Hn Hr]; try apply pretty_N_digits.
  split.
  - by apply (inj pretty).
  - by apply append_cancel_r in Hr.
Qed.

(** X8. Scratch names do not collide: with one prefix, two names are equal
    only if both the time stamp and the random token are equal, and the
    narration path and the mix path of one request always differ. *)
Theorem scratch_names_never_collide :
  (∀ prefix now rnd now' rnd',
     scratch_name prefix now rnd = scratch_name prefix now' rnd' ↔ now = now' ∧ rnd = rnd') ∧
  (∀ env, voice_path env ≠ mixed_path env).
Proof.
  split.
  - intros prefix now rnd now' rnd'. apply scratch_name_inj.
  - intros env. apply scratch_paths_distinct.
Qed.

Lemma failure_is_json env req disk :
  statusCode (res (final env req disk)) ≠ 200%N →
  ∃ msg, msg ≠ "" ∧ body (res (final env req disk)) = BodyJson msg ∧
         Tts.status_ok (statusCode (res (final env req disk))) = false.
Proof.
  open_run req env; run_cases.
  all: intros Hs; first [ exfalso; apply Hs; reflexivity | idtac ].
  all: match goal with |- context [BodyJson ?m] => exists m end.
  all: split; [ first [ discriminate | apply String.eqb_neq; eassumption ] | split; reflexivity ].
Qed.

(** X3. When moving the upload to its scratch path fails, the outer [catch]
    answers 500 and the body carries the file system's own error message
    (the generic sentence only when that message is empty); the processor is
    never started, both scratch paths are unlinked, and an upload that is
    not at one of the scratch paths stays where the form parser put it. *)
Theorem rename_failure_reported env req disk vf key music e :
  method req = "POST" → narration req = Some vf → music_choice req = Some key →
  MUSIC_FILES (cwd env) !! key = Some music → is_Some (disk !! music) →
  mkdir_fault env = None → rename_fault env = Some e →
  let s := final env req disk in
  fst (run env req disk) = Ok tt ∧
  statusCode (res s) = 500%N ∧
  body (res s) =
    BodyJson (if String.eqb (err_message e) ""
              then "An unexpected sorrow befell the mixing. Please try again."
              else err_message e) ∧
  trace s = [ EvAccess (VString music); EvMkdir (tempDir env);
              EvRename (filepath vf) (voice_path env);
              EvUnlink (voice_path env); EvUnlink (mixed_path env) ] ∧
  (filepath vf ∉ scratch_paths s → fs s !! filepath vf = disk !! filepath vf).
Proof.
  intros Hm Hn Hk Hmus [track Htrack] Hmk Hrn.
  open_run req env; unfold narration, music_choice in Hn, Hk;
    simpl in Hm, Hn, Hk, Hmus, Hmk, Hrn; subst; [done|].
  destruct (MUSIC_FILES_nonempty _ _ _ Hmus) as [Hmne Hkne].
  pose proof (js_get_own _ _ _ Hmus) as Hjs.
  run_cases.
  all: split; [reflexivity|]; split; [reflexivity|].
  all: split;
    [ cbn [err_message];
      repeat match goal with H : String.eqb _ _ = _ |- _ => rewrite ?H; clear H end;
      reflexivity |].
  all: split; [reflexivity|].
  all: unfold scratch_paths; cbn [voiceFilePath mixedFilePath List.filter].
  all: rewrite !path_join_nonempty; cbn [negb].
  all: intros Hnot; apply not_elem_of_cons in Hnot as [Hv Hnot];
       apply not_elem_of_cons in Hnot as [Hx _].
  all: unfold unlink_fs; rewrite !path_join_nonempty.
  all: repeat match goal with |- context [match ?f with Some _ => _ | None => _ end] =>
         destruct f end.
  all: rewrite ?lookup_delete_ne by congruence; reflexivity.
Qed.

(** X9. The music selector and the table of tracks agree: the keys of
    MUSIC_FILES are exactly the values of musicOptions other than none, and
    the form handleMusicChange posts for such a value is never answered 400
    or 405. *)
Theorem offered_choices_are_served :
  (∀ cwd key, is_Some (MUSIC_FILES cwd !! key) ↔
                key ∈ (Page.musicOptions).*1 ∧ key ≠ "none") ∧
  (∀ choice env upload disk,
     choice ∈ (Page.musicOptions).*1 → choice ≠ "none" →
     let r := res (final env (Page.mix_request upload choice) disk) in
     statusCode r ≠ 400%N ∧ statusCode r ≠ 405%N).
Proof.
  split.
  - intros cwd key. cbn. rewrite !elem_of_cons, elem_of_nil. split.
    + intros [m Hm]. destruct (MUSIC_FILES_keys _ _ _ Hm) as [-> | ->]; split; auto; discriminate.
    + intros [[->|[->|[->|[]]]] Hne]; [done| |]; unfold MUSIC_FILES;
        first [ rewrite lookup_insert_eq
              | rewrite lookup_insert_ne by done; rewrite lookup_insert_eq ];
        eexists; reflexivity.
  - intros choice env upload disk Hin Hne. cbn in Hin.
    rewrite !elem_of_cons, elem_of_nil in Hin.
    destruct Hin as [->|[->|[->|[]]]]; [done| |].
    all: unfold Page.mix_request, post;
         destruct env as [?cwd ?mk ?nv ?rv ?nm ?rm ?rn ?ff ?st ?so ?uf].
    all: match goal with |- context [mkForm _ (Some [?key])] =>
           assert (Hmus : ∃ music, MUSIC_FILES cwd0 !! key = Some music)
             by (eexists; unfold MUSIC_FILES;
                 first [ rewrite lookup_insert_eq
                       | rewrite lookup_insert_ne by done; rewrite lookup_insert_eq ];
                 reflexivity)
         end; destruct Hmus as [music Hmus].
    all: destruct (MUSIC_FILES_nonempty _ _ _ Hmus) as [Hmne _].
    all: pose proof (js_get_own _ _ _ Hmus) as Hjs.
    all: assert (Hu : Some [upload] ≫= head = Some upload) by reflexivity.
    all: match goal with |- context [mkForm _ (Some [?key])] =>
           assert (Hk : Some [key] ≫= head = Some key) by reflexivity
         end.
    all: cbv zeta; run_cases; split; discriminate.
Qed.

Lemma wrong_method_405_witness :
  statusCode (res (final env_ok (mkRequest "GET" (FormParsed (mkForm None None)))
                         (disk_with []))) = 405%N ∧
  trace (final env_ok (mkRequest "GET" (FormParsed (mkForm None None))) (disk_with [])) = [].
Proof.
  unfold final.
  rewrite (wrong_method_405 env_ok (mkRequest "GET" (FormParsed (mkForm None None)))
             (disk_with [])).
  - split; reflexivity.
  - simpl. discriminate.
Defined.

Lemma missing_track_500_witness :
  let s := final env_ok (post (Some [upload_of 3]) (Some ["orchestral"]))
                 (disk_with [Byte.x49; Byte.x44; Byte.x33]) in
  statusCode (res s) = 500%N ∧ fs s = disk_with [Byte.x49; Byte.x44; Byte.x33].
Proof.
  destruct (missing_track_500 env_ok (post (Some [upload_of 3]) (Some ["orchestral"]))
              (disk_with [Byte.x49; Byte.x44; Byte.x33]) (upload_of 3) "orchestral"
              "/app/public/audio/orchestral_background.mp3")
    as (_ & Hstatus & _ & _ & Hfs & _).
  - reflexivity.
  - reflexivity.
  - reflexivity.
  - vm_compute. reflexivity.
  - vm_compute. reflexivity.
  - split; assumption.
Defined.

Lemma rename_failure_reported_witness :
  let s := final env_rename_fails (post (Some [upload_of 3]) (Some ["ambient"]))
                 (disk_with [Byte.x49; Byte.x44; Byte.x33]) in
  statusCode (res s) = 500%N ∧
  body (res s) = BodyJson "EXDEV: cross-device link not permitted".
Proof.
  destruct (rename_failure_reported env_rename_fails
              (post (Some [upload_of 3]) (Some ["ambient"]))
              (disk_with [Byte.x49; Byte.x44; Byte.x33]) (upload_of 3) "ambient" ambient_track
              (mkError (Some "EXDEV") "EXDEV: cross-device link not permitted"))
    as (_ & Hstatus & Hbody & _).
  - reflexivity.
  - reflexivity.
  - reflexivity.
  - vm_compute. reflexivity.
  - eexists. vm_compute. reflexivity.
  - reflexivity.
  - reflexivity.
  - split; assumption.
Defined.

Lemma no_scratch_left_behind_witness :
  let s := final env_ok (post (Some [upload_of 3]) (Some ["ambient"]))
                 (disk_with [Byte.x49; Byte.x44; Byte.x33]) in
  fs s !! voice_path env_ok = None ∧ fs s !! mixed_path env_ok = None ∧
  fs s !! "/tmp/upload_1" = None.
Proof.
  destruct (no_scratch_left_behind env_ok (post (Some [upload_of 3]) (Some ["ambient"]))
              (disk_with [Byte.x49; Byte.x44; Byte.x33])) as [Hscratch Hupload].
  - intros site. reflexivity.
  - vm_compute. reflexivity.
  - split; [|split].
    + apply Hscratch. vm_compute. in_list.
    + apply Hscratch. vm_compute. in_list.
    + apply (Hupload (upload_of 3)).
      * reflexivity.
      * vm_compute. reflexivity.
      * reflexivity.
Defined.

Lemma stalled_stream_leaks_scratch_files_witness :
  let s := final env_client_leaves (post (Some [upload_of 3]) (Some ["ambient"]))
                 (disk_with [Byte.x49; Byte.x44; Byte.x33]) in
  fst (run env_client_leaves (post (Some [upload_of 3]) (Some ["ambient"]))
           (disk_with [Byte.x49; Byte.x44; Byte.x33])) = Unsettled ∧
  attempts KUnlink (trace s) = 0 ∧
  fs s !! mixed_path env_client_leaves = Some [Byte.x49; Byte.x44; Byte.x33].
Proof.
  destruct (stalled_stream_leaks_scratch_files env_client_leaves
              (post (Some [upload_of 3]) (Some ["ambient"]))
              (disk_with [Byte.x49; Byte.x44; Byte.x33]) [Byte.x49; Byte.x44; Byte.x33] 2)
    as (Hrun & _ & Hnone & _ & Hleft & _).
  - split; [reflexivity|].
    exists (upload_of 3), "ambient", ambient_track.
    split; [reflexivity|]. split; [reflexivity|].
    split; [vm_compute; reflexivity|].
    split; [eexists; vm_compute; reflexivity|].
    split; [reflexivity|]. split; [reflexivity|].
    eexists. vm_compute. reflexivity.
  - reflexivity.
  - reflexivity.
  - reflexivity.
  - split; [exact Hrun|]. split; [exact Hnone | exact Hleft].
Defined.

Lemma stream_error_keeps_200_witness :
  let r := res (final env_stream_breaks (post (Some [upload_of 3]) (Some ["ambient"]))
                      (disk_with [Byte.x49; Byte.x44; Byte.x33])) in
  statusCode r = 200%N ∧ body r = BodyStream [Byte.x49; Byte.x44] ∧ ended r = false.
Proof.
  destruct (stream_error_keeps_200 env_stream_breaks
              (post (Some [upload_of 3]) (Some ["ambient"]))
              (disk_with [Byte.x49; Byte.x44; Byte.x33]) 2
              (mkError (Some "ECONNRESET") "socket hang up")
              [Byte.x49; Byte.x44; Byte.x33])
    as (_ & Hstatus & _ & Hbody & Hended & _).
  - split; [reflexivity|].
    exists (upload_of 3), "ambient", ambient_track.
    split; [reflexivity|]. split; [reflexivity|].
    split; [vm_compute; reflexivity|].
    split; [eexists; vm_compute; reflexivity|].
    split; [reflexivity|]. split; [reflexivity|].
    eexists. vm_compute. reflexivity.
  - reflexivity.
  - reflexivity.
  - reflexivity.
  - split; [exact Hstatus|]. split; [exact Hbody | exact Hended].
Defined.

End MixMore.

(* ===================================================================== *)
(** ** Further properties of the playback code *)
(* ===================================================================== *)

Module PlayerMore.
Import Player PlayerFacts.

Lemma trim_start_nil s : trim_start s = [] ↔ blank s.
Proof.
  unfold blank. induction s as [|c s IH]; simpl.
  - split; [constructor | reflexivity].
  - destruct (is_js_whitespace c) eqn:E.
    + rewrite IH. split; [by constructor | by inversion 1].
    + split; [discriminate | inversion 1; congruence].
Qed.

Lemma trim_start_blank_iff s : blank (trim_start s) ↔ blank s.
Proof.
  unfold blank. induction s as [|c s IH]; simpl; [reflexivity|].
  destruct (is_js_whitespace c) eqn:E; [|reflexivity].
  rewrite IH. split; [by constructor | by inversion 1].
Qed.

Lemma blank_rev s : blank (rev s) ↔ blank s.
Proof. unfold blank. rewrite !List.Forall_forall. by setoid_rewrite <- List.in_rev. Qed.

Lemma trim_nil s : trim s = [] ↔ blank s.
Proof.
  unfold trim.
  transitivity (trim_start (rev (trim_start s)) = []).
  - split; intros H; [|by rewrite H].
    apply (f_equal (@rev N)) in H. by rewrite rev_involutive in H.
  - rewrite trim_start_nil, blank_rev. apply trim_start_blank_iff.
Qed.

Lemma nonempty_js_false (s : jsstring) : nonempty_js s = false ↔ s = [].
Proof. destruct s; simpl; split; congruence. Qed.

Lemma split_newline_cons s : ∃ p ps, split_newline s = p :: ps.
Proof.
  induction s as [|c s (p & ps & IH)]; simpl; [eauto|].
  destruct (c =? 10)%N; [eauto|]. rewrite IH. eauto.
Qed.

Lemma split_newline_blank s : Forall blank (split_newline s) ↔ blank s.
Proof.
  unfold blank. induction s as [|c s IH]; simpl.
  - split; [constructor | repeat constructor].
  - destruct (N.eqb_spec c 10) as [->|Hc].
    + split.
      * inversion 1; subst. constructor; [reflexivity | by apply IH].
      * inversion 1; subst. constructor; [constructor | by apply IH].
    + destruct (split_newline_cons s) as (p & ps & E). rewrite E in *.
      split.
      * inversion 1 as [|?? Hp Hps]; subst. inversion Hp; subst.
        constructor; [done|]. apply IH. by constructor.
      * inversion 1 as [|?? Hc' Hs]; subst. apply IH in Hs. inversion Hs; subst.
        constructor; [by constructor | done].
Qed.

(** X14. The list of lines of a poem is empty exactly when the poem consists
    of white space only (the empty poem included). *)
Theorem poem_lines_empty_iff poem : poem_lines poem = [] ↔ blank poem.
Proof.
  rewrite <- split_newline_blank. unfold poem_lines.
  induction (split_newline poem) as [|p ps IH]; simpl.
  - split; [constructor | reflexivity].
  - destruct (nonempty_js (trim p)) eqn:E.
    + split; [discriminate|]. inversion 1 as [|?? Hp _]; subst.
      apply trim_nil in Hp. rewrite Hp in E. discriminate E.
    + apply nonempty_js_false, trim_nil in E. rewrite IH.
      split; [by constructor | by inversion 1].
Qed.

Lemma split_newline_no_feed s : Forall (fun p => (10%N ∉ p)) (split_newline s).
Proof.
  induction s as [|c s IH]; simpl.
  - repeat constructor. by intros ?%elem_of_nil.
  - destruct (N.eqb_spec c 10) as [->|Hc].
    + constructor; [by intros ?%elem_of_nil | done].
    + destruct (split_newline_cons s) as (p & ps & E). rewrite E in *.
      inversion IH; subst. constructor; [|done].
      intros Hin. apply elem_of_cons in Hin as [?|?]; congruence.
Qed.

Lemma split_newline_total s :
  totalChars (split_newline s) + length (split_newline s) = S (length s).
Proof.
  induction s as [|c s IH]; simpl; [reflexivity|].
  destruct (c =? 10)%N.
  - rewrite totalChars_cons. simpl. lia.
  - destruct (split_newline_cons s) as (p & ps & E). rewrite E in *.
    rewrite totalChars_cons in *. simpl in *. lia.
Qed.

Lemma totalChars_filter f (ls : list jsstring) :
  totalChars (List.filter f ls) ≤ totalChars ls.
Proof.
  induction ls as [|l ls IH]; simpl; [lia|].
  destruct (f l); rewrite ?totalChars_cons; lia.
Qed.

(** X15. No line kept by the split contains a line feed or is blank, and the
    lines together have at most as many characters as the poem. *)
Theorem poem_lines_within_poem poem :
  Forall (fun line => (10%N ∉ line) ∧ ¬ blank line) (poem_lines poem) ∧
  totalChars (poem_lines poem) ≤ length poem.
Proof.
  split.
  - apply List.Forall_forall. intros line Hin. unfold poem_lines in Hin.
    apply List.filter_In in Hin as [Hin Hkeep]. split.
    + pose proof (split_newline_no_feed poem) as H.
      rewrite List.Forall_forall in H. by apply H.
    + intros Hb. apply trim_nil in Hb. rewrite Hb in Hkeep. discriminate.
  - unfold poem_lines.
    pose proof (totalChars_filter (fun line => nonempty_js (trim line)) (split_newline poem)).
    pose proof (split_newline_total poem).
    destruct (split_newline_cons poem) as (p & ps & E). rewrite E in *. simpl in *. lia.
Qed.


Lemma stopAudio_silent w : silent (stopAudio w).
Proof.
  destruct w as [h ac src ltr clk tms eq nt ns]. destruct h.
  unfold silent, stopAudio, clearLineTimers. destruct src, ltr; wexec; repeat split.
Qed.

(** X16. [stopAudio] is idempotent, and after it the page is silent: no
    source, [isPlaying] and the mixed-audio flag off, no highlighted line,
    and [lineTimerRef] cleared. *)
Theorem stopAudio_idempotent w :
  stopAudio (stopAudio w) = stopAudio w ∧ silent (stopAudio w) ∧ lineTimerRef (stopAudio w) = None.
Proof.
  split; [|split; [apply stopAudio_silent | apply stopAudio_fields]].
  destruct w as [h ac src ltr clk tms eq nt ns]. destruct h.
  unfold stopAudio, clearLineTimers. destruct src, ltr; wexec; reflexivity.
Qed.

Lemma fire_silent p w : silent w → silent (fire p w).
Proof.
  destruct w as [h ac src ltr clk tms eq nt ns]. destruct h.
  unfold silent. cbn. intros (-> & -> & -> & ->).
  destruct p as [t|s d]; unfold fire; wexec; repeat split.
Qed.

Lemma set_clock_silent t w : silent w → silent (set_clock t w).
Proof. destruct w. unfold silent. cbn. done. Qed.

Lemma advance_fuel_silent fuel t w : silent w → silent (advance_fuel fuel t w).
Proof.
  revert w. induction fuel as [|fuel IH]; intros w Hw; simpl.
  - by apply set_clock_silent.
  - destruct (earliest (pending w)) as [p|]; [|by apply set_clock_silent].
    destruct (Qle_bool (due_time p) t); [|by apply set_clock_silent].
    apply IH. by apply fire_silent.
Qed.

(** X17. After a stop, nothing that is still pending (a timer of the stopped
    playback, an [ended] event) brings playback state back: however time
    advances, the page stays silent as long as nothing is played. *)
Theorem silent_after_stop w (ts : list Q) :
  silent (fold_left (fun w t => advance t w) ts (stopAudio w)).
Proof.
  assert (H : ∀ w, silent w → silent (fold_left (fun w t => advance t w) ts w)).
  { induction ts as [|t ts IH]; intros w0 Hw; simpl; [exact Hw|].
    apply IH. unfold advance. by apply advance_fuel_silent. }
  apply H, stopAudio_silent.
Qed.

Lemma fire_frame p w :
  without_playback (hooks (fire p w)) = without_playback (hooks w) ∧
  audioContext (fire p w) = audioContext w.
Proof.
  destruct w as [h ac src ltr clk tms eq nt ns]. destruct h.
  destruct p as [t|s d]; unfold fire; wexec; [destruct src|]; split; reflexivity.
Qed.

Lemma advance_fuel_frame fuel t w :
  without_playback (hooks (advance_fuel fuel t w)) = without_playback (hooks w) ∧
  audioContext (advance_fuel fuel t w) = audioContext w.
Proof.
  revert w. induction fuel as [|fuel IH]; intros w; simpl.
  - by destruct w.
  - destruct (earliest (pending w)) as [p|]; [|by destruct w].
    destruct (Qle_bool (due_time p) t); [|by destruct w].
    destruct (IH (fire p w)) as [-> ->]. apply fire_frame.
Qed.

Lemma await_frame t w :
  without_playback (hooks (await t w)) = without_playback (hooks w) ∧
  audioContext (await t w) = audioContext w.
Proof.
  unfold await, advance. destruct (Qle_bool t (clock w)); [done|]. apply advance_fuel_frame.
Qed.

Lemma playAudio_hooks lines b w :
  audioContext w = true →
  fst (playAudio lines (Some b) w) = Done ∧
  without_playback (hooks (snd (playAudio lines (Some b) w))) = without_playback (hooks w) ∧
  isPlaying (hooks (snd (playAudio lines (Some b) w))) = true ∧
  isMixedAudioPlaying (hooks (snd (playAudio lines (Some b) w))) = false ∧
  audioSourceRef (snd (playAudio lines (Some b) w)) = Some (next_source w).
Proof.
  intros Hctx. destruct w as [h ac src ltr clk tms eq nt ns]. destruct h.
  simpl in Hctx. subst ac.
  destruct lines as [|l ls], src, ltr; wexec; rewrite ?schedule_lines_spec; wexec;
    repeat split.
Qed.



(** X21. With both speech-only buffers at hand, switching back to 'none'
    does not depend on the network; it restores the speech-only audio for
    playback and download and clears the mixed buffers. *)
Theorem switch_to_none_is_local snap net net' w d r :
  speechOnlyDecodedBuffer snap = Some d → speechOnlyRawMp3Buffer snap = Some r →
  handleMusicChange snap "none" net w = handleMusicChange snap "none" net' w ∧
  (nonempty_js (generatedPoem snap) = true → audioContext w = true →
   musicChoice snap ≠ "none" →
   let h := hooks (handleMusicChange snap "none" net w) in
   musicChoice h = "none" ∧
   currentPlaybackAudioBuffer h = Some d ∧ currentDownloadMp3Buffer h = Some r ∧
   mixedDecodedBuffer h = None ∧ mixedRawMp3Buffer h = None ∧
   isMixedAudioPlaying h = false ∧ isMixing h = false).
Proof.
  intros Hd Hr. split.
  - unfold handleMusicChange, mix_try. cbn [String.eqb Ascii.eqb Bool.eqb].
    rewrite Hd, Hr. reflexivity.
  - intros Hpoem Hctx Hchoice.
    unfold handleMusicChange. rewrite Hpoem, Hctx. cbn [negb].
    destruct (String.eqb_spec (musicChoice snap) "none") as [E|_]; [done|].
    unfold mix_try, mix_catch. cbn [String.eqb Ascii.eqb Bool.eqb]. rewrite Hd, Hr.
    clear Hpoem Hchoice Hd Hr.
    destruct (currentPlaybackAudioBuffer snap) as [cur|], (poemLines snap) as [|l ls];
      destruct w as [h ac src ltr clk tms eq nt ns]; destruct h; simpl in Hctx; subst ac;
      destruct src, ltr; wexec; rewrite ?schedule_lines_spec; wexec; repeat split.
Qed.








Lemma durations_nonneg D lines :
  (0 <= D)%Q → Forall (fun d => (0 <= d)%Q) (lineDurations D lines).
Proof.
  intros HD. unfold lineDurations. apply List.Forall_forall. intros d Hd.
  apply List.in_map_iff in Hd as (line & <- & _).
  apply Qmult_le_0_compat; [exact HD|].
  unfold Qdiv. apply Qmult_le_0_compat; [apply of_nat_nonneg|].
  apply Qinv_le_0_compat, of_nat_nonneg.
Qed.




(** X19. A music change that one of the three guards rejects changes at most
    the error message: playback, timers, buffers and music choice are
    untouched and the network is not used; a repeated choice changes nothing
    at all, a missing poem or audio context leaves a non-empty message. *)
Theorem rejected_change_keeps_playback snap newMusicChoice net w :
  nonempty_js (generatedPoem snap) = false ∨ audioContext w = false ∨
  musicChoice snap = newMusicChoice →
  let w' := handleMusicChange snap newMusicChoice net w in
  w' = setErrorMessage (errorMessage (hooks w')) w ∧
  (nonempty_js (generatedPoem snap) = true → audioContext w = true → w' = w) ∧
  (nonempty_js (generatedPoem snap) = false ∨ audioContext w = false →
   errorMessage (hooks w') ≠ "").
Proof.
  intros Hguard. cbv zeta. unfold handleMusicChange.
  destruct w as [h ac src ltr clk tms eq nt ns]. destruct h. cbn [audioContext] in *.
  destruct (nonempty_js (generatedPoem snap)); cbn [negb].
  - destruct ac; cbn [negb].
    + destruct Hguard as [?|[?|Hsame]]; try discriminate.
      apply String.eqb_eq in Hsame. rewrite Hsame.
      split; [reflexivity|]. split; [reflexivity|]. intros [?|?]; discriminate.
    + split; [reflexivity|]. split; [discriminate|]. intros _. discriminate.
  - split; [reflexivity|]. split; [discriminate|]. intros _. discriminate.
Qed.


Lemma rejected_change_keeps_playback_witness :
  handleMusicChange ready_hooks "none" online ready = ready.
Proof.
  destruct (rejected_change_keeps_playback ready_hooks "none" online ready) as (_ & Hsame & _).
  - right. right. reflexivity.
  - apply Hsame; reflexivity.
Defined.


Lemma switch_to_none_is_local_witness :
  handleMusicChange ready_hooks "none" online ready =
  handleMusicChange ready_hooks "none" offline ready.
Proof.
  destruct (switch_to_none_is_local ready_hooks online offline ready four_seconds speech_mp3)
    as [Hsame _].
  - reflexivity.
  - reflexivity.
  - exact Hsame.
Defined.

End PlayerMore.

(* ===================================================================== *)
(** ** The schedule of [playAudio] in double precision *)
(* ===================================================================== *)

Module DoublesFacts.
Import Player PlayerFacts Doubles.
Local Open Scope Q_scope.

Lemma rne_near q : q - (1 # 2) <= inject_Z (rne q) <= q + (1 # 2).
Proof.
  unfold rne. pose proof (Qfloor_le q) as Hlo. pose proof (Qlt_floor q) as Hhi.
  rewrite inject_Z_plus in Hhi. change (inject_Z 1) with 1 in Hhi.
  set (f := Qfloor q) in *.
  destruct (Qcompare_spec (q - inject_Z f) (1 # 2)) as [E|L|G].
  - destruct (Z.even f); [|rewrite inject_Z_plus; change (inject_Z 1) with 1]; lra.
  - lra.
  - rewrite inject_Z_plus. change (inject_Z 1) with 1. lra.
Qed.

Lemma two_nonzero : ¬ 2 == 0.
Proof. discriminate. Qed.

Lemma pow2_pos k : 0 < 2 ^ k.
Proof. by apply Qpower_0_lt. Qed.

Lemma pow2_succ k : 2 ^ (k + 1) == 2 * 2 ^ k.
Proof. rewrite Qpower_plus by apply two_nonzero. change (2 ^ 1) with 2. ring. Qed.

Lemma pow2_mono a b : (a <= b)%Z → 2 ^ a <= 2 ^ b.
Proof. intros H. by apply Qpower_le_compat_l. Qed.

Lemma log2_Q (n : Z) : (0 < n)%Z →
  2 ^ Z.log2 n <= inject_Z n ∧ inject_Z n < 2 ^ (Z.log2 n + 1).
Proof.
  intros Hn. destruct (Z.log2_spec n Hn) as [Hlo Hhi].
  pose proof (Z.log2_nonneg n) as Hnn.
  split.
  - change 2 with (inject_Z 2). rewrite <- Zpower_Qpower by exact Hnn.
    by rewrite <- Zle_Qle.
  - change 2 with (inject_Z 2). rewrite <- Zpower_Qpower by lia.
    rewrite <- Zlt_Qlt. replace (Z.log2 n + 1)%Z with (Z.succ (Z.log2 n)) by lia. exact Hhi.
Qed.

Lemma ilog2_spec x : 0 < x → 2 ^ ilog2 x <= x ∧ x < 2 ^ (ilog2 x + 1).
Proof.
  intros Hx. unfold ilog2.
  destruct x as [n d]. cbn [Qnum Qden].
  assert (Hn : (0 < n)%Z) by (unfold Qlt in Hx; simpl in Hx; lia).
  destruct (log2_Q n Hn) as [Hnlo Hnhi].
  destruct (log2_Q (Zpos d) eq_refl) as [Hdlo Hdhi].
  set (a := Z.log2 n) in *. set (b := Z.log2 (Zpos d)) in *.
  assert (Hx' : n # d == inject_Z n / inject_Z (Zpos d)) by apply Qmake_Qdiv.
  assert (Hd0 : 0 < inject_Z (Zpos d)) by reflexivity.
  assert (Hab : 2 ^ (a - b) * 2 ^ b == 2 ^ a).
  { rewrite <- Qpower_plus by apply two_nonzero. by replace (a - b + b)%Z with a by lia. }
  pose proof (pow2_pos (a - b)) as Hp. pose proof (pow2_pos b) as Hpb.
  pose proof (pow2_succ a) as Hsa. pose proof (pow2_succ b) as Hsb.
  pose proof (pow2_succ (a - b)) as Hsab.
  assert (Hupper : n # d < 2 ^ (a - b + 1)).
  { rewrite Hx'. apply Qlt_shift_div_r; [exact Hd0|].
    rewrite Hsab. nra. }
  destruct (Qle_bool (2 ^ (a - b)) (n # d)) eqn:Hle.
  - apply Qle_bool_iff in Hle. split; [exact Hle | exact Hupper].
  - assert (Hlt : n # d < 2 ^ (a - b)).
    { apply Qnot_le_lt. intros H. apply Qle_bool_iff in H. congruence. }
    replace (a - b - 1 + 1)%Z with (a - b)%Z by lia. split; [|exact Hlt].
    assert (Hhalf : 2 * 2 ^ (a - b - 1) == 2 ^ (a - b)).
    { rewrite <- pow2_succ. by replace (a - b - 1 + 1)%Z with (a - b)%Z by lia. }
    pose proof (pow2_pos (a - b - 1)) as Hq.
    rewrite Hx'. apply Qle_shift_div_l; [exact Hd0|]. nra.
Qed.

Lemma round64_pos_rel x :
  2 ^ (-1022) <= x →
  x * (1 - unit_roundoff) <= round64_pos x <= x * (1 + unit_roundoff).
Proof.
  intros Hnormal.
  assert (Hx : 0 < x) by (eapply Qlt_le_trans; [apply (pow2_pos (-1022)) | exact Hnormal]).
  destruct (ilog2_spec x Hx) as [Hlo Hhi].
  unfold round64_pos. rewrite Qred_correct.
  assert (Hk : (-1022 <= ilog2 x)%Z).
  { destruct (Z.le_gt_cases (-1022) (ilog2 x)) as [H|H]; [exact H|].
    exfalso. assert (2 ^ (ilog2 x + 1) <= 2 ^ (-1022)) by (apply pow2_mono; lia).
    apply (Qlt_irrefl x). eapply Qlt_le_trans; [exact Hhi|]. by eapply Qle_trans. }
  rewrite Z.max_l by lia.
  set (e := (ilog2 x - 52)%Z) in *.
  pose proof (pow2_pos e) as He.
  assert (Hscale : 2 ^ ilog2 x == 2 ^ e * 2 ^ 52).
  { rewrite <- Qpower_plus by apply two_nonzero. by replace (e + 52)%Z with (ilog2 x) by (unfold e; lia). }
  pose proof (rne_near (x / 2 ^ e)) as [Hm1 Hm2].
  set (m := inject_Z (rne (x / 2 ^ e))) in *.
  assert (Hy : x / 2 ^ e * 2 ^ e == x) by (field; intros E; rewrite E in He; by apply Qlt_irrefl in He).
  set (y := x / 2 ^ e) in *.
  change (2 ^ 52) with (4503599627370496 # 1) in Hscale.
  unfold unit_roundoff. change (1 # 2 ^ 53) with (1 # 9007199254740992).
  split; nra.
Qed.

Lemma round64_zero x : x == 0 → round64 x = 0.
Proof.
  intros E. unfold round64. destruct x as [n d]. unfold Qeq in E. simpl in E.
  assert (n = 0%Z) by lia. subst n. reflexivity.
Qed.

Lemma round64_pos_floor x : 2 ^ (-1022) <= x → 2 ^ (-1022) <= round64_pos x.
Proof.
  intros Hnormal.
  assert (Hx : 0 < x) by (eapply Qlt_le_trans; [apply (pow2_pos (-1022)) | exact Hnormal]).
  destruct (ilog2_spec x Hx) as [Hlo Hhi].
  unfold round64_pos. rewrite Qred_correct.
  assert (Hk : (-1022 <= ilog2 x)%Z).
  { destruct (Z.le_gt_cases (-1022) (ilog2 x)) as [H|H]; [exact H|].
    exfalso. assert (2 ^ (ilog2 x + 1) <= 2 ^ (-1022)) by (apply pow2_mono; lia).
    apply (Qlt_irrefl x). eapply Qlt_le_trans; [exact Hhi|]. by eapply Qle_trans. }
  rewrite Z.max_l by lia.
  set (e := (ilog2 x - 52)%Z) in *.
  pose proof (pow2_pos e) as He.
  assert (Hscale : 2 ^ ilog2 x == 2 ^ e * 2 ^ 52).
  { rewrite <- Qpower_plus by apply two_nonzero. by replace (e + 52)%Z with (ilog2 x) by (unfold e; lia). }
  assert (Hy : inject_Z (2 ^ 52) <= x / 2 ^ e).
  { apply Qle_shift_div_l; [exact He|]. change (inject_Z (2 ^ 52)) with (2 ^ 52).
    rewrite Qmult_comm, <- Hscale. exact Hlo. }
  assert (Hm : inject_Z (2 ^ 52) <= inject_Z (rne (x / 2 ^ e))).
  { rewrite <- Zle_Qle. apply Z.le_trans with (Qfloor (x / 2 ^ e)).
    - rewrite <- (Qfloor_Z (2 ^ 52)). apply Qfloor_resp_le. exact Hy.
    - unfold rne. destruct (_ ?= _); [destruct (Z.even _)| |]; lia. }
  apply Qle_trans with (2 ^ ilog2 x); [apply pow2_mono; exact Hk|].
  rewrite Hscale, (Qmult_comm (2 ^ e)). apply Qmult_le_compat_r; [|by apply Qlt_le_weak].
  exact Hm.
Qed.

Lemma round64_rel x :
  2 ^ (-1022) <= x →
  2 ^ (-1022) <= round64 x ∧
  x * (1 - unit_roundoff) <= round64 x <= x * (1 + unit_roundoff).
Proof.
  intros Hnormal.
  assert (Hx : 0 < x) by (eapply Qlt_le_trans; [apply (pow2_pos (-1022)) | exact Hnormal]).
  assert (E : round64 x = round64_pos x).
  { unfold round64. destruct x as [[|n|n] d]; try reflexivity; by exfalso. }
  rewrite E. split; [by apply round64_pos_floor | by apply round64_pos_rel].
Qed.

Lemma up_ge m : 1 <= (1 + unit_roundoff) ^ Z.of_nat m.
Proof.
  change 1 with ((1 + unit_roundoff) ^ 0) at 1.
  apply Qpower_le_compat_l; [lia | discriminate].
Qed.

Lemma up_succ m :
  (1 + unit_roundoff) ^ Z.of_nat (S m) == (1 + unit_roundoff) ^ Z.of_nat m * (1 + unit_roundoff).
Proof.
  rewrite Nat2Z.inj_succ. unfold Z.succ. rewrite Qpower_plus by discriminate. reflexivity.
Qed.

Lemma up_mono m k :
  m ≤ k → (1 + unit_roundoff) ^ Z.of_nat m <= (1 + unit_roundoff) ^ Z.of_nat k.
Proof. intros H. apply Qpower_le_compat_l; [lia | discriminate]. Qed.

Lemma down_succ m :
  (1 - unit_roundoff) ^ Z.of_nat (S m) == (1 - unit_roundoff) ^ Z.of_nat m * (1 - unit_roundoff).
Proof.
  rewrite Nat2Z.inj_succ. unfold Z.succ. rewrite Qpower_plus by discriminate. reflexivity.
Qed.

Lemma down_pos m : 0 < (1 - unit_roundoff) ^ Z.of_nat m.
Proof. by apply Qpower_0_lt. Qed.

Lemma down_mono m k :
  m ≤ k → (1 - unit_roundoff) ^ Z.of_nat k <= (1 - unit_roundoff) ^ Z.of_nat m.
Proof.
  induction 1 as [|k Hle IH]; [apply Qle_refl|].
  rewrite down_succ. pose proof (down_pos k) as Hk.
  apply Qle_trans with ((1 - unit_roundoff) ^ Z.of_nat k); [|exact IH].
  set (p := (1 - unit_roundoff) ^ Z.of_nat k) in *.
  unfold unit_roundoff. change (1 # 2 ^ 53) with (1 # 9007199254740992). nra.
Qed.

Lemma tracks_eq m x y approx : x == y → tracks m x approx → tracks m y approx.
Proof.
  intros E (Hx & H). split; [by rewrite <- E|].
  destruct H as [[Ha Hz]|[Hn [Hlo Hhi]]].
  - left. split; [exact Ha | by rewrite <- E].
  - right. split; [exact Hn|]. split; by rewrite <- E.
Qed.

Lemma tracks_within m x approx : tracks m x approx → within m x approx.
Proof.
  intros (Hx & [[Ha Hz]|[_ H]]); [|exact H].
  split; rewrite Ha, Hz, Qmult_0_l; apply Qle_refl.
Qed.

Lemma interval_step T t acc s r L U l2 u2 a b :
  0 <= T → 0 <= t → 0 <= a → 0 <= b → L <= l2 → u2 <= U →
  T * L <= acc → acc <= T * U → t * l2 <= s → s <= t * u2 →
  (acc + s) * a <= r → r <= (acc + s) * b →
  (T + t) * (L * a) <= r ∧ r <= (T + t) * (U * b).
Proof.
  intros HT Ht Ha Hb HL HU H1 H2 H3 H4 H5 H6.
  assert (HtL : t * L <= t * l2) by (rewrite !(Qmult_comm t); by apply Qmult_le_compat_r).
  assert (HtU : t * u2 <= t * U) by (rewrite !(Qmult_comm t); by apply Qmult_le_compat_r).
  assert (Hlow : (T + t) * L <= acc + s) by lra.
  assert (Hupp : acc + s <= (T + t) * U) by lra.
  split.
  - apply Qle_trans with ((acc + s) * a); [|exact H5].
    rewrite Qmult_assoc. by apply Qmult_le_compat_r.
  - apply Qle_trans with ((acc + s) * b); [exact H6|].
    rewrite Qmult_assoc. by apply Qmult_le_compat_r.
Qed.

Lemma roundoff_range : 0 <= 1 - unit_roundoff ∧ 0 <= 1 + unit_roundoff.
Proof. split; discriminate. Qed.

Lemma tracks_step m T acc t s :
  2 ≤ m → tracks m T acc → tracks 2 t s →
  tracks (S m) (T + t) (round64 (acc + s)).
Proof.
  intros Hm (HT & Hacc) (Ht & Hs).
  destruct roundoff_range as [Ha Hb].
  split; [lra|].
  destruct Hacc as [[Ea ET]|[Na [Alo Ahi]]], Hs as [[Es Et]|[Ns [Slo Shi]]].
  - left. split; [|lra]. rewrite round64_zero; [reflexivity | lra].
  - right. assert (Hn : 2 ^ (-1022) <= acc + s) by lra.
    destruct (round64_rel _ Hn) as (Hfloor & Hlo & Hhi). split; [exact Hfloor|].
    unfold within. rewrite up_succ, down_succ.
    apply (interval_step T t acc s _ _ _ ((1 - unit_roundoff) ^ Z.of_nat 2)
             ((1 + unit_roundoff) ^ Z.of_nat 2)); try assumption.
    + by apply down_mono.
    + by apply up_mono.
    + rewrite ET, Ea, Qmult_0_l. apply Qle_refl.
    + rewrite ET, Ea, Qmult_0_l. apply Qle_refl.
  - right. assert (Hn : 2 ^ (-1022) <= acc + s) by lra.
    destruct (round64_rel _ Hn) as (Hfloor & Hlo & Hhi). split; [exact Hfloor|].
    unfold within. rewrite up_succ, down_succ.
    apply (interval_step T t acc s _ _ _ ((1 - unit_roundoff) ^ Z.of_nat 2)
             ((1 + unit_roundoff) ^ Z.of_nat 2)); try assumption.
    + by apply down_mono.
    + by apply up_mono.
    + rewrite Et, Es, Qmult_0_l. apply Qle_refl.
    + rewrite Et, Es, Qmult_0_l. apply Qle_refl.
  - right. pose proof (pow2_pos (-1022)) as Hp.
    assert (Hn : 2 ^ (-1022) <= acc + s) by lra.
    destruct (round64_rel _ Hn) as (Hfloor & Hlo & Hhi). split; [exact Hfloor|].
    unfold within. rewrite up_succ, down_succ.
    apply (interval_step T t acc s _ _ _ ((1 - unit_roundoff) ^ Z.of_nat 2)
             ((1 + unit_roundoff) ^ Z.of_nat 2)); try assumption.
    + by apply down_mono.
    + by apply up_mono.
Qed.

Lemma tracks_fold ss ts :
  Forall2 (fun s t => tracks 2 t s) ss ts →
  ∀ m T acc, 2 ≤ m → tracks m T acc →
  tracks (m + length ss) (fold_left Qplus ts T) (fold_left (add binary64) ss acc).
Proof.
  induction 1 as [|s t ss ts Hst Hrest IH]; intros m T acc Hm Hacc.
  - simpl. by rewrite Nat.add_0_r.
  - cbn [fold_left length]. replace (m + S (length ss))%nat with (S m + length ss)%nat by lia.
    apply IH; [lia|]. by apply tracks_step.
Qed.

Lemma share_tracks D C len :
  2 ^ (-900) <= D → (0 < C)%nat → (Z.of_nat C < 2 ^ 53)%Z →
  tracks 2 (D * (of_nat len / of_nat C))
           (mul binary64 D (div binary64 (of_nat len) (of_nat C))).
Proof.
  intros HD HC Hbig. cbn [mul div binary64].
  assert (HD0 : 0 < D) by (eapply Qlt_le_trans; [apply (pow2_pos (-900)) | exact HD]).
  assert (HCq : 0 < of_nat C) by by apply of_nat_pos.
  assert (HCle : of_nat C <= inject_Z (2 ^ 53)).
  { unfold of_nat. rewrite <- Zle_Qle. lia. }
  destruct len as [|len'].
  - assert (Hq : of_nat 0 / of_nat C == 0) by (unfold Qdiv; apply Qmult_0_l).
    rewrite (round64_zero _ Hq).
    assert (Hs : D * 0 == 0) by apply Qmult_0_r.
    rewrite (round64_zero _ Hs).
    split; [rewrite Hq, Hs; apply Qle_refl|].
    left. split; [reflexivity | by rewrite Hq].
  - set (len := S len').
    assert (Hlen : 1 <= of_nat len).
    { unfold of_nat, len. change 1 with (inject_Z 1). rewrite <- Zle_Qle. lia. }
    set (q := of_nat len / of_nat C).
    assert (Hq : 2 ^ (-53) <= q).
    { apply Qle_shift_div_l; [exact HCq|].
      apply Qle_trans with (2 ^ (-53) * inject_Z (2 ^ 53));
        [|apply Qle_trans with 1; [discriminate | exact Hlen]].
      rewrite !(Qmult_comm (2 ^ (-53))). apply Qmult_le_compat_r; [exact HCle | discriminate]. }
    assert (Hq0 : 0 < q) by (eapply Qlt_le_trans; [apply (pow2_pos (-53)) | exact Hq]).
    assert (Hqn : 2 ^ (-1022) <= q).
    { apply Qle_trans with (2 ^ (-53)); [by apply pow2_mono | exact Hq]. }
    destruct (round64_rel q Hqn) as (Hq'n & Hq'lo & Hq'hi).
    set (q' := round64 q) in *.
    assert (Hq'54 : 2 ^ (-54) <= q').
    { apply Qle_trans with (q * (1 - unit_roundoff)); [|exact Hq'lo].
      change (2 ^ (-54)) with (2 ^ (-53) * (1 # 2)).
      apply Qmult_le_compat_nonneg; split; try discriminate. exact Hq. }
    assert (Hprod : 2 ^ (-1022) <= D * q').
    { apply Qle_trans with (2 ^ (-900) * 2 ^ (-54)).
      - rewrite <- Qpower_plus by apply two_nonzero. by apply pow2_mono.
      - apply Qmult_le_compat_nonneg; split; try assumption;
          apply Qlt_le_weak, pow2_pos. }
    destruct (round64_rel (D * q') Hprod) as (Hsn & Hslo & Hshi).
    split; [apply Qmult_le_0_compat; by apply Qlt_le_weak|].
    right. split; [exact Hsn|].
    unfold within. change (Z.of_nat 2) with 2%Z.
    destruct roundoff_range as [Ha Hb].
    assert (HDle : 0 <= D) by by apply Qlt_le_weak.
    split.
    + apply Qle_trans with (D * q' * (1 - unit_roundoff)); [|exact Hslo].
      assert (E : D * q * (1 - unit_roundoff) ^ 2
                  == D * (q * (1 - unit_roundoff)) * (1 - unit_roundoff)) by (simpl; ring).
      rewrite E.
      apply Qmult_le_compat_r; [|exact Ha].
      rewrite !(Qmult_comm D). by apply Qmult_le_compat_r.
    + apply Qle_trans with (D * q' * (1 + unit_roundoff)); [exact Hshi|].
      assert (E : D * q * (1 + unit_roundoff) ^ 2
                  == D * (q * (1 + unit_roundoff)) * (1 + unit_roundoff)) by (simpl; ring).
      rewrite E.
      apply Qmult_le_compat_r; [|exact Hb].
      rewrite !(Qmult_comm D). by apply Qmult_le_compat_r.
Qed.

Lemma shares_track D C (ls : list jsstring) :
  2 ^ (-900) <= D → (0 < C)%nat → (Z.of_nat C < 2 ^ 53)%Z →
  Forall2 (fun s t => tracks 2 t s)
    (map (fun line => mul binary64 D (div binary64 (of_nat (length line)) (of_nat C))) ls)
    (map (fun line => D * (of_nat (length line) / of_nat C)) ls).
Proof.
  intros HD HC Hbig. induction ls as [|l ls IH]; simpl; constructor.
  - by apply share_tracks.
  - exact IH.
Qed.

Lemma tracks_nothing m : tracks m 0 0.
Proof. split; [apply Qle_refl|]. left. split; reflexivity. Qed.

Lemma elapsed_tracks D lines i :
  2 ^ (-900) <= D → (0 < totalChars lines)%nat → (Z.of_nat (totalChars lines) < 2 ^ 53)%Z →
  (i ≤ length lines)%nat →
  tracks (i + 2) (D * (of_nat (totalChars (take i lines)) / of_nat (totalChars lines)))
    (elapsed_before_in binary64 i (lineDurations_in binary64 D lines)).
Proof.
  intros HD HC Hbig Hi. unfold elapsed_before_in, lineDurations_in.
  rewrite firstn_map.
  assert (Hc : ¬ of_nat (totalChars lines) == 0).
  { intros E. apply of_nat_pos in HC. rewrite E in HC. by apply Qlt_irrefl in HC. }
  apply (tracks_eq _ (fold_left Qplus
            (map (fun line => D * (of_nat (length line) / of_nat (totalChars lines)))
                 (take i lines)) 0)).
  - rewrite sum_scaled by exact Hc. apply Qplus_0_l.
  - pose proof (tracks_fold _ _ (shares_track D (totalChars lines) (take i lines) HD HC Hbig)
                  2 0 0 (le_n 2) (tracks_nothing 2)) as H.
    rewrite length_map, length_take, Nat.min_l in H by exact Hi.
    by replace (i + 2)%nat with (2 + i)%nat by lia.
Qed.

Lemma schedule_lines_in_spec A durs : ∀ i c h ac src ltr clk tms eq nt ns,
  schedule_lines_in A durs i c (mkWorld h ac src ltr clk tms eq nt ns) =
  mkWorld h ac src
    (match durs with [] => ltr | _ :: _ => Some (nt + length durs - 1)%nat end)
    clk
    (tms ++ imap (fun k _ =>
               mkTimer (nt + k) (clk + mul A (fold_left (add A) (take k durs) c) 1000)%Q
                       (Z.of_nat (i + k))) durs)
    eq (nt + length durs)%nat ns.
Proof.
  induction durs as [|d rest IH]; intros i c h ac src ltr clk tms eq nt ns.
  - simpl. rewrite app_nil_r, Nat.add_0_r. reflexivity.
  - cbn [schedule_lines_in]. unfold setTimeout, set_next_timer, set_timers, set_lineTimerRef.
    cbn [next_timer timers clock hooks audioContext audioSourceRef lineTimerRef
         ended_queue next_source].
    rewrite IH. f_equal.
    + destruct rest; simpl; f_equal; lia.
    + rewrite <- app_assoc. f_equal. cbn [imap app take fold_left].
      rewrite !Nat.add_0_r. f_equal.
      apply imap_ext. intros k x _. simpl. f_equal; [lia | f_equal; lia].
    + simpl. lia.
Qed.

Lemma schedule_lines_in_exact durs : ∀ i c w,
  schedule_lines_in exact durs i c w = schedule_lines durs i c w.
Proof.
  induction durs as [|d rest IH]; intros i c w; [reflexivity|].
  cbn [schedule_lines_in schedule_lines mul add exact].
  destruct (setTimeout (c * 1000) (Z.of_nat i) w) as [id w1]. apply IH.
Qed.

(** In the arithmetic of the rationals [playAudio_in] is [playAudio]. *)
Lemma playAudio_in_exact lines buffer w :
  playAudio_in exact lines buffer w = playAudio lines buffer w.
Proof.
  unfold playAudio_in, playAudio.
  destruct (negb (audioContext w)); [reflexivity|].
  destruct lines as [|l ls]; [reflexivity|].
  destruct buffer as [b|]; [|reflexivity].
  cbv zeta. rewrite schedule_lines_in_exact. reflexivity.
Qed.

(** C7. With an initialised audio context, a non-empty list of lines of
    total character count C, 0 < C < 2^53, and a buffer of duration D
    between 2^-900 and 2^1000, [playAudio] computes in double precision:
    line i is allotted the double nearest to D times (the double nearest
    to its length over C); the running sum of the allotted durations
    before line i is the real value D * (characters before line i) / C up
    to i + 2 roundings, so the total is D up to n + 2 roundings for n
    lines; after the timers [stopAudio] left pending it appends one timer
    per line, line i with the delay (the double nearest to the running sum
    times 1000) and highlighting i, then a last timer with the delay (the
    double nearest to D times 1000) that resets the highlight to -1;
    [lineTimerRef] holds that last timer. *)
Theorem playAudio_schedule lines buf w :
  audioContext w = true → lines ≠ [] →
  (0 < totalChars lines)%nat → (Z.of_nat (totalChars lines) < 2 ^ 53)%Z →
  2 ^ (-900) <= duration buf → duration buf <= 2 ^ 1000 →
  let D := duration buf in
  let C := of_nat (totalChars lines) in
  let durs := lineDurations_in binary64 D lines in
  let w' := snd (playAudio_in binary64 lines (Some buf) w) in
  fst (playAudio_in binary64 lines (Some buf) w) = Done ∧
  (∀ i line, lines !! i = Some line →
     durs !! i = Some (round64 (D * round64 (of_nat (length line) / C)))) ∧
  (∀ i, (i ≤ length lines)%nat →
     within (i + 2) (D * (of_nat (totalChars (take i lines)) / C))
            (elapsed_before_in binary64 i durs)) ∧
  within (length lines + 2) D (fold_left (add binary64) durs 0) ∧
  ∃ scheduled,
    timers w' = timers (stopAudio w) ++ scheduled ∧
    length scheduled = S (length lines) ∧
    (∀ i, (i < length lines)%nat →
       scheduled !! i =
         Some (mkTimer (next_timer w + i)
                       (clock w + round64 (elapsed_before_in binary64 i durs * 1000))
                       (Z.of_nat i))) ∧
    scheduled !! length lines =
      Some (mkTimer (next_timer w + length lines) (clock w + round64 (D * 1000)) (-1)) ∧
    lineTimerRef w' = Some (next_timer w + length lines)%nat.
Proof.
  intros Hctx Hne Hpos Hbig Hlow Hhigh D C durs w'.
  assert (Hlen : length durs = length lines) by (unfold durs, lineDurations_in; apply length_map).
  assert (Hc : ¬ C == 0).
  { intros E. apply of_nat_pos in Hpos. fold C in Hpos. rewrite E in Hpos.
    by apply Qlt_irrefl in Hpos. }
  destruct (stopAudio_fields w) as (Hltr & Hclk & Hnt & Hac & _).
  subst w'. unfold playAudio_in. rewrite Hctx. cbn [negb].
  fold D.
  destruct (stopAudio w) as [h ac src ltr clk tms eq nt ns] eqn:Hstop.
  simpl in Hltr, Hclk, Hnt, Hac. subst ltr clk nt ac.
  destruct lines as [|l0 ls]; [done|].
  wexec. fold D. fold durs. rewrite schedule_lines_in_spec. wexec.
  split; [reflexivity|]. split; [|split; [|split]].
  - intros i line Hi. unfold durs, lineDurations_in.
    apply (lookup_map_Some
             (fun line => mul binary64 D (div binary64 (of_nat (length line)) _))).
    exact Hi.
  - intros i Hi. apply tracks_within. by apply elapsed_tracks.
  - apply tracks_within.
    pose proof (elapsed_tracks D (l0 :: ls) (length (l0 :: ls)) Hlow Hpos Hbig (le_n _)) as H.
    unfold elapsed_before_in in H. fold durs in H.
    assert (Hd : take (length (l0 :: ls)) durs = durs) by (apply firstn_all2; rewrite Hlen; lia).
    assert (Hl : take (length (l0 :: ls)) (l0 :: ls) = l0 :: ls) by apply firstn_all.
    rewrite Hd, Hl in H. fold C in H.
    apply (tracks_eq _ (D * (C / C))); [field; exact Hc | exact H].
  - eexists. split; [rewrite <- app_assoc; reflexivity|].
    rewrite length_app, length_imap, Hlen. split; [simpl; lia|]. split; [|split].
    + intros i Hi. rewrite lookup_app_l by (rewrite length_imap; lia).
      rewrite list_lookup_imap.
      destruct (durs !! i) as [d|] eqn:Hd.
      * reflexivity.
      * apply lookup_ge_None in Hd. lia.
    + rewrite lookup_app_r by (rewrite length_imap; lia).
      rewrite length_imap, Hlen, Nat.sub_diag. reflexivity.
    + reflexivity.
Qed.

(** C7, at an input where the code departs from the claim as stated.  Ten
    lines of one character each are played over a narration of one second:
    each line is allotted the double nearest to one tenth, which is not one
    tenth; the running sum ends at 1 - 2^-53, not at 1 (nor do the allotted
    values sum to 1 as real numbers); and line 8 is scheduled with a delay
    of 800 - 2^-43 ms, not 800 ms. *)
Lemma ten_lines_miss_the_duration :
  let D := duration one_second in
  let durs := lineDurations_in binary64 D ten_lines in
  let w' := snd (playAudio_in binary64 ten_lines (Some one_second) ready) in
  totalChars ten_lines = 10%nat ∧
  Forall (fun d => d = 3602879701896397 # 36028797018963968 ∧ ¬ d == D * (1 / 10)) durs ∧
  fold_left (add binary64) durs 0 = 9007199254740991 # 9007199254740992 ∧
  ¬ fold_left (add binary64) durs 0 == D ∧
  ¬ fold_left Qplus durs 0 == D ∧
  timers w' !! 8%nat = Some (mkTimer 9 (7036874417766399 # 8796093022208) 8) ∧
  ¬ 7036874417766399 # 8796093022208 == clock ready + 800.
Proof.
  cbv zeta. split; [reflexivity|]. split.
  - vm_compute. repeat constructor; intros H; discriminate H.
  - repeat split; try (vm_compute; reflexivity); vm_compute; intros H; discriminate H.
Qed.

Lemma playAudio_schedule_witness :
  within 4 4 (fold_left (add binary64) (lineDurations_in binary64 4 two_lines) 0) ∧
  lineTimerRef (snd (playAudio_in binary64 two_lines (Some four_seconds) ready)) = Some 3%nat.
Proof.
  destruct (playAudio_schedule two_lines four_seconds ready)
    as (_ & _ & _ & Hsum & scheduled & _ & _ & _ & _ & Href).
  - reflexivity.
  - discriminate.
  - vm_compute. lia.
  - vm_compute. reflexivity.
  - vm_compute. discriminate.
  - vm_compute. discriminate.
  - split; [exact Hsum | exact Href].
Defined.

End DoublesFacts.

(* ===================================================================== *)
(** ** Properties of the speech endpoint and its client *)
(* ===================================================================== *)

Module VoiceFacts.
Import Player Voice.

Ltac vexec :=
  cbv beta iota zeta delta
    [ handler init_state fresh_response with_res res_status res_setHeader res_json res_send
      speech_create console_error res calls console statusCode headers ended payload
      method body negb fst snd app ].

(** X10. The speech handler calls the synthesis exactly when the method is
    POST and the body has a truthy [text], and then once, with model
    gpt-4o-mini-tts, voice alloy, format mp3 and the request's text as
    input. *)
Theorem speech_requested_iff tts req :
  let s := snd (handler tts req) in
  (calls s ≠ [] ↔
     method req = "POST" ∧ ∃ text, body req = Some text ∧ field_truthy text = true) ∧
  (∀ r, r ∈ calls s →
     calls s = [r] ∧ model r = "gpt-4o-mini-tts" ∧ voice r = "alloy" ∧
     response_format r = "mp3" ∧ body req = Some (input r)).
Proof.
  destruct req as [m [text|]]; cbv zeta; unfold handler; cbn [method body];
    destruct (String.eqb m "POST") eqn:Hm; cbn [negb].
  - apply String.eqb_eq in Hm as ->.
    destruct (field_truthy text) eqn:Ht; cbn [negb].
    + destruct tts; vexec.
      all: split; [split; [intros _; split; [reflexivity|by exists text] | discriminate]|].
      all: intros r Hr; apply list_elem_of_singleton in Hr as ->; by repeat split.
    + vexec. split.
      * split; [done|]. intros [_ (t & Heq & Ht')]. simplify_eq. congruence.
      * intros r Hr. by apply elem_of_nil in Hr.
  - apply String.eqb_neq in Hm. vexec. split.
    + split; [done|]. by intros [? _].
    + intros r Hr. by apply elem_of_nil in Hr.
  - vexec. split.
    + split; [done|]. by intros [_ (t & ? & _)].
    + intros r Hr. by apply elem_of_nil in Hr.
  - vexec. split.
    + split; [done|]. by intros [_ (t & ? & _)].
    + intros r Hr. by apply elem_of_nil in Hr.
Qed.

(** X11. The speech handler's promise is rejected exactly when a POST has no
    body (destructuring [req.body] throws before anything is written);
    otherwise the response is ended and is one of: 405 for another method,
    400 for a falsy text, 200 with the synthesised bytes as audio/mpeg, 500
    with the message 'Failed to generate speech: ' followed by the error of
    the synthesis. *)
Theorem voice_answers tts req :
  let c := fst (handler tts req) in
  let r := res (snd (handler tts req)) in
  (c ≠ Returned ↔ method req = "POST" ∧ body req = None) ∧
  (c ≠ Returned → r = fresh_response) ∧
  (c = Returned →
     ended r = true ∧
     (statusCode r = 405%N ∧ method req ≠ "POST" ∧ payload r = JsonError "Method Not Allowed" ∨
      statusCode r = 400%N ∧ method req = "POST" ∧ payload r = JsonError "Poem text is required." ∨
      (∃ mp3, statusCode r = 200%N ∧ tts = TtsOk mp3 ∧ payload r = Buffer mp3 ∧
              headers r !! "Content-Type" = Some "audio/mpeg") ∨
      (∃ m, statusCode r = 500%N ∧ tts = TtsFails m ∧
            payload r = JsonError ("Failed to generate speech: " +:+ m)))).
Proof.
  destruct req as [m [text|]]; cbv zeta; unfold handler; cbn [method body];
    destruct (String.eqb m "POST") eqn:Hm; cbn [negb].
  - apply String.eqb_eq in Hm as ->.
    destruct (field_truthy text) eqn:Ht; cbn [negb].
    + destruct tts as [mp3|msg]; vexec.
      * split; [split; [done | by intros [_ ?]]|]. split; [done|]. intros _. split; [done|].
        right; right; left. exists mp3. by repeat split.
      * split; [split; [done | by intros [_ ?]]|]. split; [done|]. intros _. split; [done|].
        right; right; right. exists msg. by repeat split.
    + vexec. split; [split; [done | by intros [_ ?]]|]. split; [done|]. intros _.
      split; [done|]. right; left. by repeat split.
  - apply String.eqb_neq in Hm. vexec.
    split; [split; [done | by intros [? _]]|]. split; [done|]. intros _.
    split; [done|]. left. by repeat split.
  - apply String.eqb_eq in Hm as ->. vexec.
    split; [split; [by intros _ | discriminate]|]. split; [done|]. discriminate.
  - apply String.eqb_neq in Hm. vexec.
    split; [split; [done | by intros [? _]]|]. split; [done|]. intros _.
    split; [done|]. left. by repeat split.
Qed.

End VoiceFacts.

Module TtsFacts.
Import Player Tts.

(** X12. [generateSpeech] never resolves to null, although its type allows
    it: it resolves to the bytes of the response exactly when the request
    was answered with an ok status, and every failure rejects with one fixed
    sentence, whatever the cause. *)
Theorem generateSpeech_never_null fetch text :
  let r := fst (generateSpeech fetch text) in
  r ≠ SpeechNull ∧
  (∀ m, r = SpeechRejects m → m = muse_silent) ∧
  (∀ mp3, r = SpeechOk mp3 ↔
     ∃ status json, fetch (Voice.speech_request text) = FetchResponds true status json mp3).
Proof.
  cbv zeta. unfold generateSpeech.
  destruct (fetch (Voice.speech_request text)) as [m|[] status json payload]; cbn [negb fst].
  - split; [done|]. split; [by intros ? [= <-]|]. intros mp3.
    split; [done | by intros (? & ? & ?)].
  - split; [done|]. split; [done|]. intros mp3. split.
    + intros [= <-]. by exists status, json.
    + by intros (? & ? & [= _ _ <-]).
  - split; [done|]. split; [by intros ? [= <-]|]. intros mp3.
    split; [done | by intros (? & ? & ?)].
Qed.

(** X13. [generateSpeech] against the speech handler: for a non-empty text
    the result is the synthesised audio when the synthesis succeeds; when it
    fails, or the text is empty, the call rejects with the fixed sentence
    and the handler's own message reaches only the console. *)
Theorem speech_round_trip tts text fetch :
  answers tts (Voice.speech_request text) (fetch (Voice.speech_request text)) →
  generateSpeech fetch text =
    if nonempty_js text then
      match tts with
      | Voice.TtsOk mp3 => (SpeechOk mp3, [])
      | Voice.TtsFails m => (SpeechRejects muse_silent, ["Failed to generate speech: " +:+ m])
      end
    else (SpeechRejects muse_silent, ["Poem text is required."]).
Proof.
  unfold generateSpeech.
  generalize (fetch (Voice.speech_request text)). intros fo Hfo.
  destruct Hfo as [s error bytes Hrun Hpay | s bytes json Hrun Hpay];
    unfold Voice.handler, Voice.speech_request in Hrun; cbn in Hrun;
    destruct text as [|c text]; cbn in Hrun.
  all: try destruct tts as [mp3|m]; injection Hrun as <-; cbn in Hpay; try discriminate.
  all: try (injection Hpay as <-); cbn; reflexivity.
Qed.

Lemma speech_round_trip_witness :
  generateSpeech (fun _ => FetchResponds true 200 JsonUnreadable speech_mp3) two_line_poem =
    (SpeechOk speech_mp3, []).
Proof.
  apply (speech_round_trip (Voice.TtsOk speech_mp3) two_line_poem
           (fun _ => FetchResponds true 200 JsonUnreadable speech_mp3)).
  exact (answers_audio (Voice.TtsOk speech_mp3) (Voice.speech_request two_line_poem)
           (snd (Voice.handler (Voice.TtsOk speech_mp3) (Voice.speech_request two_line_poem)))
           speech_mp3 JsonUnreadable eq_refl eq_refl).
Defined.

End TtsFacts.

(* ===================================================================== *)
(** ** Properties of the page *)
(* ===================================================================== *)

Module PageFacts.
Import Player PlayerFacts PlayerMore Page.

Ltac pexec :=
  cbv beta iota zeta delta
    [ generate_prelude generate_try handleGeneratePoem handlePlayPause handleStop
      setGeneratedPoem world isLoading resume resumed_at poem net ];
  wexec.

Lemma resumed_frame (gen : Generation) w :
  (∀ message, resume gen ≠ Some (Some message)) →
  ∃ w0,
    (if audioContext w then
       match resume gen with
       | Some r =>
           match r with
           | Some message => (Thrown message, await (resumed_at gen) w)
           | None => (Done, await (resumed_at gen) w)
           end
       | None => (Done, w)
       end
     else (Done, w)) = (Done, w0) ∧
    without_playback (hooks w0) = without_playback (hooks w) ∧
    audioContext w0 = audioContext w.
Proof.
  intros Hres. destruct (audioContext w) eqn:Hctx; [|by exists w].
  destruct (resume gen) as [[m|]|].
  - by destruct (Hres m).
  - exists (await (resumed_at gen) w). split; [reflexivity|].
    rewrite <- Hctx. apply await_frame.
  - by exists w.
Qed.

Lemma generation_success_hooks snap poemInput gen a text mp3 b :
  nonempty_js (trim poemInput) = true →
  (∀ message, resume gen ≠ Some (Some message)) →
  audioContext (world a) = true →
  poem gen = PoemText (Some text) → nonempty_js text = true →
  speech (net gen) = SpeechOk mp3 → decoded (net gen) = DecodeOk b →
  ∃ w,
    handleGeneratePoem snap poemInput gen a = (Done, mkApp w false) ∧
    without_playback (hooks w) =
      mkHooks text (poem_lines (generatedPoem snap)) 0 (Some b) (Some mp3) None None
              (Some b) (Some mp3) false "" "none" (isMixing (hooks (world a))) "" false ∧
    isPlaying (hooks w) = true ∧
    (poemLines snap = [] → currentLineIndex (hooks w) = (-1)%Z ∧ lineTimerRef w = None).
Proof.
  intros Hinput Hres Hctx Hpoem Htext Hspeech Hdec.
  destruct text as [|c text]; [discriminate|]. clear Htext.
  unfold handleGeneratePoem. rewrite Hinput. cbn [negb].
  destruct (resumed_frame gen (world a) Hres) as (w0 & -> & Hh0 & Hc0).
  rewrite Hctx in Hc0. clear Hres Hctx Hinput.
  unfold generate_try. rewrite Hpoem, Hspeech, Hdec.
  set (w1 := await (settled_at (net gen)) (generate_prelude w0)).
  assert (Hw1 : without_playback (hooks w1) = without_playback (hooks (generate_prelude w0)) ∧
                audioContext w1 = audioContext (generate_prelude w0)) by apply await_frame.
  destruct Hw1 as [Hh1 Hc1].
  assert (Hc1' : audioContext w1 = true).
  { rewrite Hc1. destruct w0 as [h ac src ltr clk tms eq nt ns].
    destruct src, ltr; exact Hc0. }
  set (w2 := setLoadingMessage "Whispering the words into existence..."
               (setGeneratedPoem (c :: text) w1)).
  assert (Hc2 : audioContext w2 = true) by (subst w2; destruct w1; exact Hc1').
  rewrite Hc2. cbn [negb].
  set (w3 := setLoadingMessage "Poem and voice ready!"
               (setAudioAndSyncData (generatedPoem snap) b mp3 SpeechOnly w2)).
  assert (Hc3 : audioContext w3 = true) by (subst w3 w2; destruct w1; exact Hc1').
  destruct (playAudio_hooks (poemLines snap) b w3 Hc3) as (Hdone & Hh & Hplay & Hglow & Hsrc).
  assert (Hlines : poemLines snap = [] →
            currentLineIndex (hooks (snd (playAudio (poemLines snap) (Some b) w3))) = (-1)%Z ∧
            lineTimerRef (snd (playAudio (poemLines snap) (Some b) w3)) = None).
  { intros ->. clear Hh Hplay Hglow Hsrc Hdone.
    destruct w3 as [h3 ac3 src3 ltr3 ? ? ? ? ?]. simpl in Hc3. subst ac3.
    destruct h3, src3, ltr3; wexec; split; reflexivity. }
  destruct (playAudio (poemLines snap) (Some b) w3) as [r w4].
  cbn [fst snd] in Hdone, Hh, Hplay, Hglow, Hsrc, Hlines. subst r.
  assert (Hh3 : without_playback (hooks w3) =
                mkHooks (c :: text) (poem_lines (generatedPoem snap)) 0 (Some b) (Some mp3)
                  None None (Some b) (Some mp3) false "" "none"
                  (isMixing (hooks (world a))) "Poem and voice ready!" false).
  { subst w3 w2. clear Hc1 Hc1' Hc2 Hc3 Hh Hplay Hglow Hsrc Hlines.
    destruct w1 as [h1 ? ? ? ? ? ? ? ?]. destruct h1.
    destruct w0 as [h0 ac0 src0 ltr0 ? ? ? ? ?]. destruct h0.
    destruct a as [[ha ? ? ? ? ? ? ? ?] ld]. destruct ha.
    destruct src0, ltr0; cbv in Hh0; cbv in Hh1; injection Hh0; injection Hh1; intros; subst;
      reflexivity. }
  rewrite Hh3 in Hh. clear Hh3 Hh1 Hh0.
  exists (setLoadingMessage "" w4). split; [reflexivity|].
  destruct w4 as [h4 ? ? ? ? ? ? ? ?]. destruct h4.
  cbn in Hplay, Hglow, Hsrc, Hlines.
  injection Hh; intros; subst. pexec.
  split; [reflexivity|]. split; [reflexivity|]. exact Hlines.
Qed.


Lemma await_silent t w : silent w → silent (await t w).
Proof.
  intros Hw. unfold await, advance. destruct (Qle_bool t (clock w)); [exact Hw|].
  by apply advance_fuel_silent.
Qed.

Lemma generate_prelude_state w :
  silent (generate_prelude w) ∧
  audioContext (generate_prelude w) = audioContext w ∧
  without_playback (hooks (generate_prelude w)) =
    mkHooks [] [] 0 None None None None None None false "" "none" (isMixing (hooks w))
            "Summoning poetic verse..." false.
Proof.
  destruct w as [h ac src ltr clk tms eq nt ns]. destruct h.
  destruct src, ltr; repeat split.
Qed.

(** X23. When a step of the generation fails, the error is shown and no
    audio is left: all six buffers are null, [poemLines] is empty, the
    choice is none, loading is over and nothing plays, so the audio of the
    previous poem is gone too; the poem text is empty or the newly generated
    one. *)
Theorem failed_generation_discards_audio snap poemInput gen a message :
  nonempty_js (trim poemInput) = true →
  (∀ m, resume gen ≠ Some (Some m)) →
  generation_failure gen (audioContext (world a)) = Some message →
  let r := handleGeneratePoem snap poemInput gen a in
  let h := hooks (world (snd r)) in
  fst r = Done ∧ errorMessage h = message ∧
  poemLines h = [] ∧
  currentPlaybackAudioBuffer h = None ∧ currentDownloadMp3Buffer h = None ∧
  speechOnlyDecodedBuffer h = None ∧ speechOnlyRawMp3Buffer h = None ∧
  mixedDecodedBuffer h = None ∧ mixedRawMp3Buffer h = None ∧
  musicChoice h = "none" ∧ loadingMessage h = "" ∧ isLoading (snd r) = false ∧
  silent (world (snd r)) ∧
  (generatedPoem h = [] ∨ poem gen = PoemText (Some (generatedPoem h))).
Proof.
  intros Hinput Hres Hfail.
  cbv zeta. unfold handleGeneratePoem. rewrite Hinput. cbn [negb].
  destruct (resumed_frame gen (world a) Hres) as (w0 & -> & _ & Hc0).
  rewrite <- Hc0 in Hfail. clear Hres Hinput Hc0.
  destruct (generate_prelude_state w0) as (Hs & Hc & Hh).
  unfold generate_try.
  set (w1 := await (settled_at (net gen)) (generate_prelude w0)).
  assert (Hs1 : silent w1) by by apply await_silent.
  assert (Hw1 : without_playback (hooks w1) = without_playback (hooks (generate_prelude w0)) ∧
                audioContext w1 = audioContext (generate_prelude w0)) by apply await_frame.
  destruct Hw1 as [Hh1 Hc1]. rewrite Hh in Hh1. rewrite Hc in Hc1.
  clearbody w1. clear Hs Hc Hh.
  destruct (audioContext w0) eqn:Hac0.
  all: destruct w1 as [h1 ac1 src1 ltr1 ? ? ? ? ?]; destruct h1.
  all: destruct Hs1 as (Hsrc & Hplay & Hidx & Hglow); cbn in Hsrc, Hplay, Hidx, Hglow, Hc1.
  all: cbv in Hh1; injection Hh1; intros; subst.
  all: unfold generation_failure in Hfail.
  all: destruct (poem gen) as [m|[[|c text]|]] eqn:Hpoem.
  - injection Hfail as <-. pexec. unfold silent. cbn. repeat split; left; reflexivity.
  - injection Hfail as <-. pexec. unfold silent. cbn. repeat split; left; reflexivity.
  - destruct (speech (net gen)) as [m| |mp3].
    + injection Hfail as <-. pexec. unfold silent. cbn. repeat split; right; reflexivity.
    + injection Hfail as <-. pexec. unfold silent. cbn. repeat split; right; reflexivity.
    + destruct (decoded (net gen)) as [m|b]; [|discriminate].
      injection Hfail as <-. pexec. unfold silent. cbn. repeat split; right; reflexivity.
  - injection Hfail as <-. pexec. unfold silent. cbn. repeat split; left; reflexivity.
  - injection Hfail as <-. pexec. unfold silent. cbn. repeat split; left; reflexivity.
  - injection Hfail as <-. pexec. unfold silent. cbn. repeat split; left; reflexivity.
  - destruct (speech (net gen)) as [m| |mp3].
    + injection Hfail as <-. pexec. unfold silent. cbn. repeat split; right; reflexivity.
    + injection Hfail as <-. pexec. unfold silent. cbn. repeat split; right; reflexivity.
    + injection Hfail as <-. pexec. unfold silent. cbn. repeat split; right; reflexivity.
  - injection Hfail as <-. pexec. unfold silent. cbn. repeat split; left; reflexivity.
Qed.

(** X24. With audio present, Play/Pause flips [isPlaying]. Pausing is
    stopping (the state [handleStop] leaves, silent); playing starts a new
    source from the beginning, which ends a full duration later. *)
Theorem play_pause_toggles snap w b :
  currentPlaybackAudioBuffer snap = Some b → audioContext w = true →
  let r := handlePlayPause snap w in
  fst r = Done ∧
  isPlaying (hooks (snd r)) = negb (isPlaying snap) ∧
  (isPlaying snap = true → snd r = handleStop w ∧ silent (snd r)) ∧
  (isPlaying snap = false →
     ∃ source, audioSourceRef (snd r) = Some source ∧
               (source, clock w + duration b * 1000)%Q ∈ ended_queue (snd r)).
Proof.
  intros Hbuf Hctx. cbv zeta. unfold handlePlayPause. rewrite Hbuf.
  destruct (isPlaying snap); cbn [negb fst snd].
  - split; [reflexivity|]. split; [apply stopAudio_silent|].
    split; [|discriminate]. intros _. split; [reflexivity | apply stopAudio_silent].
  - destruct (playAudio_hooks (poemLines snap) b w Hctx) as (Hdone & _ & Hplay & _ & Hsrc).
    split; [exact Hdone|]. split; [exact Hplay|]. split; [discriminate|]. intros _.
    exists (next_source w). split; [exact Hsrc|].
    clear Hdone Hplay Hsrc Hbuf.
    destruct w as [h ac src ltr clk tms eq nt ns]. destruct h. simpl in Hctx. subst ac.
    destruct (poemLines snap) as [|l ls], src, ltr; wexec; rewrite ?schedule_lines_spec; wexec;
      apply elem_of_app; right; apply list_elem_of_here.
Qed.

Lemma content_never_empty_aux index spokenPoemText d :
  contentToShow [] index spokenPoemText (display_effect [] index d) = placeholder.
Proof.
  unfold contentToShow, display_effect. cbn [length Nat.ltb Nat.leb andb].
  destruct (Z.leb_spec 0 index), (Z.ltb_spec index (Z.of_nat 0)); cbn [andb];
    first [ simpl in *; lia | reflexivity ].
Qed.

(** X25. [PoemDisplay] never renders an empty text; with no lines and no
    displayed line it renders the placeholder, whatever the poem text. *)
Theorem content_never_empty lines index spokenPoemText d :
  contentToShow lines index spokenPoemText d ≠ [] ∧
  (lines = [] → displayedLine d = [] →
     contentToShow lines index spokenPoemText d = placeholder).
Proof.
  unfold contentToShow. split.
  - destruct ((0 <? length lines)%nat && (index =? -1)%Z) eqn:Hc; cbn [andb].
    + destruct (nonempty_js (trim spokenPoemText)) eqn:Ht.
      * intros ->. discriminate Ht.
      * destruct (displayedLine d); done.
    + destruct (displayedLine d); done.
  - intros -> ->. reflexivity.
Qed.

(** X26. When the index points at a line of the poem, then once the fade-out
    timer has run the displayed line and the rendered content are that line.
    *)
Theorem highlighted_line_is_shown poemText spokenPoemText i line d :
  poem_lines poemText !! i = Some line →
  let lines := poem_lines poemText in
  let d' := fade_out_done (display_effect lines (Z.of_nat i) d) in
  displayedLine d' = line ∧ isFadingOut d' = false ∧
  contentToShow lines (Z.of_nat i) spokenPoemText d' = line.
Proof.
  intros Hi lines d'. subst lines d'.
  assert (Hlt : i < length (poem_lines poemText)) by (eapply lookup_lt_Some; exact Hi).
  assert (Hlen : 1 ≤ length line).
  { pose proof (poem_lines_lengths poemText) as Hall.
    rewrite Forall_lookup in Hall. exact (Hall i line Hi). }
  unfold display_effect.
  replace ((0 <=? Z.of_nat i)%Z && (Z.of_nat i <? Z.of_nat (length (poem_lines poemText)))%Z)
    with true
    by (symmetry; apply andb_true_intro; split; [apply Z.leb_le | apply Z.ltb_lt]; lia).
  rewrite Nat2Z.id, Hi. cbn [fade_out_done fadeOutTimer].
  split; [reflexivity|]. split; [reflexivity|].
  unfold contentToShow. cbn [displayedLine].
  replace (Z.of_nat i =? -1)%Z with false by (symmetry; apply Z.eqb_neq; lia).
  rewrite andb_false_r. cbn [andb].
  destruct line; [simpl in Hlen; lia | reflexivity].
Qed.

(** X27. On a page that shows no poem, a successful generation stores and
    plays the poem while [poemLines] stays empty, so [PoemDisplay] renders
    the placeholder instead of the poem, whatever the line index. *)
Theorem first_poem_shows_placeholder snap poemInput gen a text mp3 b d :
  generatedPoem snap = [] →
  nonempty_js (trim poemInput) = true →
  (∀ message, resume gen ≠ Some (Some message)) →
  audioContext (world a) = true →
  poem gen = PoemText (Some text) → nonempty_js text = true →
  speech (net gen) = SpeechOk mp3 → decoded (net gen) = DecodeOk b →
  let h := hooks (world (snd (handleGeneratePoem snap poemInput gen a))) in
  generatedPoem h = text ∧ isPlaying h = true ∧ poemLines h = [] ∧
  ∀ index,
    contentToShow (poemLines h) index (generatedPoem h)
                  (display_effect (poemLines h) index d) = placeholder.
Proof.
  intros Hsnap Hinput Hres Hctx Hpoem Htext Hspeech Hdec.
  destruct (generation_success_hooks snap poemInput gen a text mp3 b
              Hinput Hres Hctx Hpoem Htext Hspeech Hdec) as (w & -> & Hh & Hplay & _).
  rewrite Hsnap in Hh. cbn [fst snd world].
  destruct w as [h ? ? ? ? ? ? ? ?]. destruct h.
  cbn in Hplay. unfold without_playback in Hh. cbn in Hh.
  injection Hh; intros; subst. cbn [hooks generatedPoem poemLines isPlaying].
  split; [reflexivity|]. split; [reflexivity|]. split; [reflexivity|].
  intros index. apply content_never_empty_aux.
Qed.


Lemma failed_generation_discards_audio_witness :
  let r := handleGeneratePoem ready_hooks two_line_poem generation_refused
             (mkApp ready false) in
  errorMessage (hooks (world (snd r))) = "Quota exceeded" ∧
  currentPlaybackAudioBuffer (hooks (world (snd r))) = None ∧
  currentDownloadMp3Buffer (hooks (world (snd r))) = None.
Proof.
  destruct (failed_generation_discards_audio ready_hooks two_line_poem generation_refused
              (mkApp ready false) "Quota exceeded")
    as (_ & Herr & _ & Hplay & Hdown & _).
  - reflexivity.
  - intros m. discriminate.
  - reflexivity.
  - split; [exact Herr|]. split; [exact Hplay | exact Hdown].
Defined.

Lemma play_pause_toggles_witness :
  isPlaying (hooks (snd (handlePlayPause ready_hooks ready))) = true ∧
  (0, 4000%Q) ∈ ended_queue (snd (handlePlayPause ready_hooks ready)).
Proof.
  destruct (play_pause_toggles ready_hooks ready four_seconds) as (_ & Hflip & _ & Hstart).
  - reflexivity.
  - reflexivity.
  - split; [exact Hflip|].
    destruct (Hstart eq_refl) as (source & _ & Hin). vm_compute. apply list_elem_of_here.
Defined.

Lemma highlighted_line_is_shown_witness :
  contentToShow (poem_lines two_line_poem) 1 two_line_poem
    (fade_out_done (display_effect (poem_lines two_line_poem) 1 (mkDisplay [] false None))) =
  [99; 100]%N.
Proof.
  destruct (highlighted_line_is_shown two_line_poem two_line_poem 1 [99; 100]%N
              (mkDisplay [] false None)) as (_ & _ & Hshown).
  - reflexivity.
  - exact Hshown.
Defined.

Lemma first_poem_shows_placeholder_witness :
  let h := hooks (world (snd (handleGeneratePoem initial_hooks two_line_poem generation_ok
                                fresh_app))) in
  generatedPoem h = two_line_poem ∧
  contentToShow (poemLines h) (currentLineIndex h) (generatedPoem h)
                (display_effect (poemLines h) (currentLineIndex h) (mkDisplay [] false None)) =
    placeholder.
Proof.
  destruct (first_poem_shows_placeholder initial_hooks two_line_poem generation_ok fresh_app
              two_line_poem speech_mp3 mixed_four_seconds (mkDisplay [] false None))
    as (Hpoem & _ & _ & Hshown).
  - reflexivity.
  - reflexivity.
  - intros message. discriminate.
  - reflexivity.
  - reflexivity.
  - reflexivity.
  - reflexivity.
  - reflexivity.
  - split; [exact Hpoem | apply Hshown].
Defined.

End PageFacts.

(* ===================================================================== *)
(** ** The lines of every reachable state *)
(* ===================================================================== *)

Module ReachFacts.
Import Player PlayerFacts PlayerMore Page Doubles DoublesFacts.

Lemma without_playback_lines h : poemLines (without_playback h) = poemLines h.
Proof. by destruct h. Qed.

Lemma frame_lines w w' :
  without_playback (hooks w') = without_playback (hooks w) →
  poemLines (hooks w') = poemLines (hooks w).
Proof.
  intros H. rewrite <- (without_playback_lines (hooks w')), H. apply without_playback_lines.
Qed.

Lemma stopAudio_lines w : poemLines (hooks (stopAudio w)) = poemLines (hooks w).
Proof.
  destruct w as [h ac src ltr clk tms eq nt ns]. destruct h.
  unfold stopAudio, clearLineTimers. destruct src, ltr; reflexivity.
Qed.

Lemma advance_lines t w : poemLines (hooks (advance t w)) = poemLines (hooks w).
Proof. apply frame_lines. unfold advance. apply advance_fuel_frame. Qed.

Lemma await_lines t w : poemLines (hooks (await t w)) = poemLines (hooks w).
Proof. apply frame_lines, await_frame. Qed.

Lemma playAudio_lines lines buffer w :
  poemLines (hooks (snd (playAudio lines buffer w))) = poemLines (hooks w).
Proof.
  destruct w as [h ac src ltr clk tms eq nt ns]. destruct h.
  destruct ac, lines as [|l ls], buffer as [b|], src, ltr; wexec;
    rewrite ?schedule_lines_spec; wexec; reflexivity.
Qed.

Lemma sync_lines poem d r type w :
  poemLines (hooks (setAudioAndSyncData poem d r type w)) = poem_lines poem.
Proof. destruct w as [h ac src ltr clk tms eq nt ns]. destruct h, type; reflexivity. Qed.

Lemma setErrorMessage_lines m w : poemLines (hooks (setErrorMessage m w)) = poemLines (hooks w).
Proof. destruct w as [h ac src ltr clk tms eq nt ns]. by destruct h. Qed.

Lemma setLoadingMessage_lines m w :
  poemLines (hooks (setLoadingMessage m w)) = poemLines (hooks w).
Proof. destruct w as [h ac src ltr clk tms eq nt ns]. by destruct h. Qed.

Lemma setIsMixing_lines v w : poemLines (hooks (setIsMixing v w)) = poemLines (hooks w).
Proof. destruct w as [h ac src ltr clk tms eq nt ns]. by destruct h. Qed.

Lemma setMusicChoice_lines v w : poemLines (hooks (setMusicChoice v w)) = poemLines (hooks w).
Proof. destruct w as [h ac src ltr clk tms eq nt ns]. by destruct h. Qed.

Lemma setSpeechOnlyRawMp3Buffer_lines v w :
  poemLines (hooks (setSpeechOnlyRawMp3Buffer v w)) = poemLines (hooks w).
Proof. destruct w as [h ac src ltr clk tms eq nt ns]. by destruct h. Qed.

Lemma setGeneratedPoem_lines v w :
  poemLines (hooks (setGeneratedPoem v w)) = poemLines (hooks w).
Proof. destruct w as [h ac src ltr clk tms eq nt ns]. by destruct h. Qed.

Lemma generate_prelude_lines w : poemLines (hooks (generate_prelude w)) = [].
Proof.
  unfold generate_prelude.
  destruct (stopAudio w) as [h ac src ltr clk tms eq nt ns]. by destruct h.
Qed.

Ltac lines_step :=
  repeat first
    [ rewrite playAudio_lines | rewrite sync_lines | rewrite setErrorMessage_lines
    | rewrite setLoadingMessage_lines | rewrite setIsMixing_lines
    | rewrite setMusicChoice_lines | rewrite setSpeechOnlyRawMp3Buffer_lines
    | rewrite setGeneratedPoem_lines | rewrite await_lines | rewrite stopAudio_lines
    | rewrite generate_prelude_lines ].

Lemma mix_try_lines snap newMusicChoice net w :
  poemLines (hooks (snd (mix_try snap newMusicChoice net w))) = poemLines (hooks w) ∨
  poemLines (hooks (snd (mix_try snap newMusicChoice net w))) = poem_lines (generatedPoem snap).
Proof.
  unfold mix_try.
  destruct (String.eqb newMusicChoice "none").
  - destruct (speechOnlyDecodedBuffer snap), (speechOnlyRawMp3Buffer snap);
      try (right; lines_step; reflexivity);
      destruct (speech net); cbn [snd]; try (left; lines_step; reflexivity);
      destruct (decoded net); cbn [snd]; lines_step; auto.
  - cbv zeta.
    destruct (speechOnlyRawMp3Buffer snap); [|destruct (speech net)]; cbn [snd];
      try (left; lines_step; reflexivity);
      destruct (mix_response net) as [m|ok st js pl]; cbn [snd];
      try (left; lines_step; reflexivity);
      destruct ok; cbn [negb snd]; try (left; lines_step; reflexivity);
      destruct (decoded net); cbn [snd]; lines_step; auto.
Qed.

Lemma mix_catch_lines snap message w :
  poemLines (hooks (mix_catch snap message w)) = poemLines (hooks w) ∨
  poemLines (hooks (mix_catch snap message w)) = poem_lines (generatedPoem snap).
Proof.
  unfold mix_catch.
  destruct (speechOnlyDecodedBuffer snap), (speechOnlyRawMp3Buffer snap); lines_step; auto.
Qed.

Lemma handleMusicChange_lines snap newMusicChoice net w :
  poemLines (hooks (handleMusicChange snap newMusicChoice net w)) = poemLines (hooks w) ∨
  poemLines (hooks (handleMusicChange snap newMusicChoice net w))
    = poem_lines (generatedPoem snap).
Proof.
  unfold handleMusicChange.
  destruct (negb (nonempty_js (generatedPoem snap))); [left; by lines_step|].
  destruct (negb (audioContext w)); [left; by lines_step|].
  destruct (String.eqb (musicChoice snap) newMusicChoice); [by left|].
  pose proof (mix_try_lines snap newMusicChoice net (mix_prelude newMusicChoice w)) as Htry.
  assert (Hpre : poemLines (hooks (mix_prelude newMusicChoice w)) = poemLines (hooks w)).
  { unfold mix_prelude. by lines_step. }
  rewrite Hpre in Htry.
  destruct (mix_try snap newMusicChoice net (mix_prelude newMusicChoice w)) as [r w2].
  cbn [snd] in Htry. lines_step.
  destruct r as [|message]; [exact Htry|].
  destruct (mix_catch_lines snap message w2) as [E|E]; rewrite E; [exact Htry | by right].
Qed.

Lemma generate_try_lines snap gen w :
  poemLines (hooks (snd (generate_try snap gen w))) = poemLines (hooks w) ∨
  poemLines (hooks (snd (generate_try snap gen w))) = poem_lines (generatedPoem snap).
Proof.
  unfold generate_try. cbv zeta.
  destruct (poem gen) as [m|[[|c text]|]]; cbn [snd]; try (left; by lines_step).
  destruct (speech (net gen)); cbn [snd]; try (left; by lines_step).
  destruct (negb (audioContext _)); cbn [snd]; [left; by lines_step|].
  destruct (decoded (net gen)); cbn [snd]; [left; by lines_step|].
  right. by lines_step.
Qed.

Lemma handleGeneratePoem_lines snap poemInput gen a :
  let w' := world (snd (handleGeneratePoem snap poemInput gen a)) in
  poemLines (hooks w') = poemLines (hooks (world a)) ∨ poemLines (hooks w') = [] ∨
  poemLines (hooks w') = poem_lines (generatedPoem snap).
Proof.
  cbv zeta. unfold handleGeneratePoem.
  destruct (negb (nonempty_js (trim poemInput))); [left; cbn [snd world]; by lines_step|].
  assert (Hres : ∀ w0 : World, poemLines (hooks w0) = poemLines (hooks (world a)) →
     ∀ o : Outcome,
     let r := match o with
              | Thrown message => (Thrown message, mkApp w0 (isLoading a))
              | Done =>
                  let '(r, w2) := generate_try snap gen (generate_prelude w0) in
                  (Done, mkApp (setLoadingMessage ""
                                  match r with
                                  | Done => w2
                                  | Thrown message => setErrorMessage message w2
                                  end) false)
              end in
     poemLines (hooks (world (snd r))) = poemLines (hooks (world a)) ∨
     poemLines (hooks (world (snd r))) = [] ∨
     poemLines (hooks (world (snd r))) = poem_lines (generatedPoem snap)).
  { intros w0 Hw0 [|message]; cbv zeta; [|left; exact Hw0].
    pose proof (generate_try_lines snap gen (generate_prelude w0)) as Htry.
    rewrite generate_prelude_lines in Htry.
    destruct (generate_try snap gen (generate_prelude w0)) as [r w2].
    cbn [snd world] in *. right.
    destruct r; lines_step; tauto. }
  destruct (audioContext (world a)); [destruct (resume gen) as [[m|]|]|].
  - exact (Hres _ (await_lines _ _) (Thrown m)).
  - exact (Hres _ (await_lines _ _) Done).
  - exact (Hres _ eq_refl Done).
  - exact (Hres _ eq_refl Done).
Qed.

Lemma handlePlayPause_lines snap w :
  poemLines (hooks (snd (handlePlayPause snap w))) = poemLines (hooks w).
Proof.
  unfold handlePlayPause.
  destruct (currentPlaybackAudioBuffer snap); [destruct (isPlaying snap)|];
    cbn [snd]; by lines_step.
Qed.

Lemma reachable_lines w :
  reachable w →
  poemLines (hooks w) = [] ∨
  ∃ rendered, reachable rendered ∧
              poemLines (hooks w) = poem_lines (generatedPoem (hooks rendered)).
Proof.
  induction 1 as [w Hinit|rendered poemInput gen w loading Hr _ Hw IH
                  |rendered choice net w Hr _ Hw IH|rendered w Hr _ Hw IH|w Hw IH|t w Hw IH].
  - left. by rewrite Hinit.
  - destruct (handleGeneratePoem_lines (hooks rendered) poemInput gen (mkApp w loading))
      as [E|[E|E]]; rewrite E; [exact IH | by left | right; by exists rendered].
  - destruct (handleMusicChange_lines (hooks rendered) choice net w) as [E|E]; rewrite E;
      [exact IH | right; by exists rendered].
  - by rewrite handlePlayPause_lines.
  - unfold handleStop. by rewrite stopAudio_lines.
  - by rewrite advance_lines.
Qed.

Lemma round64_nonneg x : (0 <= x → 0 <= round64 x)%Q.
Proof.
  intros Hx. unfold round64. destruct (Qnum x) eqn:Hn.
  - apply Qle_refl.
  - unfold round64_pos. rewrite Qred_correct.
    apply Qmult_le_0_compat; [|apply Qlt_le_weak, pow2_pos].
    change 0%Q with (inject_Z 0). rewrite <- Zle_Qle.
    set (y := (x / 2 ^ Z.max (ilog2 x - 52) (-1074))%Q).
    assert (Hy : (0 <= y)%Q).
    { apply Qle_shift_div_l; [apply pow2_pos|]. by rewrite Qmult_0_l. }
    assert (Hf : (0 <= Qfloor y)%Z).
    { change 0%Z with (Qfloor 0). by apply Qfloor_resp_le. }
    unfold rne. destruct (_ ?= _)%Q; [destruct (Z.even _)| |]; lia.
  - exfalso. destruct x as [n d]. simpl in Hn. subst n. by apply Hx.
Qed.

(** C10. In every state the page can reach, [poemLines] is empty or the
    non-blank lines of the poem of a reachable state, stored by
    [setAudioAndSyncData]; so each of its lines has at least one character,
    and when it is non-empty (the case in which [playAudio] divides) the
    total character count is at least 1, the divisor is not zero, and for a
    duration D >= 0 every allotted duration is >= 0, computed exactly or in
    double precision. *)
Theorem poem_lines_safe_division w :
  reachable w →
  let lines := poemLines (hooks w) in
  (lines = [] ∨
   ∃ rendered, reachable rendered ∧ lines = poem_lines (generatedPoem (hooks rendered))) ∧
  Forall (fun line => 1 ≤ length line) lines ∧
  (lines ≠ [] →
     1 ≤ totalChars lines ∧ ¬ (of_nat (totalChars lines) == 0)%Q ∧
     ∀ D, (0 <= D)%Q →
       Forall (fun d => (0 <= d)%Q) (lineDurations D lines) ∧
       Forall (fun d => (0 <= d)%Q) (lineDurations_in binary64 D lines)).
Proof.
  intros Hw lines.
  pose proof (reachable_lines w Hw) as Hsrc. fold lines in Hsrc.
  assert (Hall : Forall (fun line => 1 ≤ length line) lines).
  { destruct Hsrc as [->|(r & _ & ->)]; [constructor | apply poem_lines_lengths]. }
  split; [exact Hsrc|]. split; [exact Hall|].
  intros Hne.
  assert (Hpos : 1 ≤ totalChars lines).
  { destruct lines as [|l ls]; [done|].
    apply Forall_cons in Hall as [Hl _]. pose proof (totalChars_ge_first l ls). simpl in Hl. lia. }
  assert (Hq : (0 < of_nat (totalChars lines))%Q) by (apply of_nat_pos; lia).
  split; [exact Hpos|]. split.
  - intros E. rewrite E in Hq. by apply Qlt_irrefl in Hq.
  - intros D HD. split; [by apply durations_nonneg|].
    unfold lineDurations_in. apply List.Forall_forall. intros d Hd.
    apply List.in_map_iff in Hd as (line & <- & _). cbn [mul div binary64].
    apply round64_nonneg, Qmult_le_0_compat; [exact HD|].
    apply round64_nonneg, Qle_shift_div_l; [exact Hq|]. rewrite Qmult_0_l. apply of_nat_nonneg.
Qed.

Lemma poem_lines_safe_division_witness :
  poemLines (hooks after_music) = two_lines ∧
  1 ≤ totalChars (poemLines (hooks after_music)) ∧
  Forall (fun d => (0 <= d)%Q) (lineDurations_in binary64 4 (poemLines (hooks after_music))).
Proof.
  assert (Hgen : reachable after_generation).
  { apply (reach_generate (world fresh_app) (js "ab") generation_ok (world fresh_app) false);
      apply reach_initial; reflexivity. }
  assert (Hmix : reachable after_music) by (apply reach_music; exact Hgen).
  destruct (poem_lines_safe_division after_music Hmix) as (_ & _ & Hsafe).
  destruct Hsafe as (Hc & _ & Hd).
  - vm_compute. discriminate.
  - split; [vm_compute; reflexivity|]. split; [exact Hc|].
    apply (Hd 4%Q). vm_compute. discriminate.
Defined.

End ReachFacts.

(* ===================================================================== *)
(** ** The page against its two endpoints *)
(* ===================================================================== *)

Module EndToEnd.
Import Player PlayerFacts PlayerMore Page.

Lemma thrown_mix_message snap newMusicChoice net w message w2 :
  nonempty_js (generatedPoem snap) = true → audioContext w = true →
  musicChoice snap ≠ newMusicChoice →
  mix_try snap newMusicChoice net (mix_prelude newMusicChoice w) = (Thrown message, w2) →
  errorMessage (hooks (handleMusicChange snap newMusicChoice net w)) = message ∧
  musicChoice (hooks (handleMusicChange snap newMusicChoice net w)) = "none" ∧
  isMixing (hooks (handleMusicChange snap newMusicChoice net w)) = false.
Proof.
  intros Hpoem Hctx Hchoice Htry.
  unfold handleMusicChange. rewrite Hpoem, Hctx. cbn [negb].
  destruct (String.eqb_spec (musicChoice snap) newMusicChoice) as [E|_]; [done|].
  rewrite Htry. unfold mix_catch.
  destruct w2 as [h2 ? ? ? ? ? ? ? ?]. destruct h2.
  destruct (speechOnlyDecodedBuffer snap), (speechOnlyRawMp3Buffer snap); repeat split.
Qed.

(** X28. When [handleMusicChange] has to regenerate the narration (no raw
    speech buffer) and [generateSpeech] gets no ok answer, the message shown
    is the fixed sentence of [generateSpeech], not that of the null check
    after the call, and the choice falls back to none. *)
Theorem regeneration_failure_message snap newMusicChoice net w fetch :
  nonempty_js (generatedPoem snap) = true → audioContext w = true →
  musicChoice snap ≠ newMusicChoice →
  speechOnlyRawMp3Buffer snap = None →
  speech net = fst (Tts.generateSpeech fetch (generatedPoem snap)) →
  (∀ status json mp3,
     fetch (Voice.speech_request (generatedPoem snap)) ≠ FetchResponds true status json mp3) →
  let h := hooks (handleMusicChange snap newMusicChoice net w) in
  errorMessage h = Tts.muse_silent ∧ musicChoice h = "none" ∧ isMixing h = false.
Proof.
  intros Hpoem Hctx Hchoice Hraw Hspeech Hfail.
  assert (Hs : speech net = SpeechRejects Tts.muse_silent).
  { rewrite Hspeech. unfold Tts.generateSpeech.
    destruct (fetch (Voice.speech_request (generatedPoem snap))) as [m|[] status json mp3] eqn:Hf;
      [reflexivity | by destruct (Hfail status json mp3) | reflexivity]. }
  cbv zeta.
  eapply (thrown_mix_message snap newMusicChoice net w Tts.muse_silent); try eassumption.
  unfold mix_try. rewrite Hraw, Hs.
  destruct (String.eqb newMusicChoice "none"); [destruct (speechOnlyDecodedBuffer snap)|];
    reflexivity.
Qed.

(** X29. When the mixing endpoint answers the page's request with a status
    other than 200, the message of its JSON body is the error message the
    page shows, the music choice falls back to none and mixing is over. *)
Theorem server_error_reaches_user snap newMusicChoice net w env upload disk voice :
  nonempty_js (generatedPoem snap) = true → audioContext w = true →
  musicChoice snap ≠ newMusicChoice → newMusicChoice ≠ "none" →
  speechOnlyRawMp3Buffer snap = Some voice →
  mix_answers env (mix_request upload newMusicChoice) disk (mix_response net) →
  Mix.statusCode (Mix.res (Mix.final env (mix_request upload newMusicChoice) disk)) ≠ 200%N →
  let h := hooks (handleMusicChange snap newMusicChoice net w) in
  Mix.body (Mix.res (Mix.final env (mix_request upload newMusicChoice) disk)) =
    Mix.BodyJson (errorMessage h) ∧
  errorMessage h ≠ "" ∧ musicChoice h = "none" ∧ isMixing h = false.
Proof.
  intros Hpoem Hctx Hchoice Hnone Hvoice Hans Hstatus.
  destruct (MixMore.failure_is_json env (mix_request upload newMusicChoice) disk Hstatus)
    as (msg & Hmsg & Hbody & Hok).
  assert (Hresp : ∃ status bytes,
            mix_response net = FetchResponds false status (JsonParsed (Some msg)) bytes).
  { inversion Hans as [error bytes Hb Hfo | sent json Hb He Hfo].
    - rewrite Hbody in Hb. injection Hb as <-. rewrite Hok. by eexists _, _.
    - rewrite Hbody in Hb. discriminate. }
  destruct Hresp as (status & bytes & Hresp).
  assert (Htry : ∃ w2, mix_try snap newMusicChoice net (mix_prelude newMusicChoice w) =
                         (Thrown msg, w2)).
  { unfold mix_try. apply String.eqb_neq in Hnone. rewrite Hnone, Hvoice, Hresp.
    cbn [negb response_error]. apply String.eqb_neq in Hmsg. rewrite Hmsg. by eexists. }
  destruct Htry as [w2 Htry].
  destruct (thrown_mix_message snap newMusicChoice net w msg w2 Hpoem Hctx Hchoice Htry)
    as (He & Hm & Hi).
  cbv zeta. rewrite He. by repeat split.
Qed.

Lemma regeneration_failure_message_witness :
  let h := hooks (handleMusicChange unvoiced_hooks "ambient"
                    (mkNetwork (SpeechRejects Tts.muse_silent) (FetchRejects "Failed to fetch")
                               (DecodeOk mixed_four_seconds) 1500) ready) in
  errorMessage h = Tts.muse_silent ∧ musicChoice h = "none".
Proof.
  destruct (regeneration_failure_message unvoiced_hooks "ambient"
              (mkNetwork (SpeechRejects Tts.muse_silent) (FetchRejects "Failed to fetch")
                         (DecodeOk mixed_four_seconds) 1500)
              ready (fun _ => FetchRejects "Failed to fetch"))
    as (Herr & Hchoice & _).
  - reflexivity.
  - reflexivity.
  - discriminate.
  - reflexivity.
  - reflexivity.
  - intros status json mp3. discriminate.
  - split; assumption.
Defined.

Lemma server_error_reaches_user_witness :
  let h := hooks (handleMusicChange ready_hooks "ambient" mix_refused ready) in
  errorMessage h =
    "The blend was lost in the ether. Failed to weave voice and music into one tapestry." ∧
  musicChoice h = "none".
Proof.
  destruct (server_error_reaches_user ready_hooks "ambient" mix_refused ready
              Mix.env_ffmpeg_fails (Mix.upload_of 3)
              (Mix.disk_with [Byte.x49; Byte.x44; Byte.x33]) speech_mp3)
    as (Hbody & _ & Hchoice & _).
  - reflexivity.
  - reflexivity.
  - discriminate.
  - discriminate.
  - reflexivity.
  - exact (mix_answers_json Mix.env_ffmpeg_fails (mix_request (Mix.upload_of 3) "ambient")
             (Mix.disk_with [Byte.x49; Byte.x44; Byte.x33])
             "The blend was lost in the ether. Failed to weave voice and music into one tapestry."
             [] eq_refl).
  - vm_compute. discriminate.
  - split; [|exact Hchoice]. vm_compute. reflexivity.
Defined.

End EndToEnd.
